(** * Gridlocked: the puzzle engine, the replay validator, the rotation
    transform and the placement logic of the puzzle editor, embedded from
    [src/core/GameEngine.ts], [src/data/puzzles/index.ts] and the class
    [PuzzleEditor].

    Numbers are integers ([Z]); the JavaScript [Map]s are [gmap]s; the
    string tags of the enumerations are constructors. Functions that can
    throw return an [option]: [None] is the [TypeError] of reading a field
    of a missing map entry, or the [Error] thrown by
    [deduceExitDirection]. *)

From Stdlib Require Import ZArith Lia Ascii.
From stdpp Require Import base option list list_numbers gmap strings fin_maps pretty.

Local Open Scope Z_scope.

(** ** Data model ([types/puzzle.ts], [types/game.ts]) *)

Inductive Orientation := Horizontal | Vertical.
Inductive VehicleType := Car | Truck.
Inductive ObstacleType := Tree | Sidewalk | Barrier.
Inductive Difficulty := Tutorial | Easy | Medium | Hard.
Inductive Direction := Up | Down | Left | Right.
Inductive VehicleColor := Blue | Green | Yellow | Purple.

#[global] Instance Orientation_eq_dec : EqDecision Orientation.
Proof. solve_decision. Defined.
#[global] Instance Direction_eq_dec : EqDecision Direction.
Proof. solve_decision. Defined.
#[global] Instance VehicleColor_eq_dec : EqDecision VehicleColor.
Proof. solve_decision. Defined.

Record Position := { row : Z; col : Z }.
Record GridSize := { rows : Z; cols : Z }.
Record Exit := { e_row : Z; e_col : Z; direction : Direction }.

Record Vehicle := {
  v_id : string;
  v_row : Z;
  v_col : Z;
  v_length : Z;
  v_orientation : Orientation;
  v_type : option VehicleType;
  v_color : option VehicleColor
}.

Record Obstacle := { o_id : string; o_row : Z; o_col : Z; o_type : ObstacleType }.

Record PuzzleMove := { vehicleId : string; m_row : Z; m_col : Z }.

Record ValidationResult := {
  isValid : bool;
  par : option Z;
  error : option string
}.

Record Puzzle := {
  p_id : string;
  name : string;
  difficulty : Difficulty;
  gridSize : GridSize;
  exit : Exit;
  playerCar : Vehicle;
  vehicles : list Vehicle;
  obstacles : list Obstacle;
  validation : option (list PuzzleMove);
  validationResult : option ValidationResult
}.

Record GameState := {
  puzzle : Puzzle;
  vehiclePositions : gmap string Position;
  moveCount : Z;
  isComplete : bool
}.

(** The engine object: its state, the registered listeners (handles, in
    registration order), the move history, and the log of listener calls
    made so far (which listener, with which state). *)
Record GameEngine := {
  state : GameState;
  listeners : list nat;
  moveHistory : list PuzzleMove;
  delivered : list (nat * GameState)
}.

(** A grid cell; the source keys its occupancy map by the text
    [`${r},${c}`], which determines the pair of integers. *)
Definition Cell : Type := Z * Z.

(** ** The engine ([core/GameEngine.ts]) *)

Definition initState (puzzle : Puzzle) : GameState :=
  let player := playerCar puzzle in
  let vp0 : gmap string Position :=
    <[v_id player := {| row := v_row player; col := v_col player |}]> ∅ in
  let vp := foldl (λ (m : gmap string Position) v,
                     <[v_id v := {| row := v_row v; col := v_col v |}]> m)
                  vp0 (vehicles puzzle) in
  {| puzzle := puzzle; vehiclePositions := vp; moveCount := 0; isComplete := false |}.

Definition newEngine (puzzle : Puzzle) : GameEngine :=
  {| state := initState puzzle; listeners := []; moveHistory := []; delivered := [] |}.

Definition getState (e : GameEngine) : GameState := state e.

(** [this.listeners.add(fn)] on the [Set] of listeners. *)
Definition subscribe (fn : nat) (e : GameEngine) : GameEngine :=
  {| state := state e;
     listeners := if decide (fn ∈ listeners e) then listeners e else listeners e ++ [fn];
     moveHistory := moveHistory e;
     delivered := delivered e |}.

(** [for (const fn of this.listeners) fn(this.state)]: one logged call per
    listener. *)
Definition notify (e : GameEngine) : GameEngine :=
  {| state := state e;
     listeners := listeners e;
     moveHistory := moveHistory e;
     delivered := delivered e ++ ((λ fn, (fn, state e)) <$> listeners e) |}.

Definition getVehicle (e : GameEngine) (id : string) : option Vehicle :=
  let p := puzzle (state e) in
  if decide (id = v_id (playerCar p)) then Some (playerCar p)
  else List.find (λ v, bool_decide (v_id v = id)) (vehicles p).

(** The cell visited at step [i] of the loops over a vehicle's length. *)
Definition cellAt (vehicle : Vehicle) (pos : Position) (i : Z) : Cell :=
  let r := if decide (v_orientation vehicle = Vertical) then row pos + i else row pos in
  let c := if decide (v_orientation vehicle = Horizontal) then col pos + i else col pos in
  (r, c).

(** [for (let i = 0; i < vehicle.length; i++)]: the cells in loop order. *)
Definition vehicleCells (vehicle : Vehicle) (pos : Position) : list Cell :=
  cellAt vehicle pos <$> seqZ 0 (v_length vehicle).

(** [pos] is the result of [vehiclePositions.get(id)!]; it is read only
    inside the loop body, so a missing entry fails only when the loop runs. *)
Definition addVehicleCells (vehicle : Vehicle) (pos : option Position)
    (occupied : gmap Cell string) : option (gmap Cell string) :=
  match seqZ 0 (v_length vehicle) with
  | [] => Some occupied
  | _ =>
    p ← pos;
    Some (foldl (λ (occ : gmap Cell string) c, <[c := v_id vehicle]> occ)
                occupied (vehicleCells vehicle p))
  end.

Definition addOtherVehicles (vp : gmap string Position) (excludeId : option string)
    (vs : list Vehicle) (occupied : gmap Cell string) : option (gmap Cell string) :=
  foldl (λ (acc : option (gmap Cell string)) v,
           occ ← acc;
           if decide (Some (v_id v) = excludeId) then Some occ
           else addVehicleCells v (vp !! v_id v) occ)
        (Some occupied) vs.

Definition addObstacles (obs : list Obstacle) (occupied : gmap Cell string)
    : gmap Cell string :=
  foldl (λ (occ : gmap Cell string) o, <[(o_row o, o_col o) := o_id o]> occ)
        occupied obs.

Definition getOccupiedCells (e : GameEngine) (excludeId : option string)
    : option (gmap Cell string) :=
  let st := state e in
  let p := puzzle st in
  let playerPos := vehiclePositions st !! v_id (playerCar p) in
  occ0 ← (if decide (excludeId ≠ Some (v_id (playerCar p)))
          then addVehicleCells (playerCar p) playerPos ∅ else Some ∅);
  occ1 ← addOtherVehicles (vehiclePositions st) excludeId (vehicles p) occ0;
  Some (addObstacles (obstacles p) occ1).

(** The bounds test [r < 0 || r >= rows || c < 0 || c >= cols], negated. *)
Definition inGrid (gs : GridSize) (c : Cell) : bool :=
  negb ((c.1 <? 0) || (rows gs <=? c.1) || (c.2 <? 0) || (cols gs <=? c.2)).

(** [occupied.has(key)]. *)
Definition has (occupied : gmap Cell string) (c : Cell) : bool :=
  bool_decide (is_Some (occupied !! c)).

(** The two loops over the target cells return false at the first failing
    cell and have no other effect: a [forallb] and an [existsb]. *)
Definition canMove (e : GameEngine) (vehicleId : string) (newPos : Position)
    : option bool :=
  match getVehicle e vehicleId with
  | None => Some false
  | Some vehicle =>
    currentPos ← vehiclePositions (state e) !! vehicleId;
    if bool_decide (v_orientation vehicle = Horizontal)
       && negb (row newPos =? row currentPos) then Some false
    else if bool_decide (v_orientation vehicle = Vertical)
       && negb (col newPos =? col currentPos) then Some false
    else
      let gs := gridSize (puzzle (state e)) in
      if negb (forallb (inGrid gs) (vehicleCells vehicle newPos)) then Some false
      else
        occupied ← getOccupiedCells e (Some vehicleId);
        if existsb (has occupied) (vehicleCells vehicle newPos) then Some false
        else Some true
  end.

Definition checkWin (e : GameEngine) : option bool :=
  let p := puzzle (state e) in
  let ex := exit p in
  let player := playerCar p in
  let pos := vehiclePositions (state e) !! v_id player in
  match v_orientation player, direction ex with
  | Horizontal, Right =>
      pos ← pos;
      Some ((row pos =? e_row ex) && (col pos + v_length player - 1 =? e_col ex))
  | Horizontal, Left =>
      pos ← pos; Some ((row pos =? e_row ex) && (col pos =? e_col ex))
  | Vertical, Down =>
      pos ← pos;
      Some ((col pos =? e_col ex) && (row pos + v_length player - 1 =? e_row ex))
  | Vertical, Up =>
      pos ← pos; Some ((col pos =? e_col ex) && (row pos =? e_row ex))
  | _, _ => Some false
  end.

Definition setPosition (vehicleId : string) (newPos : Position) (e : GameEngine)
    : GameEngine :=
  {| state := {| puzzle := puzzle (state e);
                 vehiclePositions := <[vehicleId := newPos]> (vehiclePositions (state e));
                 moveCount := moveCount (state e) + 1;
                 isComplete := isComplete (state e) |};
     listeners := listeners e;
     moveHistory := moveHistory e
       ++ [{| vehicleId := vehicleId; m_row := row newPos; m_col := col newPos |}];
     delivered := delivered e |}.

Definition setComplete (e : GameEngine) : GameEngine :=
  {| state := {| puzzle := puzzle (state e);
                 vehiclePositions := vehiclePositions (state e);
                 moveCount := moveCount (state e);
                 isComplete := true |};
     listeners := listeners e;
     moveHistory := moveHistory e;
     delivered := delivered e |}.

Definition moveVehicle (e : GameEngine) (vehicleId : string) (newPos : Position)
    : option (bool * GameEngine) :=
  ok ← canMove e vehicleId newPos;
  if negb ok then Some (false, e)
  else
    currentPos ← vehiclePositions (state e) !! vehicleId;
    if (row currentPos =? row newPos) && (col currentPos =? col newPos)
    then Some (false, e)
    else
      let e1 := setPosition vehicleId newPos e in
      won ← checkWin e1;
      let e2 := if (won : bool) then setComplete e1 else e1 in
      Some (true, notify e2).

Definition getMoveHistory (e : GameEngine) : list PuzzleMove := moveHistory e.

Definition reset (e : GameEngine) : GameEngine :=
  notify {| state := initState (puzzle (state e));
            listeners := listeners e;
            moveHistory := [];
            delivered := delivered e |}.

Record SlideRange := { sr_min : Z; sr_max : Z }.

Definition testPos (isHorizontal : bool) (currentPos : Position) (k : Z) : Position :=
  if isHorizontal then {| row := row currentPos; col := k |}
  else {| row := k; col := col currentPos |}.

(** [while (min > 0) { if (canMove(.., min - 1)) min--; else break; }];
    [fuel] bounds the number of iterations. *)
Fixpoint slideBackward (fuel : nat) (e : GameEngine) (vehicleId : string)
    (isHorizontal : bool) (currentPos : Position) (min : Z) : option Z :=
  match fuel with
  | O => None
  | S fuel' =>
    if 0 <? min then
      ok ← canMove e vehicleId (testPos isHorizontal currentPos (min - 1));
      if (ok : bool)
      then slideBackward fuel' e vehicleId isHorizontal currentPos (min - 1)
      else Some min
    else Some min
  end.

(** [while (max + vehicle.length < limit) { if (canMove(.., max + 1)) max++;
    else break; }] *)
Fixpoint slideForward (fuel : nat) (e : GameEngine) (vehicleId : string)
    (isHorizontal : bool) (currentPos : Position) (len limit max : Z) : option Z :=
  match fuel with
  | O => None
  | S fuel' =>
    if max + len <? limit then
      ok ← canMove e vehicleId (testPos isHorizontal currentPos (max + 1));
      if (ok : bool)
      then slideForward fuel' e vehicleId isHorizontal currentPos len limit (max + 1)
      else Some max
    else Some max
  end.

(** The backward loop runs at most [currentVal] times and the forward loop
    at most [limit - length - currentVal] times; each gets one unit of fuel
    more than that. *)
Definition getSlideRange (e : GameEngine) (vehicleId : string) : option SlideRange :=
  vehicle ← getVehicle e vehicleId;
  currentPos ← vehiclePositions (state e) !! vehicleId;
  let isHorizontal := bool_decide (v_orientation vehicle = Horizontal) in
  let currentVal := if isHorizontal then col currentPos else row currentPos in
  min ← slideBackward (S (Z.to_nat currentVal)) e vehicleId isHorizontal
                      currentPos currentVal;
  let gs := gridSize (puzzle (state e)) in
  let limit := if isHorizontal then cols gs else rows gs in
  max ← slideForward (S (Z.to_nat (limit - v_length vehicle - currentVal))) e vehicleId
                     isHorizontal currentPos (v_length vehicle) limit currentVal;
  Some {| sr_min := min; sr_max := max |}.

(** The replay loop of [validatePuzzle], from index [i]: the failing index
    if a move is refused, and the engine as the loop leaves it. *)
Fixpoint replay (engine : GameEngine) (moves : list PuzzleMove) (i : Z)
    : option (option Z * GameEngine) :=
  match moves with
  | [] => Some (None, engine)
  | move :: rest =>
    r ← moveVehicle engine (vehicleId move) {| row := m_row move; col := m_col move |};
    if (r.1 : bool) then replay r.2 rest (i + 1) else Some (Some i, r.2)
  end.

Definition validatePuzzle (puzzle : Puzzle) : option ValidationResult :=
  match validation puzzle with
  | None | Some [] =>
    Some {| isValid := false; par := None; error := Some "No validation provided" |}
  | Some moves =>
    let engine := newEngine puzzle in
    r ← replay engine moves 0;
    match r.1 with
    | Some i =>
      Some {| isValid := false; par := None;
              error := Some ("Invalid move at step " +:+ pretty (i + 1)) |}
    | None =>
      if negb (isComplete (getState r.2))
      then Some {| isValid := false; par := None;
                   error := Some "Validation does not reach win state" |}
      else Some {| isValid := true; par := Some (Z.of_nat (length moves));
                   error := None |}
    end
  end.

(** ** Raw puzzle definitions and hydration ([data/puzzles/index.ts]) *)

Record RawVehicle := {
  rv_row : Z;
  rv_col : Z;
  rv_length : Z;
  rv_orientation : Orientation;
  rv_type : option VehicleType;
  rv_color : option VehicleColor
}.

Record RawObstacle := { ro_row : Z; ro_col : Z; ro_type : ObstacleType }.

(** The shape [{ row, col, length, orientation }] of the raw player car and
    of the argument and result of [rotateVehicle]. *)
Record Placement := {
  pl_row : Z;
  pl_col : Z;
  pl_length : Z;
  pl_orientation : Orientation
}.

Record RawPuzzle := {
  r_name : string;
  r_difficulty : Difficulty;
  r_gridSize : GridSize;
  r_exit : Position;
  r_playerCar : Placement;
  r_vehicles : list RawVehicle;
  r_obstacles : list RawObstacle;
  r_validation : option (list PuzzleMove)
}.

Definition VEHICLE_COLORS : list VehicleColor := [Blue; Green; Yellow; Purple].

(** [None] is the [throw new Error(...)] of the source. *)
Definition deduceExitDirection (exit : Position) (gridSize : GridSize)
    : option Direction :=
  if cols gridSize - 1 <=? col exit then Some Right
  else if col exit <=? 0 then Some Left
  else if rows gridSize - 1 <=? row exit then Some Down
  else if row exit <=? 0 then Some Up
  else None.

(** The two variables closed over by [nextColor]. *)
Record ColorState := { usedColors : list VehicleColor; colorIndex : nat }.

Definition addColor (c : VehicleColor) (used : list VehicleColor) : list VehicleColor :=
  if decide (c ∈ used) then used else used ++ [c].

Definition colorAt (k : nat) : VehicleColor :=
  nth (k mod length VEHICLE_COLORS)%nat VEHICLE_COLORS Blue.

Definition nextColor (s : ColorState) : VehicleColor * ColorState :=
  match List.find (λ i, negb (bool_decide (colorAt (colorIndex s + i) ∈ usedColors s)))
                  (seq 0 (length VEHICLE_COLORS)) with
  | Some i =>
    let candidate := colorAt (colorIndex s + i) in
    (candidate,
     {| usedColors := addColor candidate (usedColors s);
        colorIndex := (colorIndex s + i + 1) mod length VEHICLE_COLORS |})
  | None =>
    (colorAt (colorIndex s),
     {| usedColors := usedColors s; colorIndex := S (colorIndex s) |})
  end.

(** [raw.vehicles.map((v, i) => ...)], from index [i], threading the state
    of [nextColor]. *)
Fixpoint hydrateVehicles (i : nat) (s : ColorState) (vs : list RawVehicle)
    : list Vehicle :=
  match vs with
  | [] => []
  | v :: rest =>
    let '(color, s') :=
      match rv_color v with
      | Some c => (c, s)
      | None => nextColor s
      end in
    {| v_id := "vehicle-" +:+ pretty i;
       v_row := rv_row v; v_col := rv_col v; v_length := rv_length v;
       v_orientation := rv_orientation v; v_type := rv_type v;
       v_color := Some color |}
    :: hydrateVehicles (S i) s' rest
  end.

Fixpoint hydrateObstacles (i : nat) (os : list RawObstacle) : list Obstacle :=
  match os with
  | [] => []
  | o :: rest =>
    {| o_id := "obstacle-" +:+ pretty i;
       o_row := ro_row o; o_col := ro_col o; o_type := ro_type o |}
    :: hydrateObstacles (S i) rest
  end.

Definition initialColors (vs : list RawVehicle) : ColorState :=
  {| usedColors :=
       foldl (λ used v, match rv_color v with
                        | Some c => addColor c used
                        | None => used
                        end) [] vs;
     colorIndex := 0 |}.

Definition hydratePuzzle (raw : RawPuzzle) (id : string) : option Puzzle :=
  direction ← deduceExitDirection (r_exit raw) (r_gridSize raw);
  Some {| p_id := id;
          name := r_name raw;
          difficulty := r_difficulty raw;
          gridSize := r_gridSize raw;
          exit := {| e_row := row (r_exit raw); e_col := col (r_exit raw);
                     direction := direction |};
          playerCar := {| v_id := "player";
                          v_row := pl_row (r_playerCar raw);
                          v_col := pl_col (r_playerCar raw);
                          v_length := pl_length (r_playerCar raw);
                          v_orientation := pl_orientation (r_playerCar raw);
                          v_type := None; v_color := None |};
          vehicles := hydrateVehicles 0 (initialColors (r_vehicles raw))
                                      (r_vehicles raw);
          obstacles := hydrateObstacles 0 (r_obstacles raw);
          validation := r_validation raw;
          validationResult := None |}.

(** ** Rotation ([rotatePuzzle90CW]) *)

(** [s.replace(pat, rep)] with a string pattern: the first occurrence. *)
Fixpoint replaceFirst (pat rep s : string) : string :=
  if String.prefix pat s
  then rep +:+ String.substring (String.length pat)
                                (String.length s - String.length pat) s
  else match s with
       | EmptyString => EmptyString
       | String c s' => String c (replaceFirst pat rep s')
       end.

Definition isWhiteSpace (c : ascii) : bool :=
  let n := N_of_ascii c in
  ((9 <=? n) && (n <=? 13) || (n =? 32))%N.

Fixpoint trimStart (s : string) : string :=
  match s with
  | String c s' => if isWhiteSpace c then trimStart s' else s
  | EmptyString => EmptyString
  end.

Definition digitValue (radix : N) (c : ascii) : option N :=
  let n := N_of_ascii c in
  let d := (if (48 <=? n) && (n <=? 57) then Some (n - 48)
            else if (97 <=? n) && (n <=? 122) then Some (n - 87)
            else if (65 <=? n) && (n <=? 90) then Some (n - 55)
            else None)%N in
  d ≫= λ d, if (d <? radix)%N then Some d else None.

(** The longest prefix of digits, read in the given radix; [acc] is [None]
    until a digit has been seen. *)
Fixpoint parseDigits (radix : N) (acc : option N) (s : string) : option N :=
  match s with
  | EmptyString => acc
  | String c s' =>
    match digitValue radix c with
    | Some d => parseDigits radix (Some (radix * default 0%N acc + d)%N) s'
    | None => acc
    end
  end.

(** [parseInt(s)] without a radix argument, on strings of ASCII characters:
    leading white space, an optional sign, an optional [0x] prefix, then the
    longest prefix of digits; [None] is [NaN]. *)
Definition parseInt (s : string) : option Z :=
  let s1 := trimStart s in
  let '(negative, s2) :=
    match s1 with
    | String "-" t => (true, t)
    | String "+" t => (false, t)
    | _ => (false, s1)
    end in
  let '(radix, s3) :=
    match s2 with
    | String "0" (String "x" t) | String "0" (String "X" t) => (16%N, t)
    | _ => (10%N, s2)
    end in
  n ← parseDigits radix None s3;
  Some (if (negative : bool) then - Z.of_N n else Z.of_N n).

(** [raw.vehicles[parseInt(id.replace('vehicle-', ''))]]: indexing by
    [NaN] or by a negative number is [undefined]. *)
Definition vehicleByMoveId (vs : list RawVehicle) (id : string) : option RawVehicle :=
  idx ← parseInt (replaceFirst "vehicle-" "" id);
  if idx <? 0 then None else vs !! Z.to_nat idx.

Definition rotatePos (R : Z) (r c : Z) : Position :=
  {| row := c; col := R - 1 - r |}.

Definition rotateVehicle (R : Z) (v : Placement) : Placement :=
  match pl_orientation v with
  | Horizontal =>
    let p := rotatePos R (pl_row v) (pl_col v) in
    {| pl_row := row p; pl_col := col p; pl_length := pl_length v;
       pl_orientation := Vertical |}
  | Vertical =>
    let bottomRow := pl_row v + pl_length v - 1 in
    let p := rotatePos R bottomRow (pl_col v) in
    {| pl_row := row p; pl_col := col p; pl_length := pl_length v;
       pl_orientation := Horizontal |}
  end.

Definition placementOf (v : RawVehicle) : Placement :=
  {| pl_row := rv_row v; pl_col := rv_col v; pl_length := rv_length v;
     pl_orientation := rv_orientation v |}.

Definition rotateMove (raw : RawPuzzle) (m : PuzzleMove) : PuzzleMove :=
  let R := rows (r_gridSize raw) in
  let ori :=
    if decide (vehicleId m = "player") then pl_orientation (r_playerCar raw)
    else default Horizontal
           (rv_orientation <$> vehicleByMoveId (r_vehicles raw) (vehicleId m)) in
  let len :=
    if decide (vehicleId m = "player") then pl_length (r_playerCar raw)
    else default 2
           (rv_length <$> vehicleByMoveId (r_vehicles raw) (vehicleId m)) in
  let rv := rotateVehicle R {| pl_row := m_row m; pl_col := m_col m;
                               pl_length := len; pl_orientation := ori |} in
  {| vehicleId := vehicleId m; m_row := pl_row rv; m_col := pl_col rv |}.

Definition rotatePuzzle90CW (raw : RawPuzzle) : RawPuzzle :=
  let R := rows (r_gridSize raw) in
  let newGridSize := {| rows := cols (r_gridSize raw); cols := R |} in
  let newPlayerCar := rotateVehicle R (r_playerCar raw) in
  let newVehicles :=
    (λ v, let rv := rotateVehicle R (placementOf v) in
          {| rv_row := pl_row rv; rv_col := pl_col rv; rv_length := pl_length rv;
             rv_orientation := pl_orientation rv;
             rv_type := rv_type v; rv_color := rv_color v |}) <$> r_vehicles raw in
  let newObstacles :=
    (λ o, let p := rotatePos R (ro_row o) (ro_col o) in
          {| ro_row := row p; ro_col := col p; ro_type := ro_type o |})
      <$> r_obstacles raw in
  let newExit := rotatePos R (row (r_exit raw)) (col (r_exit raw)) in
  let newValidation := fmap (M:=list) (rotateMove raw) <$> r_validation raw in
  {| r_name := r_name raw;
     r_difficulty := r_difficulty raw;
     r_gridSize := newGridSize;
     r_exit := newExit;
     r_playerCar := newPlayerCar;
     r_vehicles := newVehicles;
     r_obstacles := newObstacles;
     r_validation := newValidation |}.

(** ** Placement invariants (spec section 3, invariants 1 and 2) *)

Definition allVehicles (p : Puzzle) : list Vehicle := playerCar p :: vehicles p.

Definition obstacleCell (o : Obstacle) : Cell := (o_row o, o_col o).

Definition templatePos (v : Vehicle) : Position := {| row := v_row v; col := v_col v |}.

Definition disjointb (xs ys : list Cell) : bool :=
  forallb (λ c, negb (bool_decide (c ∈ ys))) xs.

Fixpoint pairwiseDisjoint (css : list (list Cell)) : bool :=
  match css with
  | [] => true
  | cs :: rest => forallb (disjointb cs) rest && pairwiseDisjoint rest
  end.

(** [css] lists the occupied cells of each vehicle, [obs] the obstacle
    cells: every vehicle cell is in the grid, no two vehicles share a cell,
    no vehicle covers an obstacle. *)
Definition placementOk (gs : GridSize) (obs : list Cell) (css : list (list Cell)) : bool :=
  forallb (forallb (inGrid gs)) css
  && pairwiseDisjoint css
  && forallb (λ cs, disjointb cs obs) css.

(** The invariants on the placement a template prescribes. *)
Definition templateOk (p : Puzzle) : bool :=
  placementOk (gridSize p) (obstacleCell <$> obstacles p)
              ((λ v, vehicleCells v (templatePos v)) <$> allVehicles p).

(** The invariants on a live state: every vehicle has a current position,
    and the cells occupied from there satisfy [placementOk]. *)
Definition stateOk (st : GameState) : bool :=
  match mapM (λ v, vehicleCells v <$> vehiclePositions st !! v_id v)
             (allVehicles (puzzle st)) with
  | Some css => placementOk (gridSize (puzzle st))
                            (obstacleCell <$> obstacles (puzzle st)) css
  | None => false
  end.

(** Identities are pairwise distinct, as hydration assigns them. *)
Definition distinctIds (p : Puzzle) : Prop := NoDup (v_id <$> allVehicles p).

(** The same invariants as propositions. *)
Record PlacementInv (gs : GridSize) (obs : list Cell) (css : list (list Cell)) : Prop := {
  inv_bounds : ∀ cs c, cs ∈ css → c ∈ cs → 0 ≤ c.1 < rows gs ∧ 0 ≤ c.2 < cols gs;
  inv_vehicles : ∀ i j a b c,
    i ≠ j → css !! i = Some a → css !! j = Some b → c ∈ a → c ∉ b;
  inv_obstacles : ∀ cs c, cs ∈ css → c ∈ cs → c ∉ obs
}.

(** ** Sessions *)

(** Operations a caller can perform on a live engine. *)
Inductive Op :=
  | OpMove (vehicleId : string) (newPos : Position)
  | OpReset.

Definition step (e : GameEngine) (op : Op) : option GameEngine :=
  match op with
  | OpMove id newPos => snd <$> moveVehicle e id newPos
  | OpReset => Some (reset e)
  end.

Fixpoint run (e : GameEngine) (ops : list Op) : option GameEngine :=
  match ops with
  | [] => Some e
  | op :: rest => e' ← step e op; run e' rest
  end.

(** ** Vocabulary of the properties *)

(** Every vehicle of the template has an entry in the position map. *)
Definition Positioned (st : GameState) : Prop :=
  ∀ v, v ∈ allVehicles (puzzle st) → is_Some (vehiclePositions st !! v_id v).

(** The rules of spec section 4.2 for moving [id] to [newPos]: the vehicle
    exists, its perpendicular coordinate is unchanged, the target cells are
    in the grid and free of every other vehicle and of every obstacle. *)
Definition legalMove (e : GameEngine) (id : string) (newPos : Position) : Prop :=
  let p := puzzle (state e) in
  let vp := vehiclePositions (state e) in
  ∃ v cur, getVehicle e id = Some v ∧ vp !! id = Some cur
    ∧ (v_orientation v = Horizontal → row newPos = row cur)
    ∧ (v_orientation v = Vertical → col newPos = col cur)
    ∧ ∀ c, c ∈ vehicleCells v newPos →
        (0 ≤ c.1 < rows (gridSize p) ∧ 0 ≤ c.2 < cols (gridSize p))
        ∧ (∀ w pos, w ∈ allVehicles p → v_id w ≠ id → vp !! v_id w = Some pos →
                    c ∉ vehicleCells w pos)
        ∧ c ∉ obstacleCell <$> obstacles p.

(** The invariants on a live state, as propositions: every vehicle has a
    position; its cells, from there, are in the grid, share no cell with
    another vehicle of the template, and cover no obstacle. *)
Record StateInv (st : GameState) : Prop := {
  si_positioned : Positioned st;
  si_bounds : ∀ v pos c,
    v ∈ allVehicles (puzzle st) → vehiclePositions st !! v_id v = Some pos →
    c ∈ vehicleCells v pos →
    0 ≤ c.1 < rows (gridSize (puzzle st)) ∧ 0 ≤ c.2 < cols (gridSize (puzzle st));
  si_vehicles : ∀ i j v w pv pw c,
    i ≠ j →
    allVehicles (puzzle st) !! i = Some v → allVehicles (puzzle st) !! j = Some w →
    vehiclePositions st !! v_id v = Some pv → vehiclePositions st !! v_id w = Some pw →
    c ∈ vehicleCells v pv → c ∉ vehicleCells w pw;
  si_obstacles : ∀ v pos c,
    v ∈ allVehicles (puzzle st) → vehiclePositions st !! v_id v = Some pos →
    c ∈ vehicleCells v pos → c ∉ obstacleCell <$> obstacles (puzzle st)
}.

(** The cell of the player closest to the exit in the exit's direction;
    there is none when the exit's direction is across the player's axis. *)
Definition leadingEdge (ori : Orientation) (dir : Direction) (pos : Position)
    (len : Z) : option Cell :=
  match ori, dir with
  | Horizontal, Right => Some (row pos, col pos + len - 1)
  | Horizontal, Left => Some (row pos, col pos)
  | Vertical, Down => Some (row pos + len - 1, col pos)
  | Vertical, Up => Some (row pos, col pos)
  | _, _ => None
  end.

(** The position a recorded move asks for. *)
Definition target (m : PuzzleMove) : Position := {| row := m_row m; col := m_col m |}.

(** Every move of the list is applied by [moveVehicle], in order. *)
Inductive Applies : GameEngine → list PuzzleMove → GameEngine → Prop :=
  | applies_nil e : Applies e [] e
  | applies_cons e m ms e1 e2 :
      moveVehicle e (vehicleId m) (target m) = Some (true, e1) →
      Applies e1 ms e2 →
      Applies e (m :: ms) e2.

(** What a replay of the template's trace establishes. *)
Inductive Verdict :=
  | NoTrace
  | InvalidAt (step : Z)
  | NotWinning
  | Solved (par : Z).

(** The verdict on a template, read off the behaviour of [moveVehicle] on a
    fresh engine: no trace; the 1-based index of a refused move, those
    before it applied; all applied, not complete; all applied, complete. *)
Inductive Replays (p : Puzzle) : Verdict → Prop :=
  | replays_none :
      validation p = None ∨ validation p = Some [] → Replays p NoTrace
  | replays_invalid pre m post e :
      validation p = Some (pre ++ m :: post) →
      Applies (newEngine p) pre e →
      moveVehicle e (vehicleId m) (target m) = Some (false, e) →
      Replays p (InvalidAt (Z.of_nat (length pre) + 1))
  | replays_not_winning ms e :
      validation p = Some ms → ms ≠ [] →
      Applies (newEngine p) ms e → isComplete (state e) = false →
      Replays p NotWinning
  | replays_solved ms e :
      validation p = Some ms → ms ≠ [] →
      Applies (newEngine p) ms e → isComplete (state e) = true →
      Replays p (Solved (Z.of_nat (length ms))).

(** The result record that reports a verdict. *)
Definition resultOf (v : Verdict) : ValidationResult :=
  match v with
  | NoTrace =>
    {| isValid := false; par := None; error := Some "No validation provided" |}
  | InvalidAt i =>
    {| isValid := false; par := None;
       error := Some ("Invalid move at step " +:+ pretty i) |}
  | NotWinning =>
    {| isValid := false; par := None;
       error := Some "Validation does not reach win state" |}
  | Solved n => {| isValid := true; par := Some n; error := None |}
  end.

(** The cell lies in the grid, on one of its four edges. *)
Definition onPeriphery (gs : GridSize) (pos : Position) : Prop :=
  (0 ≤ row pos < rows gs ∧ 0 ≤ col pos < cols gs)
  ∧ (row pos = 0 ∨ row pos = rows gs - 1 ∨ col pos = 0 ∨ col pos = cols gs - 1).

(** The deduction rule of spec section 3. *)
Definition peripheryDirection (gs : GridSize) (pos : Position) : Direction :=
  if decide (col pos = cols gs - 1) then Right
  else if decide (col pos = 0) then Left
  else if decide (row pos = rows gs - 1) then Down
  else Up.

(** The other orientation. *)
Definition flip (o : Orientation) : Orientation :=
  match o with Horizontal => Vertical | Vertical => Horizontal end.

(** Spec section 4.7: the absolute cell (r, c) maps to (c, R - 1 - r). *)
Definition image (R : Z) (c : Cell) : Cell := (c.2, R - 1 - c.1).

(** Spec section 4.7, anchor recomputation: the image of the anchor for an
    originally horizontal vehicle, the image of the bottom cell for an
    originally vertical one. *)
Definition anchorRule (R : Z) (ori : Orientation) (len : Z) (anchor : Cell) : Cell :=
  match ori with
  | Horizontal => image R anchor
  | Vertical => image R (anchor.1 + len - 1, anchor.2)
  end.

(** A placement as a vehicle of the engine, to enumerate its cells. *)
Definition asVehicle (v : Placement) : Vehicle :=
  {| v_id := ""; v_row := pl_row v; v_col := pl_col v; v_length := pl_length v;
     v_orientation := pl_orientation v; v_type := None; v_color := None |}.

(** The cells a placed vehicle occupies, enumerated as the engine does. *)
Definition placementCells (v : Placement) : list Cell :=
  vehicleCells (asVehicle v) (templatePos (asVehicle v)).

(** How a rotated vehicle relates to the original. *)
Record Rotated (R : Z) (v v' : Placement) : Prop := {
  rot_length : pl_length v' = pl_length v;
  rot_orientation : pl_orientation v' = flip (pl_orientation v);
  rot_anchor : (pl_row v', pl_col v')
               = anchorRule R (pl_orientation v) (pl_length v) (pl_row v, pl_col v);
  rot_cells : ∀ c, c ∈ placementCells v' ↔ ∃ c0, c0 ∈ placementCells v ∧ c = image R c0
}.

(** The entity a waypoint's identity refers to, as the source looks it up. *)
Definition entityOf (raw : RawPuzzle) (id : string) : option Placement :=
  if decide (id = "player") then Some (r_playerCar raw)
  else placementOf <$> vehicleByMoveId (r_vehicles raw) id.

(** The entity a waypoint's identity names: the player, or the [k]-th
    vehicle under the identity hydration gives it. *)
Inductive Names (raw : RawPuzzle) (id : string) : Placement → Prop :=
  | names_player : id = "player" → Names raw id (r_playerCar raw)
  | names_vehicle (k : nat) v :
      id = "vehicle-" +:+ pretty k → r_vehicles raw !! k = Some v →
      Names raw id (placementOf v).

(** ** Puzzles of the scenarios (spec section 8) *)

Definition rawVehicle (r c len : Z) (ori : Orientation) : RawVehicle :=
  {| rv_row := r; rv_col := c; rv_length := len; rv_orientation := ori;
     rv_type := None; rv_color := None |}.

(** 3×3 grid, player at (1,0) of length 2, horizontal, exit at (1,2). *)
Definition rawTutorial : RawPuzzle :=
  {| r_name := "Tutorial"; r_difficulty := Tutorial;
     r_gridSize := {| rows := 3; cols := 3 |};
     r_exit := {| row := 1; col := 2 |};
     r_playerCar := {| pl_row := 1; pl_col := 0; pl_length := 2;
                       pl_orientation := Horizontal |};
     r_vehicles := []; r_obstacles := [];
     r_validation := Some [{| vehicleId := "player"; m_row := 1; m_col := 1 |}] |}.

(** 4×4 grid, player at (1,0) of length 2, horizontal; a vertical vehicle of
    length 2 on column 2, rows 0 to 1; a tree at (3,3); exit at (1,3). *)
Definition rawBlocked : RawPuzzle :=
  {| r_name := "Blocked"; r_difficulty := Easy;
     r_gridSize := {| rows := 4; cols := 4 |};
     r_exit := {| row := 1; col := 3 |};
     r_playerCar := {| pl_row := 1; pl_col := 0; pl_length := 2;
                       pl_orientation := Horizontal |};
     r_vehicles := [rawVehicle 0 2 2 Vertical];
     r_obstacles := [{| ro_row := 3; ro_col := 3; ro_type := Tree |}];
     r_validation := Some [{| vehicleId := "vehicle-0"; m_row := 2; m_col := 2 |};
                           {| vehicleId := "player"; m_row := 1; m_col := 2 |}] |}.

Definition withValidation (ms : list PuzzleMove) (p : Puzzle) : Puzzle :=
  {| p_id := p_id p; name := name p; difficulty := difficulty p;
     gridSize := gridSize p; exit := exit p; playerCar := playerCar p;
     vehicles := vehicles p; obstacles := obstacles p;
     validation := Some ms; validationResult := validationResult p |}.

Definition tutorial : Puzzle :=
  {| p_id := "tutorial"; name := "Tutorial"; difficulty := Tutorial;
     gridSize := {| rows := 3; cols := 3 |};
     exit := {| e_row := 1; e_col := 2; direction := Right |};
     playerCar := {| v_id := "player"; v_row := 1; v_col := 0; v_length := 2;
                     v_orientation := Horizontal; v_type := None; v_color := None |};
     vehicles := []; obstacles := [];
     validation := Some [{| vehicleId := "player"; m_row := 1; m_col := 1 |}];
     validationResult := None |}.

Definition blocked : Puzzle :=
  {| p_id := "blocked"; name := "Blocked"; difficulty := Easy;
     gridSize := {| rows := 4; cols := 4 |};
     exit := {| e_row := 1; e_col := 3; direction := Right |};
     playerCar := {| v_id := "player"; v_row := 1; v_col := 0; v_length := 2;
                     v_orientation := Horizontal; v_type := None; v_color := None |};
     vehicles := [{| v_id := "vehicle-0"; v_row := 0; v_col := 2; v_length := 2;
                     v_orientation := Vertical; v_type := None;
                     v_color := Some Blue |}];
     obstacles := [{| o_id := "obstacle-0"; o_row := 3; o_col := 3; o_type := Tree |}];
     validation := Some [{| vehicleId := "vehicle-0"; m_row := 2; m_col := 2 |};
                         {| vehicleId := "player"; m_row := 1; m_col := 2 |}];
     validationResult := None |}.

(** The blocked puzzle, played, reset and played again. *)
Definition blockedSession : list Op :=
  [OpMove "player" {| row := 1; col := 2 |};
   OpMove "vehicle-0" {| row := 2; col := 2 |};
   OpMove "player" {| row := 1; col := 2 |};
   OpReset;
   OpMove "vehicle-0" {| row := 1; col := 2 |};
   OpMove "player" {| row := 1; col := 1 |};
   OpMove "vehicle-0" {| row := 5; col := 2 |}].

(** The tutorial engine after the winning move. *)
Definition tutorialWon : GameEngine :=
  default (newEngine tutorial)
          (step (newEngine tutorial) (OpMove "player" {| row := 1; col := 1 |})).

(** 3×3 grid with the exit at (1,5), two columns to the right of the grid. *)
Definition rawOffGrid : RawPuzzle :=
  {| r_name := "Off grid"; r_difficulty := Tutorial;
     r_gridSize := {| rows := 3; cols := 3 |};
     r_exit := {| row := 1; col := 5 |};
     r_playerCar := {| pl_row := 1; pl_col := 0; pl_length := 2;
                       pl_orientation := Horizontal |};
     r_vehicles := []; r_obstacles := []; r_validation := None |}.

(** ** Vocabulary of the further properties *)

(** Two engines in the same game: same state, same history. The listeners
    and the log of their calls may differ. *)
Definition sameGame (e1 e2 : GameEngine) : Prop :=
  state e1 = state e2 ∧ moveHistory e1 = moveHistory e2.

(** The exit's direction is across the player's axis. *)
Definition exitAcross (p : Puzzle) : bool :=
  match v_orientation (playerCar p), direction (exit p) with
  | Horizontal, Up | Horizontal, Down | Vertical, Left | Vertical, Right => true
  | _, _ => false
  end.

(** The along-axis coordinate of a position, as [getSlideRange] reads it. *)
Definition alongAxis (v : Vehicle) (pos : Position) : Z :=
  if bool_decide (v_orientation v = Horizontal) then col pos else row pos.

(** The bound of the forward loop of [getSlideRange]. *)
Definition axisLimit (v : Vehicle) (gs : GridSize) : Z :=
  if bool_decide (v_orientation v = Horizontal) then cols gs else rows gs.

(** 1×5 grid: the player (length 1) at column 0, a car at column 1, the
    exit at column 4. *)
Definition leapfrog : Puzzle :=
  {| p_id := "leapfrog"; name := "Leapfrog"; difficulty := Easy;
     gridSize := {| rows := 1; cols := 5 |};
     exit := {| e_row := 0; e_col := 4; direction := Right |};
     playerCar := {| v_id := "player"; v_row := 0; v_col := 0; v_length := 1;
                     v_orientation := Horizontal; v_type := None; v_color := None |};
     vehicles := [{| v_id := "vehicle-0"; v_row := 0; v_col := 1; v_length := 1;
                     v_orientation := Horizontal; v_type := None;
                     v_color := Some Blue |}];
     obstacles := [];
     validation := Some [{| vehicleId := "player"; m_row := 0; m_col := 4 |}];
     validationResult := None |}.

(** 3×3 grid, player at (0,0) of length 2, horizontal, exit in the
    top-right corner (0,2); solved by one move. *)
Definition rawCorner : RawPuzzle :=
  {| r_name := "Corner"; r_difficulty := Tutorial;
     r_gridSize := {| rows := 3; cols := 3 |};
     r_exit := {| row := 0; col := 2 |};
     r_playerCar := {| pl_row := 0; pl_col := 0; pl_length := 2;
                       pl_orientation := Horizontal |};
     r_vehicles := []; r_obstacles := [];
     r_validation := Some [{| vehicleId := "player"; m_row := 0; m_col := 1 |}] |}.

(** The corner puzzle rotated, then hydrated. *)
Definition cornerRotated : Puzzle :=
  default tutorial (hydratePuzzle (rotatePuzzle90CW rawCorner) "corner").

(** 6×6 grid with four cars in a column; only the third names its colour
    (blue, the first of [VEHICLE_COLORS]). *)
Definition rawColours : RawPuzzle :=
  {| r_name := "Colours"; r_difficulty := Medium;
     r_gridSize := {| rows := 6; cols := 6 |};
     r_exit := {| row := 0; col := 5 |};
     r_playerCar := {| pl_row := 0; pl_col := 0; pl_length := 2;
                       pl_orientation := Horizontal |};
     r_vehicles :=
       [rawVehicle 1 0 2 Horizontal; rawVehicle 2 0 2 Horizontal;
        {| rv_row := 3; rv_col := 0; rv_length := 2; rv_orientation := Horizontal;
           rv_type := Some Truck; rv_color := Some Blue |};
        rawVehicle 4 0 2 Horizontal];
     r_obstacles := []; r_validation := None |}.

(** The placement invariants on a raw puzzle definition: the cells of the
    player car and of the vehicles, and the obstacle cells. *)
Definition rawCells (raw : RawPuzzle) : list (list Cell) :=
  placementCells <$> (r_playerCar raw :: (placementOf <$> r_vehicles raw)).

Definition rawObstacleCells (raw : RawPuzzle) : list Cell :=
  (λ o, (ro_row o, ro_col o)) <$> r_obstacles raw.

Definition rawPlacementOk (raw : RawPuzzle) : bool :=
  placementOk (r_gridSize raw) (rawObstacleCells raw) (rawCells raw).

(** A quarter turn clockwise of a direction. *)
Definition turnCW (d : Direction) : Direction :=
  match d with Up => Right | Right => Down | Down => Left | Left => Up end.

(** The number of grid edges a position lies on. *)
Definition edgeCount (gs : GridSize) (pos : Position) : nat :=
  (if decide (row pos = 0) then 1 else 0)
  + (if decide (row pos = rows gs - 1) then 1 else 0)
  + (if decide (col pos = 0) then 1 else 0)
  + (if decide (col pos = cols gs - 1) then 1 else 0).

(** The geometry of a vehicle of a template. *)
Definition geom (v : Vehicle) : Placement :=
  {| pl_row := v_row v; pl_col := v_col v; pl_length := v_length v;
     pl_orientation := v_orientation v |}.

(** Where [rotateVehicle] puts the anchor of a vehicle of orientation [ori]
    and length [len] standing at [pos]. *)
Definition rotateAnchor (R : Z) (ori : Orientation) (len : Z) (pos : Position)
    : Position :=
  let rv := rotateVehicle R {| pl_row := row pos; pl_col := col pos;
                               pl_length := len; pl_orientation := ori |} in
  {| row := pl_row rv; col := pl_col rv |}.

(** An engine [e'] on the rotated template mirrors an engine [e] on the
    template [p]: every vehicle of [p] stands in [e'] at the rotated anchor
    of its position in [e]. *)
Definition Mirrors (R : Z) (p p' : Puzzle) (e e' : GameEngine) : Prop :=
  puzzle (state e) = p ∧ puzzle (state e') = p'
  ∧ ∀ w, w ∈ allVehicles p →
      ∃ pos, vehiclePositions (state e) !! v_id w = Some pos
        ∧ vehiclePositions (state e') !! v_id w
          = Some (rotateAnchor R (v_orientation w) (v_length w) pos).

(** The template hydration builds once the exit's direction is known. *)
Definition hydratedWith (raw : RawPuzzle) (id : string) (d : Direction) : Puzzle :=
  {| p_id := id;
     name := r_name raw;
     difficulty := r_difficulty raw;
     gridSize := r_gridSize raw;
     exit := {| e_row := row (r_exit raw); e_col := col (r_exit raw);
                direction := d |};
     playerCar := {| v_id := "player";
                     v_row := pl_row (r_playerCar raw);
                     v_col := pl_col (r_playerCar raw);
                     v_length := pl_length (r_playerCar raw);
                     v_orientation := pl_orientation (r_playerCar raw);
                     v_type := None; v_color := None |};
     vehicles := hydrateVehicles 0 (initialColors (r_vehicles raw))
                                 (r_vehicles raw);
     obstacles := hydrateObstacles 0 (r_obstacles raw);
     validation := r_validation raw;
     validationResult := None |}.

(** Two templates with the same board: grid, exit, player car, vehicles
    and obstacles. The identity, the name, the difficulty and the trace
    may differ. *)
Definition samePlay (p1 p2 : Puzzle) : Prop :=
  gridSize p1 = gridSize p2 ∧ exit p1 = exit p2 ∧ playerCar p1 = playerCar p2
  ∧ vehicles p1 = vehicles p2 ∧ obstacles p1 = obstacles p2.

(** Two engines at the same point of play on templates with the same
    board. *)
Definition sameBoard (e1 e2 : GameEngine) : Prop :=
  samePlay (puzzle (state e1)) (puzzle (state e2))
  ∧ vehiclePositions (state e1) = vehiclePositions (state e2)
  ∧ isComplete (state e1) = isComplete (state e2).

(** What [validatePuzzle] answers for a trace of [n] moves that all apply,
    ending with the completion flag [complete]. *)
Definition appliedResult (n : nat) (complete : bool) : ValidationResult :=
  match n with
  | O => {| isValid := false; par := None; error := Some "No validation provided" |}
  | _ => if complete
         then {| isValid := true; par := Some (Z.of_nat n); error := None |}
         else {| isValid := false; par := None;
                 error := Some "Validation does not reach win state" |}
  end.

(** ** The puzzle editor (class [PuzzleEditor]) *)

(** The fields holding the puzzle being edited, the tool settings the
    placement methods read, and the engine of the test mode. The fields
    only the display reads (active tool, selection, drag state, cell
    geometry) are left out: [renderGridEntities], [updateActionButtons],
    [refreshToolbar], [layoutGrid] and [showToast] write none of the fields
    kept here. *)
Record PuzzleEditor := {
  ed_name : string;
  ed_difficulty : Difficulty;
  ed_gridSize : GridSize;
  ed_exit : option Position;
  ed_playerCar : option Placement;
  ed_vehicles : list RawVehicle;
  ed_obstacles : list RawObstacle;
  ed_validation : option (list PuzzleMove);
  ed_vehicleLength : Z;
  ed_vehicleOrientation : Orientation;
  ed_vehicleColor : VehicleColor;
  ed_obstacleType : ObstacleType;
  ed_playerOrientation : Orientation;
  ed_exitSide : Direction;
  ed_testEngine : option GameEngine
}.

(** Assignments to single fields. *)
Definition set_gridSize (gs : GridSize) (ed : PuzzleEditor) : PuzzleEditor :=
  {| ed_name := ed_name ed; ed_difficulty := ed_difficulty ed;
     ed_gridSize := gs; ed_exit := ed_exit ed; ed_playerCar := ed_playerCar ed;
     ed_vehicles := ed_vehicles ed; ed_obstacles := ed_obstacles ed;
     ed_validation := ed_validation ed; ed_vehicleLength := ed_vehicleLength ed;
     ed_vehicleOrientation := ed_vehicleOrientation ed;
     ed_vehicleColor := ed_vehicleColor ed; ed_obstacleType := ed_obstacleType ed;
     ed_playerOrientation := ed_playerOrientation ed; ed_exitSide := ed_exitSide ed;
     ed_testEngine := ed_testEngine ed |}.

Definition set_exit (ex : option Position) (ed : PuzzleEditor) : PuzzleEditor :=
  {| ed_name := ed_name ed; ed_difficulty := ed_difficulty ed;
     ed_gridSize := ed_gridSize ed; ed_exit := ex; ed_playerCar := ed_playerCar ed;
     ed_vehicles := ed_vehicles ed; ed_obstacles := ed_obstacles ed;
     ed_validation := ed_validation ed; ed_vehicleLength := ed_vehicleLength ed;
     ed_vehicleOrientation := ed_vehicleOrientation ed;
     ed_vehicleColor := ed_vehicleColor ed; ed_obstacleType := ed_obstacleType ed;
     ed_playerOrientation := ed_playerOrientation ed; ed_exitSide := ed_exitSide ed;
     ed_testEngine := ed_testEngine ed |}.

Definition set_playerCar (pc : option Placement) (ed : PuzzleEditor) : PuzzleEditor :=
  {| ed_name := ed_name ed; ed_difficulty := ed_difficulty ed;
     ed_gridSize := ed_gridSize ed; ed_exit := ed_exit ed; ed_playerCar := pc;
     ed_vehicles := ed_vehicles ed; ed_obstacles := ed_obstacles ed;
     ed_validation := ed_validation ed; ed_vehicleLength := ed_vehicleLength ed;
     ed_vehicleOrientation := ed_vehicleOrientation ed;
     ed_vehicleColor := ed_vehicleColor ed; ed_obstacleType := ed_obstacleType ed;
     ed_playerOrientation := ed_playerOrientation ed; ed_exitSide := ed_exitSide ed;
     ed_testEngine := ed_testEngine ed |}.

Definition set_vehicles (vs : list RawVehicle) (ed : PuzzleEditor) : PuzzleEditor :=
  {| ed_name := ed_name ed; ed_difficulty := ed_difficulty ed;
     ed_gridSize := ed_gridSize ed; ed_exit := ed_exit ed;
     ed_playerCar := ed_playerCar ed;
     ed_vehicles := vs; ed_obstacles := ed_obstacles ed;
     ed_validation := ed_validation ed; ed_vehicleLength := ed_vehicleLength ed;
     ed_vehicleOrientation := ed_vehicleOrientation ed;
     ed_vehicleColor := ed_vehicleColor ed; ed_obstacleType := ed_obstacleType ed;
     ed_playerOrientation := ed_playerOrientation ed; ed_exitSide := ed_exitSide ed;
     ed_testEngine := ed_testEngine ed |}.

Definition set_obstacles (os : list RawObstacle) (ed : PuzzleEditor) : PuzzleEditor :=
  {| ed_name := ed_name ed; ed_difficulty := ed_difficulty ed;
     ed_gridSize := ed_gridSize ed; ed_exit := ed_exit ed;
     ed_playerCar := ed_playerCar ed;
     ed_vehicles := ed_vehicles ed; ed_obstacles := os;
     ed_validation := ed_validation ed; ed_vehicleLength := ed_vehicleLength ed;
     ed_vehicleOrientation := ed_vehicleOrientation ed;
     ed_vehicleColor := ed_vehicleColor ed; ed_obstacleType := ed_obstacleType ed;
     ed_playerOrientation := ed_playerOrientation ed; ed_exitSide := ed_exitSide ed;
     ed_testEngine := ed_testEngine ed |}.

Definition set_validation (ms : option (list PuzzleMove)) (ed : PuzzleEditor)
    : PuzzleEditor :=
  {| ed_name := ed_name ed; ed_difficulty := ed_difficulty ed;
     ed_gridSize := ed_gridSize ed; ed_exit := ed_exit ed;
     ed_playerCar := ed_playerCar ed;
     ed_vehicles := ed_vehicles ed; ed_obstacles := ed_obstacles ed;
     ed_validation := ms; ed_vehicleLength := ed_vehicleLength ed;
     ed_vehicleOrientation := ed_vehicleOrientation ed;
     ed_vehicleColor := ed_vehicleColor ed; ed_obstacleType := ed_obstacleType ed;
     ed_playerOrientation := ed_playerOrientation ed; ed_exitSide := ed_exitSide ed;
     ed_testEngine := ed_testEngine ed |}.

Definition set_testEngine (eng : option GameEngine) (ed : PuzzleEditor)
    : PuzzleEditor :=
  {| ed_name := ed_name ed; ed_difficulty := ed_difficulty ed;
     ed_gridSize := ed_gridSize ed; ed_exit := ed_exit ed;
     ed_playerCar := ed_playerCar ed;
     ed_vehicles := ed_vehicles ed; ed_obstacles := ed_obstacles ed;
     ed_validation := ed_validation ed; ed_vehicleLength := ed_vehicleLength ed;
     ed_vehicleOrientation := ed_vehicleOrientation ed;
     ed_vehicleColor := ed_vehicleColor ed; ed_obstacleType := ed_obstacleType ed;
     ed_playerOrientation := ed_playerOrientation ed; ed_exitSide := ed_exitSide ed;
     ed_testEngine := eng |}.

(** The field initialisers of the class: the editor opened on no puzzle. *)
Definition newEditor : PuzzleEditor :=
  {| ed_name := "New Puzzle"; ed_difficulty := Easy;
     ed_gridSize := {| rows := 4; cols := 4 |};
     ed_exit := None; ed_playerCar := None; ed_vehicles := []; ed_obstacles := [];
     ed_validation := None; ed_vehicleLength := 2;
     ed_vehicleOrientation := Horizontal; ed_vehicleColor := Blue;
     ed_obstacleType := Tree; ed_playerOrientation := Horizontal;
     ed_exitSide := Right; ed_testEngine := None |}.

(** The same tests as [deduceExitDirection], but a position strictly
    inside the edges gets [up] instead of an exception. *)
Definition deduceDirection (ed : PuzzleEditor) (exit : Position) : Direction :=
  if cols (ed_gridSize ed) - 1 <=? col exit then Right
  else if col exit <=? 0 then Left
  else if rows (ed_gridSize ed) - 1 <=? row exit then Down
  else Up.

Definition autoPlaceExit (ed : PuzzleEditor) : PuzzleEditor :=
  match ed_playerCar ed with
  | None => ed
  | Some pc =>
    match pl_orientation pc with
    | Horizontal =>
      if decide (ed_exitSide ed = Right)
      then set_exit (Some {| row := pl_row pc; col := cols (ed_gridSize ed) - 1 |}) ed
      else set_exit (Some {| row := pl_row pc; col := 0 |}) ed
    | Vertical =>
      if decide (ed_exitSide ed = Down)
      then set_exit (Some {| row := rows (ed_gridSize ed) - 1; col := pl_col pc |}) ed
      else set_exit (Some {| row := 0; col := pl_col pc |}) ed
    end
  end.

Definition occupiesCells (r c length : Z) (orientation : Orientation)
    : list Position :=
  (λ i, {| row := if decide (orientation = Vertical) then r + i else r;
           col := if decide (orientation = Horizontal) then c + i else c |})
    <$> seqZ 0 length.

Definition fitsInGrid (ed : PuzzleEditor) (r c length : Z)
    (orientation : Orientation) : bool :=
  let cells := occupiesCells r c length orientation in
  forallb (λ c, (0 <=? row c) && (row c <? rows (ed_gridSize ed))
                && (0 <=? col c) && (col c <? cols (ed_gridSize ed))) cells.

(** The key [`${p.row},${p.col}`] of the set of occupied cells. *)
Definition cellKey (p : Position) : Cell := (row p, col p).

(** [cells.forEach(p => occupied.add(key))]. *)
Definition occupy (cells : list Position) (occupied : gset Cell) : gset Cell :=
  foldl (λ (occ : gset Cell) p, {[cellKey p]} ∪ occ) occupied cells.

(** [this.vehicles.forEach((v, i) => ...)], from index [i]. *)
Fixpoint occupyVehicles (i : nat) (skipVehicleIdx : Z) (vs : list RawVehicle)
    (occupied : gset Cell) : gset Cell :=
  match vs with
  | [] => occupied
  | v :: rest =>
    occupyVehicles (S i) skipVehicleIdx rest
      (if decide (Z.of_nat i = skipVehicleIdx) then occupied
       else occupy (occupiesCells (rv_row v) (rv_col v) (rv_length v)
                                  (rv_orientation v)) occupied)
  end.

(** [this.obstacles.forEach((o, i) => ...)], from index [i]. *)
Fixpoint occupyObstacles (i : nat) (skipObstacleIdx : Z) (os : list RawObstacle)
    (occupied : gset Cell) : gset Cell :=
  match os with
  | [] => occupied
  | o :: rest =>
    occupyObstacles (S i) skipObstacleIdx rest
      (if decide (Z.of_nat i = skipObstacleIdx) then occupied
       else {[(ro_row o, ro_col o)]} ∪ occupied)
  end.

(** The defaults of the source for the last three arguments are [-1],
    [false] and [-1]. *)
Definition isOccupied (ed : PuzzleEditor) (r c length : Z) (orientation : Orientation)
    (skipVehicleIdx : Z) (skipPlayer : bool) (skipObstacleIdx : Z) : bool :=
  let cells := occupiesCells r c length orientation in
  let occ0 : gset Cell :=
    match ed_playerCar ed with
    | Some pc =>
      if negb skipPlayer
      then occupy (occupiesCells (pl_row pc) (pl_col pc) (pl_length pc)
                                 (pl_orientation pc)) ∅
      else ∅
    | None => ∅
    end in
  let occ1 := occupyVehicles 0 skipVehicleIdx (ed_vehicles ed) occ0 in
  let occupied := occupyObstacles 0 skipObstacleIdx (ed_obstacles ed) occ1 in
  existsb (λ c, bool_decide (cellKey c ∈ occupied)) cells.

Definition placePlayer (ed : PuzzleEditor) (r c : Z) : PuzzleEditor :=
  let ori := ed_playerOrientation ed in
  if negb (fitsInGrid ed r c 2 ori) then ed
  else if isOccupied ed r c 2 ori (-1) true (-1) then ed
  else
    let ed1 := set_playerCar (Some {| pl_row := r; pl_col := c; pl_length := 2;
                                      pl_orientation := ori |}) ed in
    set_validation None (autoPlaceExit ed1).

Definition placeVehicle (ed : PuzzleEditor) (r c : Z) : PuzzleEditor :=
  if negb (fitsInGrid ed r c (ed_vehicleLength ed) (ed_vehicleOrientation ed)) then ed
  else if isOccupied ed r c (ed_vehicleLength ed) (ed_vehicleOrientation ed)
                     (-1) false (-1) then ed
  else
    set_validation None
      (set_vehicles (ed_vehicles ed
                     ++ [{| rv_row := r; rv_col := c;
                            rv_length := ed_vehicleLength ed;
                            rv_orientation := ed_vehicleOrientation ed;
                            rv_type := None;
                            rv_color := Some (ed_vehicleColor ed) |}]) ed).

Definition placeObstacle (ed : PuzzleEditor) (r c : Z) : PuzzleEditor :=
  if isOccupied ed r c 1 Horizontal (-1) false (-1) then ed
  else
    set_validation None
      (set_obstacles (ed_obstacles ed
                      ++ [{| ro_row := r; ro_col := c;
                             ro_type := ed_obstacleType ed |}]) ed).

(** [l.splice(i, 1)] for an integer [i]: a negative start counts from the
    end, and nothing is removed at or past the end. *)
Definition spliceOne {A} (i : Z) (l : list A) : list A :=
  let len := Z.of_nat (length l) in
  let start := if i <? 0 then Z.max (len + i) 0 else Z.min i len in
  delete (Z.to_nat start) l.

(** Deleting the player car takes the exit with it. *)
Definition deleteEntity (entityType : string) (entityIndex : Z) (ed : PuzzleEditor)
    : PuzzleEditor :=
  let ed1 :=
    if decide (entityType = "player") then set_exit None (set_playerCar None ed)
    else if decide (entityType = "vehicle")
    then set_vehicles (spliceOne entityIndex (ed_vehicles ed)) ed
    else if decide (entityType = "obstacle")
    then set_obstacles (spliceOne entityIndex (ed_obstacles ed)) ed
    else ed in
  set_validation None ed1.

Definition clearOutOfBounds (ed : PuzzleEditor) : PuzzleEditor :=
  let ed1 :=
    match ed_playerCar ed with
    | Some pc =>
      if negb (fitsInGrid ed (pl_row pc) (pl_col pc) (pl_length pc) (pl_orientation pc))
      then set_playerCar None ed else ed
    | None => ed
    end in
  let ed2 :=
    set_vehicles
      (List.filter (λ v, fitsInGrid ed1 (rv_row v) (rv_col v) (rv_length v)
                                    (rv_orientation v)) (ed_vehicles ed1)) ed1 in
  let ed3 :=
    set_obstacles
      (List.filter (λ o, (ro_row o <? rows (ed_gridSize ed2))
                         && (ro_col o <? cols (ed_gridSize ed2)))
                   (ed_obstacles ed2)) ed2 in
  let ed4 :=
    match ed_exit ed3 with
    | Some ex =>
      if (rows (ed_gridSize ed3) <=? row ex) || (cols (ed_gridSize ed3) <=? col ex)
      then set_exit None ed3 else ed3
    | None => ed3
    end in
  set_validation None ed4.

(** The [change] handlers of the two grid size fields: the new value is
    written into [this.gridSize], then [clearOutOfBounds] runs. *)
Definition setRows (n : Z) (ed : PuzzleEditor) : PuzzleEditor :=
  clearOutOfBounds
    (set_gridSize {| rows := n; cols := cols (ed_gridSize ed) |} ed).

Definition setCols (n : Z) (ed : PuzzleEditor) : PuzzleEditor :=
  clearOutOfBounds
    (set_gridSize {| rows := rows (ed_gridSize ed); cols := n |} ed).

Definition canTest (ed : PuzzleEditor) : bool :=
  bool_decide (is_Some (ed_playerCar ed)) && bool_decide (is_Some (ed_exit ed)).

(** [s.trim()] on strings of ASCII characters. *)
Definition trim (s : string) : string :=
  String.rev (trimStart (String.rev (trimStart s))).

(** [buildPuzzle] where its callers use it, with a player car and an exit:
    without them the source spreads [null] into an object without
    coordinates, which [RawPuzzle] has no value for. *)
Definition buildPuzzle (ed : PuzzleEditor) : option RawPuzzle :=
  ex ← ed_exit ed;
  pc ← ed_playerCar ed;
  Some {| r_name := trim (ed_name ed);
          r_difficulty := ed_difficulty ed;
          r_gridSize := ed_gridSize ed;
          r_exit := ex;
          r_playerCar := pc;
          r_vehicles := ed_vehicles ed;
          r_obstacles := ed_obstacles ed;
          r_validation := ed_validation ed |}.

(** The editor's [rotatePuzzle]: without a player car or an exit only a
    message is shown. *)
Definition rotatePuzzle (ed : PuzzleEditor) : PuzzleEditor :=
  match buildPuzzle ed with
  | None => ed
  | Some raw =>
    let rotated := rotatePuzzle90CW raw in
    let ed1 :=
      {| ed_name := r_name rotated; ed_difficulty := r_difficulty rotated;
         ed_gridSize := r_gridSize rotated;
         ed_exit := Some (r_exit rotated);
         ed_playerCar := Some (r_playerCar rotated);
         ed_vehicles := r_vehicles rotated;
         ed_obstacles := r_obstacles rotated;
         ed_validation := r_validation rotated;
         ed_vehicleLength := ed_vehicleLength ed;
         ed_vehicleOrientation := ed_vehicleOrientation ed;
         ed_vehicleColor := ed_vehicleColor ed;
         ed_obstacleType := ed_obstacleType ed;
         ed_playerOrientation := pl_orientation (r_playerCar rotated);
         ed_exitSide := ed_exitSide ed;
         ed_testEngine := ed_testEngine ed |} in
    {| ed_name := ed_name ed1; ed_difficulty := ed_difficulty ed1;
       ed_gridSize := ed_gridSize ed1; ed_exit := ed_exit ed1;
       ed_playerCar := ed_playerCar ed1; ed_vehicles := ed_vehicles ed1;
       ed_obstacles := ed_obstacles ed1; ed_validation := ed_validation ed1;
       ed_vehicleLength := ed_vehicleLength ed1;
       ed_vehicleOrientation := ed_vehicleOrientation ed1;
       ed_vehicleColor := ed_vehicleColor ed1;
       ed_obstacleType := ed_obstacleType ed1;
       ed_playerOrientation := ed_playerOrientation ed1;
       ed_exitSide := deduceDirection ed1 (r_exit rotated);
       ed_testEngine := ed_testEngine ed1 |}
  end.

(** [startTest], with the subscription [renderTestMode] makes on the new
    engine (listener 0 redraws the board). [None] is the exception of
    [hydratePuzzle]. *)
Definition startTest (ed : PuzzleEditor) : option PuzzleEditor :=
  if negb (canTest ed) then Some ed
  else
    puzzle ← buildPuzzle ed;
    hydrated ← hydratePuzzle puzzle "test";
    Some (set_testEngine (Some (subscribe 0 (newEngine hydrated))) ed).

(** The placement of the puzzle being edited: the cells of the player car,
    if there is one, and of the vehicles, the obstacle cells, and the
    invariants on them. *)
Definition editorCells (ed : PuzzleEditor) : list (list Cell) :=
  (placementCells <$> option_list (ed_playerCar ed))
  ++ ((λ v, placementCells (placementOf v)) <$> ed_vehicles ed).

Definition editorObstacles (ed : PuzzleEditor) : list Cell :=
  (λ o, (ro_row o, ro_col o)) <$> ed_obstacles ed.

Definition editorOk (ed : PuzzleEditor) : bool :=
  placementOk (ed_gridSize ed) (editorObstacles ed) (editorCells ed).

(** The exit is strictly inside the edges of the grid. *)
Definition exitInside (gs : GridSize) (ex : Position) : Prop :=
  0 < col ex < cols gs - 1 ∧ 0 < row ex < rows gs - 1.

(** The editor after a vertical player car is placed in the first column
    of the 4×4 grid, the exit side being [down]. *)
Definition editorVertical : PuzzleEditor :=
  placePlayer
    {| ed_name := "New Puzzle"; ed_difficulty := Easy;
       ed_gridSize := {| rows := 4; cols := 4 |};
       ed_exit := None; ed_playerCar := None; ed_vehicles := []; ed_obstacles := [];
       ed_validation := None; ed_vehicleLength := 2;
       ed_vehicleOrientation := Horizontal; ed_vehicleColor := Blue;
       ed_obstacleType := Tree; ed_playerOrientation := Vertical;
       ed_exitSide := Down; ed_testEngine := None |} 0 0.

(** The exit [autoPlaceExit] chooses for a player car at (r, c). *)
Definition autoExit (ed : PuzzleEditor) (r c : Z) : Position :=
  match ed_playerOrientation ed with
  | Horizontal =>
    if decide (ed_exitSide ed = Right)
    then {| row := r; col := cols (ed_gridSize ed) - 1 |}
    else {| row := r; col := 0 |}
  | Vertical =>
    if decide (ed_exitSide ed = Down)
    then {| row := rows (ed_gridSize ed) - 1; col := c |}
    else {| row := 0; col := c |}
  end.

(** * Properties *)

(** ** Occupancy *)

Lemma inGrid_spec gs c :
  inGrid gs c = true ↔ 0 ≤ c.1 < rows gs ∧ 0 ≤ c.2 < cols gs.
Proof.
  unfold inGrid. rewrite negb_true_iff, !orb_false_iff.
  rewrite !Z.ltb_ge, !Z.leb_gt. lia.
Qed.

Lemma disjointb_spec xs ys :
  disjointb xs ys = true ↔ ∀ c, c ∈ xs → c ∉ ys.
Proof.
  unfold disjointb. rewrite forallb_forall. split.
  - intros H c Hc. apply list_elem_of_In, H in Hc.
    by apply negb_true_iff, bool_decide_eq_false in Hc.
  - intros H c Hc. apply negb_true_iff, bool_decide_eq_false, H.
    by apply list_elem_of_In.
Qed.

Lemma pairwiseDisjoint_spec css :
  pairwiseDisjoint css = true ↔
  ∀ i j a b c, i ≠ j → css !! i = Some a → css !! j = Some b → c ∈ a → c ∉ b.
Proof.
  induction css as [|cs rest IH]; simpl.
  - split; [|done]. intros _ i j a b c _ Hi. by rewrite lookup_nil in Hi.
  - rewrite andb_true_iff, IH, forallb_forall. split.
    + intros [Hhd Htl] i j a b c Hij Ha Hb Hc.
      destruct i as [|i], j as [|j]; simplify_eq/=.
      * assert (Hb' : b ∈ rest) by (eapply list_elem_of_lookup_2; eauto).
        apply list_elem_of_In, Hhd in Hb'. by eapply disjointb_spec in Hb'.
      * assert (Ha' : a ∈ rest) by (eapply list_elem_of_lookup_2; eauto).
        apply list_elem_of_In, Hhd in Ha'. intros Hcb.
        eapply disjointb_spec in Ha'; eauto.
      * eapply (Htl i j); eauto.
    + intros H. split.
      * intros b Hb. apply list_elem_of_In, list_elem_of_lookup in Hb as [j Hj].
        apply disjointb_spec. intros c Hc. by apply (H 0%nat (S j) cs b c).
      * intros i j a b c Hij Ha Hb. apply (H (S i) (S j) a b c); auto.
Qed.

Lemma placementOk_spec gs obs css :
  placementOk gs obs css = true ↔ PlacementInv gs obs css.
Proof.
  unfold placementOk. rewrite !andb_true_iff, pairwiseDisjoint_spec.
  rewrite !forallb_forall. split.
  - intros [[Hb Hv] Ho]. split; [|done|].
    + intros cs c Hcs Hc. apply inGrid_spec.
      apply list_elem_of_In, Hb in Hcs. rewrite forallb_forall in Hcs.
      by apply Hcs, list_elem_of_In.
    + intros cs c Hcs Hc. apply list_elem_of_In, Ho in Hcs.
      by eapply disjointb_spec in Hcs.
  - intros [Hb Hv Ho]. repeat split; [|done|].
    + intros cs Hcs. apply forallb_forall. intros c Hc.
      apply inGrid_spec, (Hb cs); by apply list_elem_of_In.
    + intros cs Hcs. apply disjointb_spec. intros c Hc.
      apply (Ho cs); [by apply list_elem_of_In|done].
Qed.

Lemma foldl_insert_is_Some {A K V} `{Countable K} (kf : A → K) (vf : A → V)
    (l : list A) (m0 : gmap K V) (k : K) :
  is_Some (foldl (λ (m : gmap K V) a, <[kf a := vf a]> m) m0 l !! k)
  ↔ (∃ a, a ∈ l ∧ kf a = k) ∨ is_Some (m0 !! k).
Proof.
  revert m0. induction l as [|a l IH]; intros m0; simpl.
  - split; [auto|]. intros [(a & Ha & _)|?]; [|done]. by apply elem_of_nil in Ha.
  - rewrite IH, lookup_insert_is_Some'. split.
    + intros [(b & Hb & Hk)|[Hk|Hk]]; [left; exists b|left; exists a|right; done];
        split; auto; by constructor.
    + intros [(b & Hb & Hk)|Hk]; [|by right; right].
      apply elem_of_cons in Hb as [->|Hb]; [right; by left|left; eauto].
Qed.

Lemma addVehicleCells_Some v pos occ :
  addVehicleCells v (Some pos) occ
  = Some (foldl (λ (m : gmap Cell string) c, <[c := v_id v]> m) occ (vehicleCells v pos)).
Proof.
  unfold addVehicleCells, vehicleCells.
  destruct (seqZ 0 (v_length v)); reflexivity.
Qed.

Lemma addVehicleCells_spec v pos occ :
  ∃ occ', addVehicleCells v (Some pos) occ = Some occ'
    ∧ ∀ c, is_Some (occ' !! c) ↔ c ∈ vehicleCells v pos ∨ is_Some (occ !! c).
Proof.
  eexists. split; [apply addVehicleCells_Some|]. intros c.
  rewrite (foldl_insert_is_Some (λ c, c) (λ _, v_id v)).
  split; (intros [H|H]; [left|by right]); [by destruct H as (? & ? & <-)|eauto].
Qed.

Lemma addOtherVehicles_spec vp ex vs occ :
  (∀ v, v ∈ vs → is_Some (vp !! v_id v)) →
  ∃ occ', addOtherVehicles vp ex vs occ = Some occ'
    ∧ ∀ c, is_Some (occ' !! c) ↔
        (∃ v pos, v ∈ vs ∧ Some (v_id v) ≠ ex ∧ vp !! v_id v = Some pos
                  ∧ c ∈ vehicleCells v pos)
        ∨ is_Some (occ !! c).
Proof.
  unfold addOtherVehicles. revert occ.
  induction vs as [|v vs IH]; intros occ Hpos; simpl.
  - eexists. split; [done|]. intros c. split; [auto|].
    intros [(v & ? & Hv & _)|?]; [|done]. by apply elem_of_nil in Hv.
  - destruct (decide (Some (v_id v) = ex)) as [Hex|Hex].
    + destruct (IH occ) as (occ' & -> & Hocc'); [intros; apply Hpos; by right|].
      eexists. split; [done|]. intros c. rewrite Hocc'. split.
      * intros [(w & pos & Hw & ?)|?]; [left; exists w, pos; split; [by right|done]|by right].
      * intros [(w & pos & Hw & Hne & ?)|?]; [|by right].
        apply elem_of_cons in Hw as [->|Hw]; [done|]. left. eauto.
    + destruct (Hpos v) as [pos Hlk]; [by left|]. rewrite Hlk.
      destruct (addVehicleCells_spec v pos occ) as (occ1 & -> & Hocc1).
      destruct (IH occ1) as (occ' & -> & Hocc'); [intros; apply Hpos; by right|].
      eexists. split; [done|]. intros c. rewrite Hocc', Hocc1. split.
      * intros [(w & pw & Hw & ?)|[?|?]].
        -- left. exists w, pw. split; [by right|done].
        -- left. exists v, pos. split; [by left|done].
        -- by right.
      * intros [(w & pw & Hw & Hne & Hlw & Hc)|?]; [|by right; right].
        apply elem_of_cons in Hw as [->|Hw].
        -- right. left. congruence.
        -- left. eauto 10.
Qed.

Lemma addObstacles_spec obs occ c :
  is_Some (addObstacles obs occ !! c)
  ↔ c ∈ obstacleCell <$> obs ∨ is_Some (occ !! c).
Proof.
  unfold addObstacles.
  rewrite (foldl_insert_is_Some obstacleCell o_id), list_elem_of_fmap.
  split; (intros [(o & H1 & H2)|?]; [left; exists o|by right]); auto.
Qed.

(** The occupancy map holds exactly the cells of the vehicles other than
    the excluded one, at their current positions, and the obstacle cells. *)
Lemma getOccupiedCells_spec e ex :
  Positioned (state e) →
  ∃ occ, getOccupiedCells e ex = Some occ
    ∧ ∀ c, has occ c = true ↔
        (∃ v pos, v ∈ allVehicles (puzzle (state e)) ∧ Some (v_id v) ≠ ex
                  ∧ vehiclePositions (state e) !! v_id v = Some pos
                  ∧ c ∈ vehicleCells v pos)
        ∨ c ∈ obstacleCell <$> obstacles (puzzle (state e)).
Proof.
  intros Hpos. unfold getOccupiedCells, has.
  set (p := puzzle (state e)). set (vp := vehiclePositions (state e)).
  destruct (Hpos (playerCar p)) as [ppos Hpp]; [by left|]. fold vp in Hpp.
  assert (∃ occ0,
    (if decide (ex ≠ Some (v_id (playerCar p)))
     then addVehicleCells (playerCar p) (vp !! v_id (playerCar p)) ∅
     else Some ∅) = Some occ0
    ∧ ∀ c, is_Some (occ0 !! c) ↔
        Some (v_id (playerCar p)) ≠ ex ∧ c ∈ vehicleCells (playerCar p) ppos)
    as (occ0 & -> & Hocc0).
  { destruct (decide (ex ≠ Some (v_id (playerCar p)))) as [Hne|Heq].
    - rewrite Hpp. destruct (addVehicleCells_spec (playerCar p) ppos ∅)
        as (occ0 & -> & H0). eexists. split; [done|]. intros c.
      rewrite H0, lookup_empty. split.
      + intros [?|[? ?]]; [|done]. split; [congruence|done].
      + intros [_ ?]. by left.
    - eexists. split; [done|]. intros c. rewrite lookup_empty. split.
      + by intros [? ?].
      + intros [Hne _]. destruct Heq. congruence. }
  simpl.
  destruct (addOtherVehicles_spec vp ex (vehicles p) occ0)
    as (occ1 & -> & Hocc1); [intros; apply Hpos; by right|].
  eexists. split; [done|]. intros c.
  rewrite bool_decide_eq_true, addObstacles_spec, Hocc1, Hocc0. split.
  - intros [?|[(v & pos & Hv & ?)|[? ?]]]; [by right| |].
    + left. exists v, pos. split; [by right|done].
    + left. exists (playerCar p), ppos. split; [by left|done].
  - intros [(v & pos & Hv & Hne & Hlk & Hc)|?]; [|by left]. right.
    apply elem_of_cons in Hv as [->|Hv].
    + right. split; [done|]. congruence.
    + left. eauto 10.
Qed.

(** ** Move legality *)

Lemma getVehicle_Some e id v :
  getVehicle e id = Some v → v ∈ allVehicles (puzzle (state e)) ∧ v_id v = id.
Proof.
  unfold getVehicle, allVehicles. case_decide as Hid.
  - intros [= <-]. split; [by left|done].
  - intros Hf. apply find_some in Hf as [Hin Hb].
    apply bool_decide_eq_true in Hb. split; [|done].
    right. by apply list_elem_of_In.
Qed.

Lemma getVehicle_None e id v :
  getVehicle e id = None → v ∈ allVehicles (puzzle (state e)) → v_id v ≠ id.
Proof.
  unfold getVehicle, allVehicles. case_decide as Hid; [done|].
  intros Hf Hv Heq. apply elem_of_cons in Hv as [->|Hv]; [done|].
  apply list_elem_of_In in Hv. eapply find_none in Hf; eauto.
  by apply bool_decide_eq_false in Hf.
Qed.

Lemma getVehicle_distinct e v :
  distinctIds (puzzle (state e)) → v ∈ allVehicles (puzzle (state e)) →
  getVehicle e (v_id v) = Some v.
Proof.
  intros Hnd Hv. destruct (getVehicle e (v_id v)) as [w|] eqn:Hg.
  - apply getVehicle_Some in Hg as [Hw Hid]. f_equal.
    apply list_elem_of_lookup in Hv as [i Hi].
    apply list_elem_of_lookup in Hw as [j Hj].
    assert (i = j) as ->; [|congruence].
    apply (NoDup_lookup _ i j (v_id v) Hnd); rewrite list_lookup_fmap.
    + by rewrite Hi.
    + rewrite Hj. simpl. by rewrite Hid.
  - by eapply getVehicle_None in Hg.
Qed.

Lemma canMove_spec e id newPos :
  Positioned (state e) →
  ∃ b, canMove e id newPos = Some b ∧ (b = true ↔ legalMove e id newPos).
Proof.
  intros Hpos. unfold canMove, legalMove.
  destruct (getVehicle e id) as [v|] eqn:Hg.
  2:{ exists false. split; [done|]. split; [done|]. by intros (? & ? & ? & _). }
  pose proof (getVehicle_Some _ _ _ Hg) as [Hv Hid].
  destruct (Hpos v Hv) as [cur Hcur]. rewrite Hid in Hcur. rewrite Hcur. simpl.
  destruct (bool_decide (v_orientation v = Horizontal)
            && negb (row newPos =? row cur)) eqn:Hh.
  { exists false. split; [done|]. split; [done|].
    intros (v' & cur' & [= <-] & [= <-] & Hr & _).
    apply andb_true_iff in Hh as [Ho Hne]. apply bool_decide_eq_true in Ho.
    apply negb_true_iff, Z.eqb_neq in Hne. destruct Hne. by apply Hr. }
  destruct (bool_decide (v_orientation v = Vertical)
            && negb (col newPos =? col cur)) eqn:Hvv.
  { exists false. split; [done|]. split; [done|].
    intros (v' & cur' & [= <-] & [= <-] & _ & Hc & _).
    apply andb_true_iff in Hvv as [Ho Hne]. apply bool_decide_eq_true in Ho.
    apply negb_true_iff, Z.eqb_neq in Hne. destruct Hne. by apply Hc. }
  assert (Hrow : v_orientation v = Horizontal → row newPos = row cur).
  { intros Ho. apply andb_false_iff in Hh as [Hh|Hh].
    - by apply bool_decide_eq_false in Hh.
    - by apply negb_false_iff, Z.eqb_eq in Hh. }
  assert (Hcol : v_orientation v = Vertical → col newPos = col cur).
  { intros Ho. apply andb_false_iff in Hvv as [Hvv|Hvv].
    - by apply bool_decide_eq_false in Hvv.
    - by apply negb_false_iff, Z.eqb_eq in Hvv. }
  destruct (forallb (inGrid (gridSize (puzzle (state e))))
                    (vehicleCells v newPos)) eqn:Hb; simpl.
  2:{ exists false. split; [done|]. split; [done|].
      intros (v' & cur' & [= <-] & [= <-] & _ & _ & Hall).
      apply not_true_iff_false in Hb. destruct Hb. apply forallb_forall.
      intros c Hc. apply inGrid_spec, Hall. by apply list_elem_of_In. }
  destruct (getOccupiedCells_spec e (Some id) Hpos) as (occ & -> & Hocc). simpl.
  rewrite forallb_forall in Hb.
  destruct (existsb (has occ) (vehicleCells v newPos)) eqn:Hex.
  - exists false. split; [done|]. split; [done|].
    intros (v' & cur' & [= <-] & [= <-] & _ & _ & Hall).
    apply existsb_exists in Hex as (c & Hc & Hhas). apply list_elem_of_In in Hc.
    destruct (Hall c Hc) as (_ & Hveh & Hobs).
    apply Hocc in Hhas as [(w & pos & Hw & Hne & Hlk & Hcw)|?]; [|done].
    destruct (Hveh w pos); auto. congruence.
  - exists true. split; [done|]. split; [|done]. intros _.
    exists v, cur. do 4 (split; [done|]). intros c Hc. split; [|split].
    + apply inGrid_spec, Hb. by apply list_elem_of_In.
    + intros w pos Hw Hne Hlk Hcw.
      apply not_true_iff_false in Hex. apply Hex, existsb_exists.
      exists c. split; [by apply list_elem_of_In|]. apply Hocc. left.
      exists w, pos. repeat split; auto. congruence.
    + intros Hobs. apply not_true_iff_false in Hex. apply Hex, existsb_exists.
      exists c. split; [by apply list_elem_of_In|]. apply Hocc. by right.
Qed.

(** ** The placement invariants on a live state *)

Lemma stateOk_spec st : stateOk st = true ↔ StateInv st.
Proof.
  unfold stateOk.
  set (f := λ v, vehicleCells v <$> vehiclePositions st !! v_id v).
  split.
  - destruct (mapM f (allVehicles (puzzle st))) as [css|] eqn:Hm; [|done].
    intros [Hb Hv Ho]%placementOk_spec. apply mapM_Some in Hm.
    assert (Hcs : ∀ i v pos, allVehicles (puzzle st) !! i = Some v →
              vehiclePositions st !! v_id v = Some pos →
              css !! i = Some (vehicleCells v pos)).
    { intros i v pos Hi Hlk.
      destruct (Forall2_lookup_l _ _ _ _ _ Hm Hi) as (cs & Hcs & Hf).
      unfold f in Hf. rewrite Hlk in Hf. simpl in Hf. congruence. }
    split.
    + intros v [i Hi]%list_elem_of_lookup.
      destruct (Forall2_lookup_l _ _ _ _ _ Hm Hi) as (cs & Hcs' & Hf).
      unfold f in Hf. destruct (vehiclePositions st !! v_id v); [eauto|done].
    + intros v pos c [i Hi]%list_elem_of_lookup Hlk Hc.
      eapply Hb; [|exact Hc]. eapply list_elem_of_lookup_2, Hcs; eauto.
    + intros i j v w pv pw c Hij Hi Hj Hlv Hlw Hc.
      eapply (Hv i j); eauto.
    + intros v pos c [i Hi]%list_elem_of_lookup Hlk Hc.
      eapply Ho; [|exact Hc]. eapply list_elem_of_lookup_2, Hcs; eauto.
  - intros [Hp Hb Hv Ho].
    destruct (mapM f (allVehicles (puzzle st))) as [css|] eqn:Hm.
    2:{ apply mapM_None, Exists_exists in Hm as (v & Hin & Hn).
        destruct (Hp v Hin) as [pos Hlk]. unfold f in Hn. by rewrite Hlk in Hn. }
    apply mapM_Some in Hm. apply placementOk_spec.
    assert (Hcs : ∀ i cs, css !! i = Some cs →
              ∃ v pos, allVehicles (puzzle st) !! i = Some v
                ∧ vehiclePositions st !! v_id v = Some pos
                ∧ cs = vehicleCells v pos).
    { intros i cs Hi.
      destruct (Forall2_lookup_r _ _ _ _ _ Hm Hi) as (v & Hv' & Hf).
      unfold f in Hf. destruct (vehiclePositions st !! v_id v) as [pos|] eqn:Hlk;
        [|done]. simpl in Hf. exists v, pos. repeat split; congruence. }
    split.
    + intros cs c [i Hi]%list_elem_of_lookup Hc.
      destruct (Hcs i cs Hi) as (v & pos & Hi' & Hlk & ->).
      eapply Hb; eauto. by eapply list_elem_of_lookup_2.
    + intros i j a b c Hij Ha Hb' Hc.
      destruct (Hcs i a Ha) as (v & pv & Hi' & Hlv & ->).
      destruct (Hcs j b Hb') as (w & pw & Hj' & Hlw & ->).
      eapply (Hv i j); eauto.
    + intros cs c [i Hi]%list_elem_of_lookup Hc.
      destruct (Hcs i cs Hi) as (v & pos & Hi' & Hlk & ->).
      eapply Ho; eauto. by eapply list_elem_of_lookup_2.
Qed.

(** ** Construction and reset *)

Lemma foldl_insert_lookup_notin {A V} (kf : A → string) (vf : A → V)
    (l : list A) (m0 : gmap string V) (k : string) :
  k ∉ kf <$> l →
  foldl (λ (m : gmap string V) a, <[kf a := vf a]> m) m0 l !! k = m0 !! k.
Proof.
  revert m0. induction l as [|a l IH]; intros m0 Hk; simpl; [done|].
  rewrite fmap_cons, not_elem_of_cons in Hk. destruct Hk as [Hne Hk].
  rewrite IH by done. by rewrite lookup_insert_ne.
Qed.

Lemma foldl_insert_lookup_NoDup {A V} (kf : A → string) (vf : A → V)
    (l : list A) (m0 : gmap string V) (a : A) :
  NoDup (kf <$> l) → a ∈ l →
  foldl (λ (m : gmap string V) a, <[kf a := vf a]> m) m0 l !! kf a = Some (vf a).
Proof.
  revert m0. induction l as [|b l IH]; intros m0 Hnd Ha; simpl.
  - by apply elem_of_nil in Ha.
  - rewrite fmap_cons in Hnd. apply NoDup_cons in Hnd as [Hb Hnd].
    apply elem_of_cons in Ha as [->|Ha].
    + rewrite foldl_insert_lookup_notin by done. apply lookup_insert_eq.
    + by apply IH.
Qed.

Lemma initState_lookup p v :
  distinctIds p → v ∈ allVehicles p →
  vehiclePositions (initState p) !! v_id v = Some (templatePos v).
Proof.
  unfold distinctIds, allVehicles, initState. simpl.
  rewrite NoDup_cons. intros [Hpl Hnd] Hv.
  apply elem_of_cons in Hv as [->|Hv].
  - rewrite (foldl_insert_lookup_notin v_id templatePos) by done.
    apply lookup_insert_eq.
  - by apply (foldl_insert_lookup_NoDup v_id templatePos).
Qed.

Lemma initState_inv p :
  distinctIds p → templateOk p = true → StateInv (initState p).
Proof.
  intros Hnd [Hb Hv Ho]%placementOk_spec.
  assert (Hcs : ∀ i v, allVehicles p !! i = Some v →
            ((λ v, vehicleCells v (templatePos v)) <$> allVehicles p) !! i
            = Some (vehicleCells v (templatePos v))).
  { intros i v Hi. by rewrite list_lookup_fmap, Hi. }
  split; change (puzzle (initState p)) with p.
  - intros v Hin. rewrite initState_lookup by done. eauto.
  - intros v pos c Hin. rewrite initState_lookup by done. intros [= <-] Hc.
    apply list_elem_of_lookup in Hin as [i Hi].
    eapply Hb; [|exact Hc]. eapply list_elem_of_lookup_2, Hcs, Hi.
  - intros i j v w pv pw c Hij Hi Hj.
    rewrite !initState_lookup by (done || by eapply list_elem_of_lookup_2).
    intros [= <-] [= <-] Hc. eapply (Hv i j); eauto.
  - intros v pos c Hin. rewrite initState_lookup by done. intros [= <-] Hc.
    apply list_elem_of_lookup in Hin as [i Hi].
    eapply Ho; [|exact Hc]. eapply list_elem_of_lookup_2, Hcs, Hi.
Qed.

(** ** Applying a move *)

Lemma distinctIds_index p i j v w :
  distinctIds p → allVehicles p !! i = Some v → allVehicles p !! j = Some w →
  v_id v = v_id w → i = j.
Proof.
  intros Hnd Hi Hj Hid.
  apply (NoDup_lookup _ i j (v_id v) Hnd); rewrite list_lookup_fmap.
  - by rewrite Hi.
  - rewrite Hj. simpl. by rewrite Hid.
Qed.

Lemma distinctIds_elem p v w :
  distinctIds p → v ∈ allVehicles p → w ∈ allVehicles p → v_id v = v_id w → v = w.
Proof.
  intros Hnd [i Hi]%list_elem_of_lookup [j Hj]%list_elem_of_lookup Hid.
  assert (i = j) as -> by eauto using distinctIds_index. congruence.
Qed.

Lemma checkWin_is_Some e :
  Positioned (state e) → is_Some (checkWin e).
Proof.
  intros Hpos. unfold checkWin.
  destruct (Hpos (playerCar (puzzle (state e)))) as [pos ->]; [by left|].
  destruct (v_orientation _), (direction _); simpl; eauto.
Qed.

Lemma state_notify e : state (notify e) = state e.
Proof. done. Qed.

(** Moving a vehicle to a legal target keeps the invariants. *)
Lemma setPosition_inv e id newPos :
  distinctIds (puzzle (state e)) → StateInv (state e) → legalMove e id newPos →
  StateInv (state (setPosition id newPos e)).
Proof.
  intros Hnd [Hp Hb Hv Ho] (v & cur & Hg & Hcur & _ & _ & Hlegal).
  pose proof (getVehicle_Some _ _ _ Hg) as [Hvin Hvid].
  assert (Hsame : ∀ w, w ∈ allVehicles (puzzle (state e)) → v_id w = id → w = v).
  { intros w Hw Hid. eapply distinctIds_elem; eauto. congruence. }
  split; simpl.
  - intros w Hw. apply lookup_insert_is_Some'. right. by apply Hp.
  - intros w pos c Hw Hlk Hc. destruct (decide (v_id w = id)) as [Hid|Hid].
    + rewrite <-Hid, lookup_insert_eq in Hlk. injection Hlk as <-.
      rewrite (Hsame w Hw Hid) in Hc. by apply Hlegal.
    + rewrite lookup_insert_ne in Hlk by done. eauto.
  - intros i j a b pa pb c Hij Hi Hj Hla Hlb Hc.
    pose proof (list_elem_of_lookup_2 _ _ _ Hi) as Hain.
    pose proof (list_elem_of_lookup_2 _ _ _ Hj) as Hbin.
    destruct (decide (v_id a = id)) as [Ha|Ha], (decide (v_id b = id)) as [Hb'|Hb'].
    + destruct Hij. eapply distinctIds_index; eauto. congruence.
    + rewrite <-Ha, lookup_insert_eq in Hla. injection Hla as <-.
      rewrite lookup_insert_ne in Hlb by done.
      rewrite (Hsame a Hain Ha) in Hc.
      destruct (Hlegal c Hc) as (_ & Hveh & _). exact (Hveh b pb Hbin Hb' Hlb).
    + rewrite <-Hb', lookup_insert_eq in Hlb. injection Hlb as <-.
      rewrite lookup_insert_ne in Hla by done.
      rewrite (Hsame b Hbin Hb'). intros Hcb.
      destruct (Hlegal c Hcb) as (_ & Hveh & _). exact (Hveh a pa Hain Ha Hla Hc).
    + rewrite lookup_insert_ne in Hla, Hlb by done. eauto.
  - intros w pos c Hw Hlk Hc. destruct (decide (v_id w = id)) as [Hid|Hid].
    + rewrite <-Hid, lookup_insert_eq in Hlk. injection Hlk as <-.
      rewrite (Hsame w Hw Hid) in Hc. by apply Hlegal.
    + rewrite lookup_insert_ne in Hlk by done. eauto.
Qed.

(** [moveVehicle] returns, and what it returns: the engine itself when the
    move is refused, the moved engine otherwise. *)
Lemma moveVehicle_cases e id newPos :
  Positioned (state e) →
  (moveVehicle e id newPos = Some (false, e)
   ∧ (¬ legalMove e id newPos
      ∨ vehiclePositions (state e) !! id = Some newPos))
  ∨ (∃ won, legalMove e id newPos
      ∧ vehiclePositions (state e) !! id ≠ Some newPos
      ∧ checkWin (setPosition id newPos e) = Some won
      ∧ moveVehicle e id newPos
        = Some (true, notify (if won then setComplete (setPosition id newPos e)
                              else setPosition id newPos e))).
Proof.
  intros Hpos. unfold moveVehicle.
  destruct (canMove_spec e id newPos Hpos) as (b & -> & Hb). simpl.
  destruct b; simpl.
  2:{ left. split; [done|]. left. intros Hl. by apply Hb in Hl. }
  assert (Hl : legalMove e id newPos) by by apply Hb.
  destruct Hl as (v & cur & Hg & Hcur & Hrest). rewrite Hcur. simpl.
  destruct ((row cur =? row newPos) && (col cur =? col newPos)) eqn:Heq.
  - left. split; [done|]. right.
    apply andb_true_iff in Heq as [Hr%Z.eqb_eq Hc%Z.eqb_eq].
    destruct cur, newPos; simpl in *; congruence.
  - right.
    destruct (checkWin_is_Some (setPosition id newPos e)) as [won Hwon].
    { intros w Hw. simpl. apply lookup_insert_is_Some'. right. by apply Hpos. }
    exists won. rewrite Hwon. simpl. split; [by apply Hb|]. split; [|done].
    intros [= ->]. by rewrite !Z.eqb_refl in Heq.
Qed.

Lemma StateInv_ext st st' :
  puzzle st' = puzzle st → vehiclePositions st' = vehiclePositions st →
  StateInv st → StateInv st'.
Proof.
  destruct st, st'; simpl. intros -> -> [Hp Hb Hv Ho].
  split; simpl in *; auto.
Qed.

Lemma moveVehicle_inv e id newPos :
  distinctIds (puzzle (state e)) → StateInv (state e) →
  ∃ b e', moveVehicle e id newPos = Some (b, e')
    ∧ puzzle (state e') = puzzle (state e) ∧ StateInv (state e').
Proof.
  intros Hnd Hinv.
  destruct (moveVehicle_cases e id newPos (si_positioned _ Hinv))
    as [[-> _]|(won & Hl & _ & _ & ->)]; [by eauto|].
  do 2 eexists. split; [done|].
  pose proof (setPosition_inv e id newPos Hnd Hinv Hl) as Hinv'.
  destruct won; (split; [done|]);
    (eapply StateInv_ext; [| |exact Hinv']; done).
Qed.

Lemma reset_inv e :
  distinctIds (puzzle (state e)) → templateOk (puzzle (state e)) = true →
  puzzle (state (reset e)) = puzzle (state e) ∧ StateInv (state (reset e)).
Proof. intros Hnd Hok. split; [done|]. by apply initState_inv. Qed.

Lemma run_inv p ops e :
  distinctIds p → templateOk p = true →
  puzzle (state e) = p → StateInv (state e) →
  ∃ e', run e ops = Some e' ∧ puzzle (state e') = p ∧ StateInv (state e').
Proof.
  intros Hnd Hok. revert e.
  induction ops as [|op ops IH]; intros e Hp Hinv; simpl; [by eauto|].
  destruct op as [id newPos|]; simpl.
  - destruct (moveVehicle_inv e id newPos) as (b & e1 & -> & Hp1 & Hinv1);
      [by rewrite Hp|done|]. simpl. apply IH; congruence.
  - destruct (reset_inv e) as [Hp1 Hinv1]; [by rewrite Hp..|].
    apply IH; congruence.
Qed.

(** C1. For every puzzle template (identities pairwise distinct) whose
    initial placement satisfies the placement invariants, every sequence of
    [moveVehicle] and [reset] calls on an engine constructed from it runs
    to completion and leaves an engine on the same template in which every
    vehicle has a position, every vehicle's occupied cells lie within the
    grid, and no two entities' cells intersect (vehicle-vehicle and
    vehicle-obstacle). *)
Theorem invariants_preserved (p : Puzzle) (ops : list Op) :
  distinctIds p → templateOk p = true →
  ∃ e, run (newEngine p) ops = Some e
    ∧ puzzle (state e) = p ∧ stateOk (state e) = true.
Proof.
  intros Hnd Hok.
  destruct (run_inv p ops (newEngine p) Hnd Hok) as (e & He & Hp & Hinv);
    [done|by apply initState_inv|].
  exists e. by rewrite stateOk_spec.
Qed.

(** ** Win detection *)

(** C4. With the player at [pos], [checkWin] returns, and it returns true
    exactly when the player's leading edge is the exit cell: the four
    orientation/direction cases of the spec, and false at every position
    for the other combinations. *)
Theorem checkWin_leading_edge (e : GameEngine) (pos : Position) :
  let player := playerCar (puzzle (state e)) in
  let ex := exit (puzzle (state e)) in
  vehiclePositions (state e) !! v_id player = Some pos →
  ∃ b, checkWin e = Some b
    ∧ (b = true ↔ leadingEdge (v_orientation player) (direction ex) pos
                              (v_length player) = Some (e_row ex, e_col ex))
    ∧ (v_orientation player = Horizontal → direction ex = Right →
       (b = true ↔ row pos = e_row ex ∧ col pos + v_length player - 1 = e_col ex))
    ∧ (v_orientation player = Horizontal → direction ex = Left →
       (b = true ↔ row pos = e_row ex ∧ col pos = e_col ex))
    ∧ (v_orientation player = Vertical → direction ex = Down →
       (b = true ↔ col pos = e_col ex ∧ row pos + v_length player - 1 = e_row ex))
    ∧ (v_orientation player = Vertical → direction ex = Up →
       (b = true ↔ col pos = e_col ex ∧ row pos = e_row ex))
    ∧ (v_orientation player = Horizontal → direction ex = Up ∨ direction ex = Down →
       b = false)
    ∧ (v_orientation player = Vertical → direction ex = Left ∨ direction ex = Right →
       b = false).
Proof.
  intros player ex Hpos. unfold checkWin, leadingEdge.
  fold player ex. rewrite Hpos.
  destruct (v_orientation player), (direction ex); simpl;
    eexists; (split; [reflexivity|]);
    rewrite ?andb_true_iff, ?Z.eqb_eq;
    repeat split; try congruence; try tauto;
    try (intros [= ? ?]; lia); try (intros [? ?]; f_equal; f_equal; lia);
    try (intros _ [?|?]; congruence).
Qed.

(** ** Rejected moves *)

(** C6. [moveVehicle] returns false exactly when [canMove] refuses the
    move or the target is the vehicle's current position, and the engine
    it leaves is then the engine it was given: positions, move counter,
    move history, completion flag and the log of listener calls are all
    unchanged. *)
Theorem moveVehicle_rejected_unchanged (e e' : GameEngine) (id : string)
    (newPos : Position) :
  moveVehicle e id newPos = Some (false, e')
  ↔ (canMove e id newPos = Some false
     ∨ (canMove e id newPos = Some true
        ∧ vehiclePositions (state e) !! id = Some newPos))
    ∧ e' = e
    ∧ vehiclePositions (state e') = vehiclePositions (state e)
    ∧ moveCount (state e') = moveCount (state e)
    ∧ moveHistory e' = moveHistory e
    ∧ isComplete (state e') = isComplete (state e)
    ∧ delivered e' = delivered e.
Proof.
  unfold moveVehicle.
  destruct (canMove e id newPos) as [[|]|]; simpl.
  - destruct (vehiclePositions (state e) !! id) as [cur|]; simpl.
    + destruct ((row cur =? row newPos) && (col cur =? col newPos)) eqn:Heq.
      * apply andb_true_iff in Heq as [Hr%Z.eqb_eq Hc%Z.eqb_eq].
        assert (cur = newPos) as -> by (destruct cur, newPos; simpl in *; congruence).
        split; [intros [= <-]; by eauto 10|]. by intros (_ & -> & _).
      * destruct (checkWin _) as [won|]; simpl.
        -- split; [done|]. intros ([[=]|[_ [= ->]]] & _).
           by rewrite !Z.eqb_refl in Heq.
        -- split; [done|]. intros ([[=]|[_ [= ->]]] & _).
           by rewrite !Z.eqb_refl in Heq.
    + split; [done|]. by intros ([[=]|[_ [=]]] & _).
  - split; [intros [= <-]; by eauto 10|]. by intros (_ & -> & _).
  - split; [done|]. by intros ([[=]|[[=] _]] & _).
Qed.

(** ** The no-op target *)

Lemma legalMove_current e id v cur :
  StateInv (state e) → getVehicle e id = Some v →
  vehiclePositions (state e) !! id = Some cur → legalMove e id cur.
Proof.
  intros [Hp Hb Hv Ho] Hg Hcur.
  pose proof (getVehicle_Some _ _ _ Hg) as [Hvin Hvid].
  exists v, cur. do 4 (split; [done|]). rewrite <-Hvid in Hcur.
  intros c Hc. split; [by eapply Hb|]. split; [|by eapply Ho].
  intros w pos Hw Hne Hlw.
  apply list_elem_of_lookup in Hvin as [i Hi].
  apply list_elem_of_lookup in Hw as [j Hj].
  eapply (Hv i j); eauto. intros ->. congruence.
Qed.

Lemma moveVehicle_noop e id cur :
  canMove e id cur = Some true → vehiclePositions (state e) !! id = Some cur →
  moveVehicle e id cur = Some (false, e).
Proof.
  intros Hcm Hcur. unfold moveVehicle. rewrite Hcm. simpl. rewrite Hcur. simpl.
  by rewrite !Z.eqb_refl.
Qed.

(** C9, as the code has it. In a state satisfying the placement
    invariants, [canMove] accepts the current position of an existing
    vehicle as a target; it is [moveVehicle] that refuses the no-op, and it
    leaves the engine unchanged. *)
Theorem canMove_noop_accepted (e : GameEngine) (id : string) (v : Vehicle)
    (cur : Position) :
  stateOk (state e) = true →
  getVehicle e id = Some v →
  vehiclePositions (state e) !! id = Some cur →
  canMove e id cur = Some true ∧ moveVehicle e id cur = Some (false, e).
Proof.
  intros Hinv%stateOk_spec Hg Hcur.
  assert (Hcm : canMove e id cur = Some true).
  { destruct (canMove_spec e id cur (si_positioned _ Hinv)) as (b & -> & Hb).
    f_equal. apply Hb. by eapply legalMove_current. }
  split; [done|]. by apply moveVehicle_noop.
Qed.

(** ** Slide range *)

(** The fuel [getSlideRange] passes to its loops is never exhausted: any
    fuel above the number of cells left to probe gives the same result. *)
Lemma slideBackward_fuel e id isH cur fuel1 fuel2 m :
  (Z.to_nat m < fuel1)%nat → (Z.to_nat m < fuel2)%nat →
  slideBackward fuel1 e id isH cur m = slideBackward fuel2 e id isH cur m.
Proof.
  revert fuel2 m. induction fuel1 as [|fuel1 IH]; intros [|fuel2] m H1 H2; try lia.
  simpl. destruct (Z.ltb_spec 0 m); [|done].
  destruct (canMove _ _ _) as [[|]|]; simpl; try done. apply IH; lia.
Qed.

Lemma slideForward_fuel e id isH cur len limit fuel1 fuel2 m :
  (Z.to_nat (limit - len - m) < fuel1)%nat →
  (Z.to_nat (limit - len - m) < fuel2)%nat →
  slideForward fuel1 e id isH cur len limit m
  = slideForward fuel2 e id isH cur len limit m.
Proof.
  revert fuel2 m. induction fuel1 as [|fuel1 IH]; intros [|fuel2] m H1 H2; try lia.
  simpl. destruct (Z.ltb_spec (m + len) limit); [|done].
  destruct (canMove _ _ _) as [[|]|]; simpl; try done. apply IH; lia.
Qed.

Lemma slideBackward_spec e id isH cur fuel m :
  Positioned (state e) → (Z.to_nat m < fuel)%nat →
  ∃ m', slideBackward fuel e id isH cur m = Some m' ∧ m' ≤ m
    ∧ (∀ k, m' ≤ k < m → canMove e id (testPos isH cur k) = Some true)
    ∧ (canMove e id (testPos isH cur (m - 1)) = Some false → m' = m)
    ∧ (m' ≤ 0 ∨ canMove e id (testPos isH cur (m' - 1)) = Some false).
Proof.
  intros Hpos. revert m. induction fuel as [|fuel IH]; intros m Hfuel; [lia|].
  simpl. destruct (0 <? m) eqn:Hm.
  - apply Z.ltb_lt in Hm.
    destruct (canMove_spec e id (testPos isH cur (m - 1)) Hpos) as (b & Hb & _).
    rewrite Hb. simpl. destruct b.
    + destruct (IH (m - 1)) as (m' & -> & Hle & Hall & _ & Hmax); [lia|].
      exists m'. split; [done|]. split; [lia|]. split; [|split; [done|done]].
      intros k Hk. destruct (decide (k = m - 1)) as [->|]; [done|].
      apply Hall. lia.
    + exists m. split; [done|]. split; [lia|]. split; [intros; lia|]. auto.
  - apply Z.ltb_ge in Hm. exists m. split; [done|]. split; [lia|].
    split; [intros; lia|]. auto.
Qed.

Lemma slideForward_spec e id isH cur len limit fuel m :
  Positioned (state e) → (Z.to_nat (limit - len - m) < fuel)%nat →
  ∃ m', slideForward fuel e id isH cur len limit m = Some m' ∧ m ≤ m'
    ∧ (∀ k, m < k ≤ m' → canMove e id (testPos isH cur k) = Some true)
    ∧ (canMove e id (testPos isH cur (m + 1)) = Some false → m' = m)
    ∧ (limit ≤ m' + len ∨ canMove e id (testPos isH cur (m' + 1)) = Some false).
Proof.
  intros Hpos. revert m. induction fuel as [|fuel IH]; intros m Hfuel; [lia|].
  simpl. destruct (m + len <? limit) eqn:Hm.
  - apply Z.ltb_lt in Hm.
    destruct (canMove_spec e id (testPos isH cur (m + 1)) Hpos) as (b & Hb & _).
    rewrite Hb. simpl. destruct b.
    + destruct (IH (m + 1)) as (m' & -> & Hle & Hall & _ & Hmax); [lia|].
      exists m'. split; [done|]. split; [lia|]. split; [|split; [done|done]].
      intros k Hk. destruct (decide (k = m + 1)) as [->|]; [done|].
      apply Hall. lia.
    + exists m. split; [done|]. split; [lia|]. split; [intros; lia|]. auto.
  - apply Z.ltb_ge in Hm. exists m. split; [done|]. split; [lia|].
    split; [intros; lia|]. auto.
Qed.

(** C5. For an existing vehicle in a state satisfying the placement
    invariants, [getSlideRange] returns a range [min .. max] around the
    current along-axis coordinate; [canMove] accepts the anchor at every
    coordinate of the range; and the range is the current coordinate alone
    when [canMove] refuses one cell backward and one cell forward. *)
Theorem getSlideRange_reachable (e : GameEngine) (id : string) (v : Vehicle)
    (cur : Position) :
  let isHorizontal := bool_decide (v_orientation v = Horizontal) in
  let currentVal := if isHorizontal then col cur else row cur in
  stateOk (state e) = true →
  getVehicle e id = Some v →
  vehiclePositions (state e) !! id = Some cur →
  ∃ r, getSlideRange e id = Some r
    ∧ sr_min r ≤ currentVal ≤ sr_max r
    ∧ (∀ k, sr_min r ≤ k ≤ sr_max r →
            canMove e id (testPos isHorizontal cur k) = Some true)
    ∧ (canMove e id (testPos isHorizontal cur (currentVal - 1)) = Some false →
       canMove e id (testPos isHorizontal cur (currentVal + 1)) = Some false →
       sr_min r = currentVal ∧ sr_max r = currentVal).
Proof.
  intros isH cv Hinv%stateOk_spec Hg Hcur.
  pose proof (si_positioned _ Hinv) as Hpos.
  destruct (slideBackward_spec e id isH cur (S (Z.to_nat cv)) cv Hpos)
    as (lo & Hlo_eq & Hlo & Hback & Hbox1 & _); [lia|].
  set (limit := if isH then cols (gridSize (puzzle (state e)))
                else rows (gridSize (puzzle (state e)))).
  destruct (slideForward_spec e id isH cur (v_length v) limit
              (S (Z.to_nat (limit - v_length v - cv))) cv Hpos)
    as (hi & Hhi_eq & Hhi & Hfwd & Hbox2 & _); [lia|].
  exists {| sr_min := lo; sr_max := hi |}. split.
  { unfold getSlideRange. rewrite Hg. cbn [mbind option_bind]. rewrite Hcur.
    cbn [mbind option_bind]. fold isH. fold cv. rewrite Hlo_eq.
    cbn [mbind option_bind]. fold limit. by rewrite Hhi_eq. }
  simpl. split; [lia|]. split; [|by auto].
  intros k Hk.
  destruct (Z.lt_trichotomy k cv) as [?|[->|?]]; [apply Hback; lia| |apply Hfwd; lia].
  assert (testPos isH cur cv = cur) as ->.
  { unfold testPos, cv. destruct cur, isH; done. }
  destruct (canMove_spec e id cur Hpos) as (b & -> & Hb).
  f_equal. apply Hb. by eapply legalMove_current.
Qed.

(** ** The completion flag *)

Lemma moveVehicle_complete_mono e id newPos b e' :
  moveVehicle e id newPos = Some (b, e') →
  isComplete (state e) = true → isComplete (state e') = true.
Proof.
  unfold moveVehicle.
  destruct (canMove e id newPos) as [[|]|]; simpl; [|by intros [= _ <-]|done].
  destruct (vehiclePositions (state e) !! id) as [cur|]; simpl; [|done].
  destruct ((row cur =? row newPos) && (col cur =? col newPos));
    [by intros [= _ <-]|].
  destruct (checkWin _) as [[|]|]; simpl; [| |done]; by intros [= _ <-].
Qed.

(** C10. Once the completion flag is true, every [moveVehicle] call leaves
    it true, whatever the move does to the player; a single operation
    brings it back to false exactly when it is [reset]. *)
Theorem completion_flag_sticky (e : GameEngine) :
  isComplete (state e) = true →
  (∀ op e', step e op = Some e' →
            (isComplete (state e') = false ↔ op = OpReset))
  ∧ (∀ ops e', OpReset ∉ ops → run e ops = Some e' →
               isComplete (state e') = true).
Proof.
  intros Hc. split.
  - intros [id newPos|] e' Hstep; simpl in Hstep.
    + destruct (moveVehicle e id newPos) as [[b e1]|] eqn:Hm; [|done].
      injection Hstep as <-.
      rewrite (moveVehicle_complete_mono _ _ _ _ _ Hm Hc). by split.
    + injection Hstep as <-. by split.
  - intros ops. revert e Hc.
    induction ops as [|op ops IH]; intros e Hc e' Hno; simpl; [by intros [= <-]|].
    apply not_elem_of_cons in Hno as [Hop Hno].
    destruct op as [id newPos|]; [|done]. simpl.
    destruct (moveVehicle e id newPos) as [[b e1]|] eqn:Hm; [|done]. simpl.
    apply IH; [|done]. by eapply moveVehicle_complete_mono.
Qed.

(** ** Replay validation *)

Lemma moveVehicle_positioned e id newPos b e' :
  Positioned (state e) → moveVehicle e id newPos = Some (b, e') →
  Positioned (state e').
Proof.
  intros Hpos Hm.
  destruct (moveVehicle_cases e id newPos Hpos) as [[Heq _]|(won & _ & _ & _ & Heq)];
    rewrite Heq in Hm; injection Hm as <- <-; [done|].
  intros w Hw. destruct won; simpl in *;
    apply lookup_insert_is_Some'; right; by apply Hpos.
Qed.

Lemma initState_positioned p : Positioned (initState p).
Proof.
  intros v Hv. unfold initState. simpl.
  apply (foldl_insert_is_Some v_id templatePos).
  apply elem_of_cons in Hv as [->|Hv]; [right|left; eauto].
  apply lookup_insert_is_Some'. by left.
Qed.

Lemma replay_spec e ms i :
  Positioned (state e) →
  (∃ e', replay e ms i = Some (None, e') ∧ Applies e ms e')
  ∨ (∃ pre m post e',
       ms = pre ++ m :: post ∧ Applies e pre e'
       ∧ moveVehicle e' (vehicleId m) (target m) = Some (false, e')
       ∧ replay e ms i = Some (Some (i + Z.of_nat (length pre)), e')).
Proof.
  revert e i. induction ms as [|m ms IH]; intros e i Hpos; simpl.
  { left. exists e. split; [done|constructor]. }
  fold (target m).
  destruct (moveVehicle_cases e (vehicleId m) (target m) Hpos)
    as [[Heq _]|(won & _ & _ & _ & Heq)]; rewrite Heq; simpl.
  - right. exists [], m, ms, e. repeat split; [constructor|done|].
    simpl. do 3 f_equal. lia.
  - set (e1 := notify _) in *.
    destruct (IH e1 (i + 1)) as [(e' & Hr & Ha)|(pre & m' & post & e' & -> & Ha & Hf & Hr)].
    { eapply moveVehicle_positioned; eauto. }
    + left. exists e'. split; [done|]. econstructor; eauto.
    + right. exists (m :: pre), m', post, e'. repeat split; auto.
      * econstructor; eauto.
      * rewrite Hr. simpl. do 3 f_equal. lia.
Qed.

Lemma Applies_replay e ms e' i :
  Applies e ms e' → replay e ms i = Some (None, e').
Proof.
  intros Ha. revert i. induction Ha as [|e m ms e1 e2 Hm _ IH]; intros i; [done|].
  simpl. fold (target m). rewrite Hm. simpl. apply IH.
Qed.

Lemma Applies_replay_invalid e pre m post e' i :
  Applies e pre e' →
  moveVehicle e' (vehicleId m) (target m) = Some (false, e') →
  replay e (pre ++ m :: post) i = Some (Some (i + Z.of_nat (length pre)), e').
Proof.
  intros Ha Hf. revert i. induction Ha as [|e m0 ms e1 e2 Hm _ IH]; intros i.
  - simpl. fold (target m). rewrite Hf. simpl. do 3 f_equal. lia.
  - simpl. fold (target m0). rewrite Hm. simpl. rewrite IH by done.
    do 3 f_equal. lia.
Qed.

Lemma moveVehicle_applied e m e' :
  moveVehicle e (vehicleId m) (target m) = Some (true, e') →
  moveHistory e' = moveHistory e ++ [m]
  ∧ moveCount (state e') = moveCount (state e) + 1.
Proof.
  unfold moveVehicle.
  destruct (canMove _ _ _) as [[|]|]; simpl; [|done..].
  destruct (vehiclePositions (state e) !! vehicleId m) as [cur|]; simpl; [|done].
  destruct ((row cur =? _) && _); [done|].
  destruct (checkWin _) as [[|]|]; simpl; [| |done];
    intros [= <-]; by destruct m.
Qed.

Lemma moveVehicle_puzzle e id newPos b e' :
  moveVehicle e id newPos = Some (b, e') → puzzle (state e') = puzzle (state e).
Proof.
  unfold moveVehicle.
  destruct (canMove _ _ _) as [[|]|]; simpl; [|by intros [= _ <-]|done].
  destruct (vehiclePositions (state e) !! id) as [cur|]; simpl; [|done].
  destruct ((row cur =? _) && _); [by intros [= _ <-]|].
  destruct (checkWin _) as [[|]|]; simpl; [| |done]; by intros [= _ <-].
Qed.

(** A replay leaves the template as it was. *)
Lemma Applies_puzzle e ms e' :
  Applies e ms e' → puzzle (state e') = puzzle (state e).
Proof.
  induction 1 as [|e m ms e1 e2 Hm _ IH]; [done|].
  rewrite IH. by eapply moveVehicle_puzzle.
Qed.

Lemma Applies_history e ms e' :
  Applies e ms e' →
  moveHistory e' = moveHistory e ++ ms
  ∧ moveCount (state e') = moveCount (state e) + Z.of_nat (length ms).
Proof.
  induction 1 as [|e m ms e1 e2 Hm _ [IH1 IH2]]; simpl.
  - rewrite app_nil_r. split; [done|lia].
  - apply moveVehicle_applied in Hm as [H1 H2].
    rewrite IH1, IH2, H1, H2, <-app_assoc. simpl. split; [done|lia].
Qed.

Lemma Replays_validatePuzzle p v :
  Replays p v → validatePuzzle p = Some (resultOf v).
Proof.
  unfold validatePuzzle.
  destruct 1 as [[->| ->]|pre m post e -> Ha Hf|ms e -> Hne Ha Hc|ms e -> Hne Ha Hc];
    try done.
  - rewrite (Applies_replay_invalid _ _ _ post _ 0 Ha Hf).
    destruct pre; simpl; by rewrite ?Z.add_0_l.
  - rewrite (Applies_replay _ _ _ 0 Ha). destruct ms; [done|]. simpl.
    unfold getState. by rewrite Hc.
  - rewrite (Applies_replay _ _ _ 0 Ha). destruct ms; [done|]. simpl.
    unfold getState. by rewrite Hc.
Qed.

Lemma Replays_total p : ∃ v, Replays p v.
Proof.
  destruct (validation p) as [[|m ms]|] eqn:Hv.
  - exists NoTrace. constructor. by right.
  - destruct (replay_spec (newEngine p) (m :: ms) 0 (initState_positioned p))
      as [(e' & _ & Ha)|(pre & m' & post & e' & Heq & Ha & Hf & _)].
    + destruct (isComplete (state e')) eqn:Hc.
      * eexists. by eapply replays_solved.
      * eexists. by eapply replays_not_winning.
    + rewrite Heq in Hv. eexists. by eapply replays_invalid.
  - exists NoTrace. constructor. by left.
Qed.

#[global] Instance resultOf_inj : Inj (=) (=) resultOf.
Proof.
  intros [|i| |n] [|j| |m] Heq; by simplify_eq/=.
Qed.

(** C3. [validatePuzzle] returns for every template, and its result is that
    of exactly one of four verdicts: no trace (absent or empty); the 1-based
    index of the first move that [moveVehicle] refuses, the moves before it
    having been applied; every move applied but the completion flag false;
    every move applied and the flag true, with par the length of the trace.
    When a move is refused the replay loop stops there: the engine it leaves
    has applied the moves before the refused one and no other. The result
    is a function of the template, and a replay leaves the template as it
    was, so repeated calls give the same result. *)
Theorem validatePuzzle_outcome (p : Puzzle) :
  (∃ v, Replays p v ∧ (∀ v', Replays p v' → v' = v)
        ∧ validatePuzzle p = Some (resultOf v))
  ∧ (∀ pre m post e,
       validation p = Some (pre ++ m :: post) →
       Applies (newEngine p) pre e →
       moveVehicle e (vehicleId m) (target m) = Some (false, e) →
       replay (newEngine p) (pre ++ m :: post) 0
         = Some (Some (Z.of_nat (length pre)), e)
       ∧ moveHistory e = pre
       ∧ moveCount (state e) = Z.of_nat (length pre))
  ∧ (∀ ms e, Applies (newEngine p) ms e → puzzle (state e) = p).
Proof.
  split; [|split; [|intros ms e Ha; by apply Applies_puzzle in Ha]].
  - destruct (Replays_total p) as [v Hv]. exists v. split; [done|].
    split; [|by apply Replays_validatePuzzle].
    intros v' Hv'. apply (inj resultOf).
    apply Replays_validatePuzzle in Hv, Hv'. congruence.
  - intros pre m post e _ Ha Hf.
    rewrite (Applies_replay_invalid _ _ _ post _ 0 Ha Hf), Z.add_0_l.
    split; [done|]. by apply Applies_history in Ha as [-> ->].
Qed.

(** ** Identities assigned by hydration *)

(** Case analysis on a number below ten. *)
Ltac small_N k :=
  destruct k as [|[[[[?|?|]|[?|?|]|]|[[?|?|]|[?|?|]|]|]
                  |[[[?|?|]|[?|?|]|]|[[?|?|]|[?|?|]|]|]|]];
  try lia; try done.

Lemma digitValue_pretty_N_char k :
  (k < 10)%N → digitValue 10 (pretty_N_char k) = Some k.
Proof. intros Hk. small_N k. Qed.

Lemma parseDigits_pretty_N_go x :
  (0 < x)%N →
  ∃ pw, ∀ acc s,
    parseDigits 10 acc (pretty_N_go x s)
    = parseDigits 10 (Some (pw * default 0%N acc + x)%N) s.
Proof.
  induction (N.lt_wf_0 x) as [x _ IH]. intros Hx.
  destruct (decide (x `div` 10 = 0)%N) as [Hd|Hd].
  - exists 10%N. intros acc s.
    rewrite pretty_N_go_step, Hd, pretty_N_go_0 by done. simpl.
    rewrite digitValue_pretty_N_char by (by apply N.mod_lt).
    do 2 f_equal. rewrite N.mod_small; [done|].
    apply N.div_small_iff in Hd; [done|lia].
  - destruct (IH (x `div` 10)%N) as [pw Hpw]; [by apply N.div_lt|by apply N.neq_0_lt_0|].
    exists (10 * pw)%N. intros acc s.
    rewrite pretty_N_go_step, Hpw by done. simpl.
    rewrite digitValue_pretty_N_char by (by apply N.mod_lt).
    do 2 f_equal. simpl.
    pose proof (N.div_mod x 10). lia.
Qed.

(** A positive number prints with a leading digit from 1 to 9. *)
Lemma pretty_N_go_head x s :
  (0 < x)%N →
  ∃ k t, (0 < k < 10)%N ∧ pretty_N_go x s = String (pretty_N_char k) t.
Proof.
  revert s. induction (N.lt_wf_0 x) as [x _ IH]. intros s Hx.
  rewrite pretty_N_go_step by done.
  destruct (decide (x `div` 10 = 0)%N) as [Hd|Hd].
  - rewrite Hd, pretty_N_go_0. exists (x `mod` 10)%N, s. split; [|done].
    apply N.div_small_iff in Hd; [|lia]. rewrite N.mod_small by done. lia.
  - apply IH; [by apply N.div_lt|by apply N.neq_0_lt_0].
Qed.

Lemma parseInt_pretty (n : nat) : parseInt (pretty n) = Some (Z.of_nat n).
Proof.
  unfold pretty, pretty_nat, pretty, pretty_N.
  case_decide as Hn; [by replace n with 0%nat by lia|].
  assert (0 < N.of_nat n)%N as Hpos by lia.
  destruct (pretty_N_go_head (N.of_nat n) "" Hpos) as (k & t & Hk & Hhead).
  destruct (parseDigits_pretty_N_go (N.of_nat n) Hpos) as [pw Hpw].
  specialize (Hpw None ""). rewrite Hhead in Hpw.
  assert (parseInt (String (pretty_N_char k) t)
          = n ← parseDigits 10 None (String (pretty_N_char k) t); Some (Z.of_N n))
    as Hparse.
  { destruct Hk as [Hk0 Hk10]. small_N k. }
  rewrite Hhead, Hparse, Hpw. simpl. f_equal. lia.
Qed.

Lemma substring_all s : String.substring 0 (String.length s) s = s.
Proof. induction s as [|c s IH]; simpl; [done|]. by rewrite IH. Qed.

Lemma replaceFirst_vehicle_prefix s :
  replaceFirst "vehicle-" "" ("vehicle-" +:+ s) = s.
Proof.
  destruct s as [|c s]; [done|].
  unfold replaceFirst. simpl. by rewrite substring_all.
Qed.

Lemma vehicleByMoveId_hydrated vs (k : nat) :
  vehicleByMoveId vs ("vehicle-" +:+ pretty k) = vs !! k.
Proof.
  unfold vehicleByMoveId.
  rewrite replaceFirst_vehicle_prefix, parseInt_pretty. simpl.
  destruct (Z.ltb_spec (Z.of_nat k) 0) as [?|_]; [lia|]. by rewrite Nat2Z.id.
Qed.

Lemma hydrateVehicles_ids i s vs :
  v_id <$> hydrateVehicles i s vs
  = (λ k : nat, "vehicle-" +:+ pretty k) <$> seq i (length vs).
Proof.
  revert i s. induction vs as [|v vs IH]; intros i s; simpl; [done|].
  destruct (match rv_color v with Some c => (c, s) | None => nextColor s end)
    as [color s'].
  simpl. by rewrite IH.
Qed.

(** Hydration assigns pairwise distinct identities. *)
Lemma hydratePuzzle_distinctIds raw id p :
  hydratePuzzle raw id = Some p → distinctIds p.
Proof.
  unfold hydratePuzzle.
  destruct (deduceExitDirection _ _) as [d|]; simpl; [|done]. intros [= <-].
  unfold distinctIds, allVehicles. simpl.
  rewrite hydrateVehicles_ids. apply NoDup_cons. split.
  - intros (k & Hk & _)%list_elem_of_fmap. discriminate Hk.
  - apply NoDup_fmap_2; [|apply NoDup_seq].
    intros j k Hjk. by simplify_eq/=.
Qed.

(** The identities hydration assigns are distinct, so the invariants are
    preserved on every hydrated template whose placement satisfies them. *)
Corollary hydrated_templates_keep_invariants raw id p ops :
  hydratePuzzle raw id = Some p → templateOk p = true →
  ∃ e, run (newEngine p) ops = Some e
    ∧ puzzle (state e) = p ∧ stateOk (state e) = true.
Proof.
  intros Hh Hok.
  destruct (run_inv p ops (newEngine p)) as (e & He & Hp & Hinv);
    [by eapply hydratePuzzle_distinctIds|done|done| |].
  - apply initState_inv; [by eapply hydratePuzzle_distinctIds|done].
  - exists e. by rewrite stateOk_spec.
Qed.

(** ** The exit at hydration *)

(** For an exit inside the grid, [deduceExitDirection] throws exactly when
    the exit is not on the periphery, and follows the rule otherwise. *)
Lemma deduceExitDirection_in_grid gs pos :
  0 ≤ row pos < rows gs → 0 ≤ col pos < cols gs →
  (onPeriphery gs pos →
   deduceExitDirection pos gs = Some (peripheryDirection gs pos))
  ∧ (¬ onPeriphery gs pos → deduceExitDirection pos gs = None).
Proof.
  intros Hr Hc. unfold onPeriphery, deduceExitDirection, peripheryDirection.
  split; intros Hper;
    repeat case_decide;
    repeat match goal with
           | |- context [(?a <=? ?b)] => destruct (Z.leb_spec a b)
           end;
    try done; try lia; try (exfalso; apply Hper; lia).
Qed.

(** [deduceExitDirection] throws exactly for cells strictly inside the
    edges; every other position, in the grid or not, gets a direction. *)
Lemma deduceExitDirection_None gs pos :
  deduceExitDirection pos gs = None
  ↔ 0 < col pos < cols gs - 1 ∧ 0 < row pos < rows gs - 1.
Proof.
  unfold deduceExitDirection.
  repeat match goal with
         | |- context [(?a <=? ?b)] => destruct (Z.leb_spec a b)
         end; split; try done; lia.
Qed.

Lemma hydratePuzzle_exit raw id :
  match deduceExitDirection (r_exit raw) (r_gridSize raw) with
  | Some d => ∃ p, hydratePuzzle raw id = Some p ∧ direction (exit p) = d
                ∧ e_row (exit p) = row (r_exit raw)
                ∧ e_col (exit p) = col (r_exit raw)
  | None => hydratePuzzle raw id = None
  end.
Proof.
  unfold hydratePuzzle. destruct (deduceExitDirection _ _); simpl; eauto.
Qed.

(** ** Rotation *)

Lemma elem_of_vehicleCells v pos c :
  c ∈ vehicleCells v pos ↔ ∃ i, 0 ≤ i < v_length v ∧ c = cellAt v pos i.
Proof.
  unfold vehicleCells. rewrite list_elem_of_fmap.
  setoid_rewrite elem_of_seqZ. split; intros (i & H1 & H2); exists i; split; auto; lia.
Qed.

Lemma rotateVehicle_Rotated R v : Rotated R v (rotateVehicle R v).
Proof.
  destruct v as [r c l o]. split; [by destruct o..|].
  intros [x y]. unfold placementCells. rewrite elem_of_vehicleCells.
  setoid_rewrite elem_of_vehicleCells.
  destruct o; unfold rotateVehicle, rotatePos, cellAt, image; simpl; split.
  - intros (i & Hi & [= -> ->]). eexists (_, _). split; [exists i; eauto|].
    simpl. done.
  - intros ([x0 y0] & (i & Hi & [= -> ->]) & [= -> ->]). exists i. simpl. eauto.
  - intros (i & Hi & [= -> ->]). eexists (_, _).
    split; [exists (l - 1 - i); split; [lia|reflexivity]|]. simpl. f_equal. lia.
  - intros ([x0 y0] & (i & Hi & [= -> ->]) & [= -> ->]). exists (l - 1 - i).
    simpl. split; [lia|]. f_equal. lia.
Qed.

Lemma rotateVehicle4 R C v :
  rotateVehicle C (rotateVehicle R (rotateVehicle C (rotateVehicle R v))) = v.
Proof.
  destruct v as [r c l []]; unfold rotateVehicle, rotatePos; simpl; f_equal; lia.
Qed.

Lemma vehicleByMoveId_fmap (f : RawVehicle → RawVehicle) vs id :
  vehicleByMoveId (f <$> vs) id = f <$> vehicleByMoveId vs id.
Proof.
  unfold vehicleByMoveId. destruct (parseInt _) as [idx|]; simpl; [|done].
  destruct (idx <? 0); [done|]. by rewrite list_lookup_fmap.
Qed.

Lemma entityOf_rotate raw id :
  entityOf (rotatePuzzle90CW raw) id
  = rotateVehicle (rows (r_gridSize raw)) <$> entityOf raw id.
Proof.
  unfold entityOf. case_decide; [done|]. simpl.
  rewrite vehicleByMoveId_fmap.
  by destruct (vehicleByMoveId _ _) as [[? ? ? [] ? ?]|].
Qed.

(** [rotateMove] in terms of the entity looked up: the defaults of the
    source ([horizontal], length 2) apply when there is none. *)
Lemma rotateMove_entity raw m :
  rotateMove raw m
  = let ent := default {| pl_row := 0; pl_col := 0; pl_length := 2;
                          pl_orientation := Horizontal |}
                       (entityOf raw (vehicleId m)) in
    let rv := rotateVehicle (rows (r_gridSize raw))
                {| pl_row := m_row m; pl_col := m_col m;
                   pl_length := pl_length ent;
                   pl_orientation := pl_orientation ent |} in
    {| vehicleId := vehicleId m; m_row := pl_row rv; m_col := pl_col rv |}.
Proof.
  unfold rotateMove, entityOf. case_decide; [done|].
  by destruct (vehicleByMoveId _ _).
Qed.

Lemma rotateMove4 raw m :
  let r1 := rotatePuzzle90CW raw in
  let r2 := rotatePuzzle90CW r1 in
  let r3 := rotatePuzzle90CW r2 in
  rotateMove r3 (rotateMove r2 (rotateMove r1 (rotateMove raw m))) = m.
Proof.
  intros r1 r2 r3. rewrite !rotateMove_entity. simpl.
  unfold r3, r2, r1. rewrite !entityOf_rotate.
  destruct m as [id r c]. simpl.
  destruct (entityOf raw id) as [[er ec el []]|]; simpl;
    unfold rotateVehicle, rotatePos; simpl; f_equal; lia.
Qed.

Lemma RawPuzzle_eq a b :
  r_name a = r_name b → r_difficulty a = r_difficulty b →
  r_gridSize a = r_gridSize b → r_exit a = r_exit b →
  r_playerCar a = r_playerCar b → r_vehicles a = r_vehicles b →
  r_obstacles a = r_obstacles b → r_validation a = r_validation b → a = b.
Proof. destruct a, b; simpl; by intros -> -> -> -> -> -> -> ->. Qed.

Lemma rotate_validation raw :
  r_validation (rotatePuzzle90CW raw)
  = fmap (M:=list) (rotateMove raw) <$> r_validation raw.
Proof. done. Qed.

(** C2. Rotating a puzzle definition four times gives it back: grid size,
    exit cell, player car, every vehicle (anchor, orientation, length,
    color, type), every obstacle and the validation trace, move for
    move. *)
Theorem rotatePuzzle90CW_four_times (raw : RawPuzzle) :
  rotatePuzzle90CW (rotatePuzzle90CW (rotatePuzzle90CW (rotatePuzzle90CW raw))) = raw.
Proof.
  apply RawPuzzle_eq.
  - done.
  - done.
  - by destruct raw as [? ? [R C] ? ? ? ? ?].
  - destruct raw as [? ? [R C] [er ec] ? ? ? ?]. simpl.
    unfold rotatePos. simpl. f_equal; lia.
  - destruct raw as [? ? [R C] ? pc ? ? ?]. simpl. apply rotateVehicle4.
  - destruct raw as [? ? [R C] ? ? vs ? ?]. simpl.
    rewrite <-!list_fmap_compose. rewrite <-(list_fmap_id vs) at 2.
    apply list_fmap_ext. intros _ [r c l [] ty co] _; simpl;
      unfold rotateVehicle, rotatePos; simpl; f_equal; lia.
  - destruct raw as [? ? [R C] ? ? ? os ?]. simpl.
    rewrite <-!list_fmap_compose. rewrite <-(list_fmap_id os) at 2.
    apply list_fmap_ext. intros _ [r c ty] _; simpl;
      unfold rotatePos; simpl; f_equal; lia.
  - rewrite !rotate_validation.
    destruct (r_validation raw) as [ms|]; simpl; [|done]. f_equal.
    rewrite <-!list_fmap_compose. rewrite <-(list_fmap_id ms) at 2.
    apply list_fmap_ext. intros _ m _. apply (rotateMove4 raw m).
Qed.

Lemma Names_entityOf raw id ent : Names raw id ent → entityOf raw id = Some ent.
Proof.
  unfold entityOf. intros [->| k v -> Hk].
  - by rewrite decide_True.
  - rewrite decide_False by done. by rewrite vehicleByMoveId_hydrated, Hk.
Qed.

(** C7. [rotatePuzzle90CW] maps the cells of the player car and of every
    vehicle through (r, c) ↦ (c, R − 1 − r), with R the original row count:
    the orientation flips, the length is kept, the new anchor is the image
    of the anchor of a horizontal vehicle and of the bottom cell of a
    vertical one (color and type are kept); and every waypoint of the
    validation trace is moved by the same anchor rule, with the original
    orientation and length of the entity its identity names. *)
Theorem rotatePuzzle90CW_cells (raw : RawPuzzle) :
  let R := rows (r_gridSize raw) in
  let raw' := rotatePuzzle90CW raw in
  Rotated R (r_playerCar raw) (r_playerCar raw')
  ∧ length (r_vehicles raw') = length (r_vehicles raw)
  ∧ (∀ i v, r_vehicles raw !! i = Some v →
       ∃ v', r_vehicles raw' !! i = Some v'
         ∧ Rotated R (placementOf v) (placementOf v')
         ∧ rv_color v' = rv_color v ∧ rv_type v' = rv_type v)
  ∧ (∀ ms, r_validation raw = Some ms →
       ∃ ms', r_validation raw' = Some ms' ∧ length ms' = length ms
         ∧ ∀ i m ent, ms !! i = Some m → Names raw (vehicleId m) ent →
             ∃ m', ms' !! i = Some m' ∧ vehicleId m' = vehicleId m
               ∧ (m_row m', m_col m')
                 = anchorRule R (pl_orientation ent) (pl_length ent)
                              (m_row m, m_col m)).
Proof.
  intros R raw'. split; [apply rotateVehicle_Rotated|].
  split; [apply length_fmap|]. split.
  - intros i v Hi. eexists. split.
    { unfold raw'. simpl. rewrite list_lookup_fmap, Hi. reflexivity. }
    split; [|done].
    pose proof (rotateVehicle_Rotated R (placementOf v)) as Hrot.
    unfold R in *. unfold placementOf at 2. simpl.
    by destruct (rotateVehicle _ (placementOf v)).
  - intros ms Hms. exists (rotateMove raw <$> ms). split.
    { unfold raw'. by rewrite rotate_validation, Hms. }
    split; [apply length_fmap|].
    intros i m ent Hi Hn. exists (rotateMove raw m).
    split; [by rewrite list_lookup_fmap, Hi|].
    rewrite rotateMove_entity, (Names_entityOf _ _ _ Hn). simpl.
    split; [done|]. fold R. by destruct (pl_orientation ent).
Qed.

(** * Scenarios (spec section 8) *)

Example hydrate_tutorial : hydratePuzzle rawTutorial "tutorial" = Some tutorial.
Proof. vm_compute. reflexivity. Qed.

Example hydrate_blocked : hydratePuzzle rawBlocked "blocked" = Some blocked.
Proof. vm_compute. reflexivity. Qed.

(** Scenario 1: the single move wins, and the validator reports par 1. *)
Example tutorial_move :
  ∃ e, moveVehicle (newEngine tutorial) "player" {| row := 1; col := 1 |}
       = Some (true, e)
    ∧ isComplete (state e) = true ∧ moveCount (state e) = 1.
Proof. eexists. split; [vm_compute; reflexivity|]. by vm_compute. Qed.

Example tutorial_valid :
  validatePuzzle tutorial
  = Some {| isValid := true; par := Some 1; error := None |}.
Proof. vm_compute. reflexivity. Qed.

(** Scenario 2: the player is blocked until the blocker slides down. *)
Example blocked_player_cannot_move :
  canMove (newEngine blocked) "player" {| row := 1; col := 2 |} = Some false.
Proof. vm_compute. reflexivity. Qed.

Example blocked_valid :
  validatePuzzle blocked
  = Some {| isValid := true; par := Some 2; error := None |}.
Proof. vm_compute. reflexivity. Qed.

Example blocked_slide_ranges :
  getSlideRange (newEngine blocked) "player" = Some {| sr_min := 0; sr_max := 0 |}
  ∧ getSlideRange (newEngine blocked) "vehicle-0"
    = Some {| sr_min := 0; sr_max := 2 |}.
Proof. split; vm_compute; reflexivity. Qed.

(** Scenario 3: the second move of the trace leaves the grid. *)
Example out_of_bounds_step_2 :
  validatePuzzle
    (withValidation [{| vehicleId := "vehicle-0"; m_row := 2; m_col := 2 |};
                     {| vehicleId := "player"; m_row := 1; m_col := 3 |}] blocked)
  = Some {| isValid := false; par := None;
            error := Some "Invalid move at step 2" |}.
Proof. vm_compute. reflexivity. Qed.

(** A trace that applies but does not win, and an absent trace. *)
Example not_winning :
  validatePuzzle
    (withValidation [{| vehicleId := "vehicle-0"; m_row := 2; m_col := 2 |}] blocked)
  = Some {| isValid := false; par := None;
            error := Some "Validation does not reach win state" |}.
Proof. vm_compute. reflexivity. Qed.

Example no_trace :
  validatePuzzle (withValidation [] blocked)
  = Some {| isValid := false; par := None; error := Some "No validation provided" |}.
Proof. vm_compute. reflexivity. Qed.

(** The rotated blocked puzzle: the vertical blocker becomes horizontal,
    anchored at the image of its bottom cell. *)
Example rotate_blocked :
  r_vehicles (rotatePuzzle90CW rawBlocked) = [rawVehicle 2 2 2 Horizontal]
  ∧ r_playerCar (rotatePuzzle90CW rawBlocked)
    = {| pl_row := 0; pl_col := 2; pl_length := 2; pl_orientation := Vertical |}
  ∧ r_exit (rotatePuzzle90CW rawBlocked) = {| row := 3; col := 2 |}
  ∧ r_validation (rotatePuzzle90CW rawBlocked)
    = Some [{| vehicleId := "vehicle-0"; m_row := 2; m_col := 0 |};
            {| vehicleId := "player"; m_row := 2; m_col := 2 |}].
Proof. repeat split; vm_compute; reflexivity. Qed.

(** The rotated puzzle is still solved by its rotated trace. *)
Example rotate_blocked_valid :
  (hydratePuzzle (rotatePuzzle90CW rawBlocked) "rotated" ≫= validatePuzzle)
  = Some {| isValid := true; par := Some 2; error := None |}.
Proof. vm_compute. reflexivity. Qed.

(** * Instances of the theorems *)

Lemma distinctIds_blocked : distinctIds blocked.
Proof. apply (hydratePuzzle_distinctIds rawBlocked "blocked"). vm_compute. reflexivity. Defined.

Lemma invariants_preserved_witness :
  distinctIds blocked ∧ templateOk blocked = true
  ∧ ∃ e, run (newEngine blocked) blockedSession = Some e
      ∧ puzzle (state e) = blocked ∧ stateOk (state e) = true.
Proof.
  split; [exact distinctIds_blocked|]. split; [vm_compute; reflexivity|].
  apply (invariants_preserved blocked blockedSession).
  - exact distinctIds_blocked.
  - vm_compute. reflexivity.
Defined.

Lemma checkWin_leading_edge_witness :
  vehiclePositions (state (newEngine tutorial)) !! "player"
    = Some {| row := 1; col := 0 |}
  ∧ ∃ b, checkWin (newEngine tutorial) = Some b ∧ b = false.
Proof.
  split; [vm_compute; reflexivity|].
  destruct (checkWin_leading_edge (newEngine tutorial) {| row := 1; col := 0 |})
    as (b & Hb & _ & Hright & _); [vm_compute; reflexivity|].
  exists b. split; [exact Hb|].
  destruct b; [|reflexivity].
  destruct (proj1 (Hright eq_refl eq_refl) eq_refl) as [_ Hcol].
  vm_compute in Hcol. discriminate Hcol.
Defined.

Lemma getSlideRange_reachable_witness :
  stateOk (state (newEngine blocked)) = true
  ∧ getVehicle (newEngine blocked) "vehicle-0"
    = Some {| v_id := "vehicle-0"; v_row := 0; v_col := 2; v_length := 2;
              v_orientation := Vertical; v_type := None; v_color := Some Blue |}
  ∧ vehiclePositions (state (newEngine blocked)) !! "vehicle-0"
    = Some {| row := 0; col := 2 |}
  ∧ ∃ r, getSlideRange (newEngine blocked) "vehicle-0" = Some r
      ∧ canMove (newEngine blocked) "vehicle-0" {| row := sr_max r; col := 2 |}
        = Some true.
Proof.
  split; [vm_compute; reflexivity|]. split; [vm_compute; reflexivity|].
  split; [vm_compute; reflexivity|].
  destruct (getSlideRange_reachable (newEngine blocked) "vehicle-0"
              {| v_id := "vehicle-0"; v_row := 0; v_col := 2; v_length := 2;
                 v_orientation := Vertical; v_type := None; v_color := Some Blue |}
              {| row := 0; col := 2 |})
    as (r & Hr & Hbounds & Hall & _);
    [vm_compute; reflexivity..|].
  exists r. split; [exact Hr|].
  apply (Hall (sr_max r)). simpl in Hbounds. lia.
Defined.

Lemma canMove_noop_accepted_witness :
  stateOk (state (newEngine tutorial)) = true
  ∧ getVehicle (newEngine tutorial) "player" = Some (playerCar tutorial)
  ∧ vehiclePositions (state (newEngine tutorial)) !! "player"
    = Some {| row := 1; col := 0 |}
  ∧ canMove (newEngine tutorial) "player" {| row := 1; col := 0 |} = Some true
  ∧ moveVehicle (newEngine tutorial) "player" {| row := 1; col := 0 |}
    = Some (false, newEngine tutorial).
Proof.
  split; [vm_compute; reflexivity|]. split; [vm_compute; reflexivity|].
  split; [vm_compute; reflexivity|].
  apply (canMove_noop_accepted (newEngine tutorial) "player" (playerCar tutorial));
    vm_compute; reflexivity.
Defined.

(** C9 as stated fails: on the fresh tutorial engine the player exists and
    [canMove] accepts its current position as a target. *)
Lemma canMove_noop_counterexample :
  ¬ (∀ (e : GameEngine) (id : string) (v : Vehicle) (cur : Position),
       getVehicle e id = Some v →
       vehiclePositions (state e) !! id = Some cur →
       canMove e id cur = Some false).
Proof.
  intros H.
  specialize (H (newEngine tutorial) "player" (playerCar tutorial)
                {| row := 1; col := 0 |}).
  assert (canMove (newEngine tutorial) "player" {| row := 1; col := 0 |}
          = Some true) as Htrue by (vm_compute; reflexivity).
  rewrite H in Htrue; [discriminate Htrue|vm_compute; reflexivity..].
Qed.

(** After the win the player slides back off the exit: the move is applied,
    the win predicate is false there, and the flag is still true. *)
Lemma completion_flag_sticky_witness :
  isComplete (state tutorialWon) = true
  ∧ ∃ e, run tutorialWon [OpMove "player" {| row := 1; col := 0 |}] = Some e
      ∧ vehiclePositions (state e) !! "player" = Some {| row := 1; col := 0 |}
      ∧ checkWin e = Some false
      ∧ isComplete (state e) = true.
Proof.
  split; [vm_compute; reflexivity|].
  destruct (run tutorialWon [OpMove "player" {| row := 1; col := 0 |}])
    as [e|] eqn:Hrun; [|vm_compute in Hrun; discriminate Hrun].
  exists e. split; [reflexivity|].
  split; [|split].
  - vm_compute in Hrun. injection Hrun as <-. vm_compute. reflexivity.
  - vm_compute in Hrun. injection Hrun as <-. vm_compute. reflexivity.
  - apply (proj2 (completion_flag_sticky tutorialWon eq_refl)
                 [OpMove "player" {| row := 1; col := 0 |}] e);
      [|exact Hrun].
    intros Hin. apply list_elem_of_singleton in Hin. discriminate Hin.
Defined.

(** A refused move and a no-op on the blocked puzzle leave the engine, with
    its listener, as it was; an applied move notifies the listener once. *)
Example rejected_moves_blocked :
  let e := subscribe 7 (newEngine blocked) in
  moveVehicle e "player" {| row := 1; col := 2 |} = Some (false, e)
  ∧ moveVehicle e "player" {| row := 1; col := 0 |} = Some (false, e)
  ∧ moveVehicle e "player" {| row := 2; col := 0 |} = Some (false, e)
  ∧ moveVehicle e "nobody" {| row := 0; col := 0 |} = Some (false, e)
  ∧ ∃ e', moveVehicle e "vehicle-0" {| row := 2; col := 2 |} = Some (true, e')
       ∧ delivered e' = [(7%nat, state e')] ∧ moveCount (state e') = 1.
Proof.
  repeat split; try (vm_compute; reflexivity).
  eexists. split; [vm_compute; reflexivity|]. split; vm_compute; reflexivity.
Qed.

(** C8, at an exit outside the grid. On a 3×3 grid the position (1,5) is
    not a cell of the periphery, yet hydration does not throw: it yields a
    template with the exit at (1,5) and direction right. *)
Theorem hydratePuzzle_exit_off_grid :
  ¬ onPeriphery (r_gridSize rawOffGrid) (r_exit rawOffGrid)
  ∧ ∃ p, hydratePuzzle rawOffGrid "off-grid" = Some p
      ∧ exit p = {| e_row := 1; e_col := 5; direction := Right |}.
Proof.
  split.
  - unfold onPeriphery. simpl. lia.
  - eexists. split; vm_compute; reflexivity.
Qed.

(** * Further properties of the engine *)

Lemma run_positioned e ops :
  Positioned (state e) →
  ∃ e', run e ops = Some e' ∧ puzzle (state e') = puzzle (state e)
    ∧ Positioned (state e').
Proof.
  revert e. induction ops as [|op ops IH]; intros e Hpos; simpl; [by eauto|].
  destruct op as [id newPos|]; simpl.
  - destruct (moveVehicle e id newPos) as [[b e1]|] eqn:Hm.
    + simpl. destruct (IH e1) as (e' & -> & Hp & Hpos');
        [by eapply moveVehicle_positioned|].
      exists e'. split; [done|]. split; [|done].
      rewrite Hp. by eapply moveVehicle_puzzle.
    + destruct (moveVehicle_cases e id newPos Hpos)
        as [[Heq _]|(won & _ & _ & _ & Heq)]; congruence.
  - destruct (IH (reset e)) as (e' & -> & Hp & Hpos');
      [apply initState_positioned|]. by exists e'.
Qed.

Lemma reached_positioned p ops e :
  run (newEngine p) ops = Some e → puzzle (state e) = p ∧ Positioned (state e).
Proof.
  intros Hrun.
  destruct (run_positioned (newEngine p) ops (initState_positioned p))
    as (e' & He' & Hp & Hpos). by simplify_eq.
Qed.

Lemma checkWin_ext e1 e2 :
  puzzle (state e1) = puzzle (state e2) →
  vehiclePositions (state e1) = vehiclePositions (state e2) →
  checkWin e1 = checkWin e2.
Proof. unfold checkWin. by intros -> ->. Qed.

Lemma canMove_state e1 e2 id newPos :
  state e1 = state e2 → canMove e1 id newPos = canMove e2 id newPos.
Proof. unfold canMove, getVehicle, getOccupiedCells. by intros ->. Qed.

(** X1. On every engine a session reaches, [canMove] returns, and it
    returns true exactly when the vehicle exists, its target keeps the
    perpendicular coordinate, and the target cells are in the grid and free
    of every other vehicle and of every obstacle. Only the target cells
    are examined: a vehicle or obstacle standing between the current and
    the target position does not make the answer false. *)
Theorem canMove_legal_iff (p : Puzzle) (ops : list Op) (e : GameEngine)
    (id : string) (newPos : Position) :
  run (newEngine p) ops = Some e →
  ∃ b, canMove e id newPos = Some b ∧ (b = true ↔ legalMove e id newPos).
Proof.
  intros [_ Hpos]%reached_positioned. by apply canMove_spec.
Qed.

Lemma canMove_legal_iff_witness :
  run (newEngine leapfrog) [] = Some (newEngine leapfrog)
  ∧ ∃ b, canMove (newEngine leapfrog) "player" {| row := 0; col := 2 |} = Some b
      ∧ b = true.
Proof.
  split; [reflexivity|].
  destruct (canMove_legal_iff leapfrog [] (newEngine leapfrog) "player"
              {| row := 0; col := 2 |} eq_refl) as (b & Hb & _).
  exists b. split; [exact Hb|].
  vm_compute in Hb. injection Hb as <-. reflexivity.
Defined.

(** X2. What an applied move does: [canMove] had accepted it and the target
    was not the current position; the vehicle's entry in the position map
    is the target and no other entry changes; the counter grows by one; the
    move is appended to the history; the completion flag is its old value
    or the win predicate at the new position; every listener is called
    once, after all of that, with the new state. *)
Theorem moveVehicle_applied_effects (e e' : GameEngine) (id : string)
    (newPos : Position) :
  moveVehicle e id newPos = Some (true, e') →
  canMove e id newPos = Some true
  ∧ vehiclePositions (state e) !! id ≠ Some newPos
  ∧ puzzle (state e') = puzzle (state e)
  ∧ vehiclePositions (state e') = <[id := newPos]> (vehiclePositions (state e))
  ∧ moveCount (state e') = moveCount (state e) + 1
  ∧ moveHistory e'
    = moveHistory e ++ [{| vehicleId := id; m_row := row newPos; m_col := col newPos |}]
  ∧ (∃ won, checkWin e' = Some won
            ∧ isComplete (state e') = isComplete (state e) || won)
  ∧ listeners e' = listeners e
  ∧ delivered e' = delivered e ++ ((λ fn, (fn, state e')) <$> listeners e).
Proof.
  unfold moveVehicle.
  destruct (canMove e id newPos) as [[|]|]; simpl; [|done..].
  destruct (vehiclePositions (state e) !! id) as [cur|] eqn:Hcur; simpl; [|done].
  destruct ((row cur =? row newPos) && (col cur =? col newPos)) eqn:Heq; [done|].
  destruct (checkWin (setPosition id newPos e)) as [won|] eqn:Hwon; simpl; [|done].
  intros [= <-]. split; [done|]. split.
  { intros [= ->]. by rewrite !Z.eqb_refl in Heq. }
  destruct won; simpl; split_and!; try done.
  - exists true. split; [|by destruct (isComplete (state e))].
    rewrite <-Hwon. by apply checkWin_ext.
  - exists false. split; [|by destruct (isComplete (state e))].
    rewrite <-Hwon. by apply checkWin_ext.
Qed.

Lemma moveVehicle_applied_effects_witness :
  moveVehicle (subscribe 7 (newEngine blocked)) "vehicle-0" {| row := 2; col := 2 |}
  = Some (true, default (newEngine blocked)
                  (step (subscribe 7 (newEngine blocked))
                        (OpMove "vehicle-0" {| row := 2; col := 2 |})))
  ∧ vehiclePositions
      (state (default (newEngine blocked)
                (step (subscribe 7 (newEngine blocked))
                      (OpMove "vehicle-0" {| row := 2; col := 2 |}))))
    = <["vehicle-0" := {| row := 2; col := 2 |}]>
        (vehiclePositions (state (subscribe 7 (newEngine blocked)))).
Proof.
  split; [vm_compute; reflexivity|].
  apply (moveVehicle_applied_effects (subscribe 7 (newEngine blocked))).
  vm_compute. reflexivity.
Defined.

Lemma moveVehicle_counter e id newPos b e' :
  moveVehicle e id newPos = Some (b, e') →
  moveCount (state e) = Z.of_nat (length (moveHistory e)) →
  moveCount (state e') = Z.of_nat (length (moveHistory e')).
Proof.
  unfold moveVehicle.
  destruct (canMove _ _ _) as [[|]|]; simpl; [|by intros [= _ <-]|done].
  destruct (vehiclePositions (state e) !! id) as [cur|]; simpl; [|done].
  destruct ((row cur =? _) && _); [by intros [= _ <-]|].
  destruct (checkWin _) as [[|]|]; simpl; [| |done];
    intros [= _ <-] Hc; simpl; rewrite length_app; simpl; lia.
Qed.

Lemma run_counter e ops e' :
  run e ops = Some e' →
  moveCount (state e) = Z.of_nat (length (moveHistory e)) →
  moveCount (state e') = Z.of_nat (length (moveHistory e')).
Proof.
  revert e. induction ops as [|op ops IH]; intros e; simpl; [by intros [= <-]|].
  destruct op as [id newPos|]; simpl.
  - destruct (moveVehicle e id newPos) as [[b e1]|] eqn:Hm; [|done]. simpl.
    intros Hrun Hc. eapply IH; [done|]. by eapply moveVehicle_counter.
  - intros Hrun _. by eapply IH.
Qed.

(** X3. A session on a fresh engine never throws, whatever the template
    (identities need not even be distinct) and whatever the calls: it ends
    in an engine on the same template, in which every vehicle has a
    position and the move counter is the length of the move history. *)
Theorem session_never_throws (p : Puzzle) (ops : list Op) :
  ∃ e, run (newEngine p) ops = Some e
    ∧ puzzle (state e) = p
    ∧ Positioned (state e)
    ∧ moveCount (state e) = Z.of_nat (length (moveHistory e)).
Proof.
  destruct (run_positioned (newEngine p) ops (initState_positioned p))
    as (e & He & Hp & Hpos).
  exists e. split_and!; try done. by eapply run_counter.
Qed.

(** X4. No turning: on a template with distinct identities, in every
    engine a session reaches, a horizontal vehicle is on the row and a
    vertical vehicle on the column the template gave it. *)
Theorem perpendicular_fixed (p : Puzzle) (ops : list Op) (e : GameEngine)
    (v : Vehicle) :
  distinctIds p →
  run (newEngine p) ops = Some e →
  v ∈ allVehicles p →
  ∃ pos, vehiclePositions (state e) !! v_id v = Some pos
    ∧ (v_orientation v = Horizontal → row pos = v_row v)
    ∧ (v_orientation v = Vertical → col pos = v_col v).
Proof.
  intros Hnd Hrun Hv.
  set (Inv := λ e : GameEngine,
    puzzle (state e) = p ∧ Positioned (state e)
    ∧ ∀ w pos, w ∈ allVehicles p → vehiclePositions (state e) !! v_id w = Some pos →
        (v_orientation w = Horizontal → row pos = v_row w)
        ∧ (v_orientation w = Vertical → col pos = v_col w)).
  assert (Hfresh : ∀ e0, state e0 = initState p → Inv e0).
  { intros e0 Hs. unfold Inv. rewrite Hs.
    split; [done|]. split; [apply initState_positioned|].
    intros w pos Hw. rewrite initState_lookup by done. by intros [= <-]. }
  assert (Hstep : ∀ e0 id newPos b e1,
            Inv e0 → moveVehicle e0 id newPos = Some (b, e1) → Inv e1).
  { intros e0 id newPos b e1 (Hp0 & Hpos0 & Hax) Hm.
    destruct (moveVehicle_cases e0 id newPos Hpos0)
      as [[Heq _]|(won & Hlegal & _ & _ & Heq)];
      rewrite Heq in Hm; injection Hm as <- <-; [done|].
    destruct Hlegal as (v0 & cur & Hg & Hcur & Hrow & Hcol & _).
    pose proof (getVehicle_Some _ _ _ Hg) as [Hv0 Hid]. rewrite Hp0 in Hv0.
    split; [by destruct won|]. split.
    { eapply moveVehicle_positioned; [exact Hpos0|exact Heq]. }
    intros w pos Hw Hlk.
    assert (Hlk' : <[id := newPos]> (vehiclePositions (state e0)) !! v_id w = Some pos)
      by (by destruct won).
    destruct (decide (v_id w = id)) as [Hwid|Hwid].
    - rewrite <-Hwid, lookup_insert_eq in Hlk'. injection Hlk' as <-.
      assert (w = v0) as -> by (eapply distinctIds_elem; eauto; congruence).
      rewrite <-Hid in Hcur. destruct (Hax v0 cur Hv0 Hcur) as [Hr Hc].
      split; intros Ho; [rewrite Hrow by done; auto|rewrite Hcol by done; auto].
    - rewrite lookup_insert_ne in Hlk' by done. by apply Hax. }
  assert (Hall : ∀ ops e0 e1, Inv e0 → run e0 ops = Some e1 → Inv e1).
  { clear Hrun. intros ops'. induction ops' as [|op ops' IH]; intros e0 e1 Hinv; simpl;
      [by intros [= <-]|].
    destruct op as [id newPos|]; simpl.
    - destruct (moveVehicle e0 id newPos) as [[b e2]|] eqn:Hm; [|done]. simpl.
      apply IH. by eapply Hstep.
    - apply IH. apply Hfresh. destruct Hinv as [Hp0 _]. simpl. by rewrite Hp0. }
  destruct (Hall ops (newEngine p) e) as (_ & Hpos & Hax);
    [by apply Hfresh|done|].
  destruct (Hpos v) as [pos Hlk]; [by rewrite (proj1 (reached_positioned _ _ _ Hrun))|].
  exists pos. split; [done|]. by apply Hax.
Qed.

Lemma perpendicular_fixed_witness :
  distinctIds blocked
  ∧ (∃ e, run (newEngine blocked) blockedSession = Some e)
  ∧ playerCar blocked ∈ allVehicles blocked
  ∧ ∀ e, run (newEngine blocked) blockedSession = Some e →
      ∃ pos, vehiclePositions (state e) !! "player" = Some pos ∧ row pos = 1.
Proof.
  split; [exact distinctIds_blocked|].
  split; [eexists; vm_compute; reflexivity|].
  split; [left|].
  intros e Hrun.
  destruct (perpendicular_fixed blocked blockedSession e (playerCar blocked)
              distinctIds_blocked Hrun) as (pos & Hlk & Hrow & _); [left|].
  exists pos. split; [exact Hlk|]. exact (Hrow eq_refl).
Defined.

Lemma moveVehicle_sameGame e1 e2 id newPos :
  sameGame e1 e2 →
  match moveVehicle e1 id newPos, moveVehicle e2 id newPos with
  | Some (b1, e1'), Some (b2, e2') => b1 = b2 ∧ sameGame e1' e2'
  | None, None => True
  | _, _ => False
  end.
Proof.
  intros [Hst Hh]. unfold moveVehicle.
  rewrite (canMove_state e1 e2) by done. rewrite Hst.
  destruct (canMove e2 id newPos) as [[|]|]; simpl; [|done..].
  destruct (vehiclePositions (state e2) !! id) as [cur|]; simpl; [|done].
  destruct ((row cur =? _) && _); [done|].
  rewrite (checkWin_ext (setPosition id newPos e1) (setPosition id newPos e2))
    by (simpl; by rewrite Hst).
  destruct (checkWin (setPosition id newPos e2)) as [[|]|]; simpl; [| |done];
    (split; [done|]); split; simpl; by rewrite ?Hst, ?Hh.
Qed.

Lemma run_sameGame e1 e2 ops :
  sameGame e1 e2 →
  match run e1 ops, run e2 ops with
  | Some e1', Some e2' => sameGame e1' e2'
  | None, None => True
  | _, _ => False
  end.
Proof.
  revert e1 e2. induction ops as [|op ops IH]; intros e1 e2 Hs; simpl; [done|].
  destruct op as [id newPos|]; simpl.
  - pose proof (moveVehicle_sameGame e1 e2 id newPos Hs) as Hm.
    destruct (moveVehicle e1 id newPos) as [[b1 e1']|],
             (moveVehicle e2 id newPos) as [[b2 e2']|]; simpl; try done.
    apply IH. by destruct Hm.
  - apply IH. destruct Hs as [Hst Hh]. split; simpl; by rewrite ?Hst.
Qed.

(** X5. [reset] gives back a fresh game: after any session, the reset
    engine is in the state a new engine on the template starts in, with an
    empty history and the same listeners, each called once with that state;
    and every later session runs on it as on a new engine (same states,
    same histories). *)
Theorem reset_as_fresh (p : Puzzle) (ops ops' : list Op) (e : GameEngine) :
  run (newEngine p) ops = Some e →
  state (reset e) = state (newEngine p)
  ∧ moveHistory (reset e) = []
  ∧ listeners (reset e) = listeners e
  ∧ delivered (reset e)
    = delivered e ++ ((λ fn, (fn, state (newEngine p))) <$> listeners e)
  ∧ ∃ e1 e2, run (reset e) ops' = Some e1 ∧ run (newEngine p) ops' = Some e2
      ∧ sameGame e1 e2.
Proof.
  intros [Hp Hpos]%reached_positioned.
  assert (Hst : state (reset e) = state (newEngine p)) by (simpl; by rewrite Hp).
  split_and!; try done; [simpl; by rewrite Hp|].
  pose proof (run_sameGame (reset e) (newEngine p) ops' (conj Hst eq_refl)) as Hs.
  destruct (run_positioned (newEngine p) ops' (initState_positioned p))
    as (e2 & He2 & _). rewrite He2 in Hs.
  destruct (run (reset e) ops') as [e1|]; [|done]. by exists e1, e2.
Qed.

Lemma reset_as_fresh_witness :
  (∃ e, run (newEngine blocked) blockedSession = Some e)
  ∧ ∀ e, run (newEngine blocked) blockedSession = Some e →
      state (reset e) = initState blocked.
Proof.
  split; [eexists; vm_compute; reflexivity|].
  intros e Hrun.
  exact (proj1 (reset_as_fresh blocked blockedSession [] e Hrun)).
Defined.

(** X6. When the exit's direction is across the player's axis (a
    horizontal player with an exit up or down, a vertical one with an exit
    left or right), no session ever sets the completion flag, and no trace
    validates. *)
Theorem exit_across_never_complete (p : Puzzle) (ops : list Op) (e : GameEngine) :
  exitAcross p = true →
  run (newEngine p) ops = Some e →
  isComplete (state e) = false
  ∧ ∀ r, validatePuzzle p = Some r → isValid r = false.
Proof.
  intros Hx Hrun.
  assert (Hwin : ∀ e0, puzzle (state e0) = p → checkWin e0 = Some false).
  { intros e0 Hp0. unfold checkWin. rewrite Hp0. unfold exitAcross in Hx.
    by destruct (v_orientation (playerCar p)), (direction (exit p)). }
  assert (Hstep : ∀ e0 id newPos b e1,
            puzzle (state e0) = p → isComplete (state e0) = false →
            moveVehicle e0 id newPos = Some (b, e1) →
            puzzle (state e1) = p ∧ isComplete (state e1) = false).
  { intros e0 id newPos b e1 Hp0 Hc0. unfold moveVehicle.
    destruct (canMove _ _ _) as [[|]|]; simpl; [|by intros [= _ <-]|done].
    destruct (vehiclePositions (state e0) !! id) as [cur|]; simpl; [|done].
    destruct ((row cur =? _) && _); [by intros [= _ <-]|].
    rewrite (Hwin (setPosition id newPos e0)) by done. simpl.
    by intros [= _ <-]. }
  assert (Hall : ∀ ops e0 e1,
            puzzle (state e0) = p → isComplete (state e0) = false →
            run e0 ops = Some e1 → isComplete (state e1) = false).
  { clear Hrun. intros ops'. induction ops' as [|op ops' IH]; intros e0 e1 Hp0 Hc0; simpl;
      [by intros [= <-]|].
    destruct op as [id newPos|]; simpl.
    - destruct (moveVehicle e0 id newPos) as [[b e2]|] eqn:Hm; [|done]. simpl.
      destruct (Hstep _ _ _ _ _ Hp0 Hc0 Hm). by apply IH.
    - apply IH; simpl; by rewrite ?Hp0. }
  split; [by eapply (Hall ops (newEngine p))|].
  intros r. unfold validatePuzzle.
  destruct (validation p) as [[|m ms]|]; [by intros [= <-]| |by intros [= <-]].
  destruct (replay (newEngine p) (m :: ms) 0) as [[[i|] e1]|] eqn:Hr; simpl;
    [by intros [= <-]| |done].
  assert (isComplete (state e1) = false) as Hc.
  { assert (Hrep : ∀ ms e0 i, puzzle (state e0) = p → isComplete (state e0) = false →
              replay e0 ms i = Some (None, e1) → isComplete (state e1) = false).
    { clear Hr. intros ms'. induction ms' as [|m' ms' IH]; intros e0 i Hp0 Hc0; simpl;
        [by intros [= <-]|].
      destruct (moveVehicle e0 _ _) as [[b e2]|] eqn:Hm; [|done]. simpl.
      destruct b; [|done].
      destruct (Hstep _ _ _ _ _ Hp0 Hc0 Hm). by apply IH. }
    by eapply (Hrep (m :: ms) (newEngine p) 0). }
  unfold getState. rewrite Hc. simpl. by intros [= <-].
Qed.

Lemma exit_across_never_complete_witness :
  exitAcross cornerRotated = true
  ∧ run (newEngine cornerRotated) [OpMove "player" {| row := 1; col := 2 |}]
    = Some (default (newEngine cornerRotated)
              (run (newEngine cornerRotated)
                   [OpMove "player" {| row := 1; col := 2 |}]))
  ∧ (hydratePuzzle rawCorner "corner" ≫= validatePuzzle)
    = Some {| isValid := true; par := Some 1; error := None |}
  ∧ validatePuzzle cornerRotated
    = Some {| isValid := false; par := None;
              error := Some "Validation does not reach win state" |}
  ∧ ∀ r, validatePuzzle cornerRotated = Some r → isValid r = false.
Proof.
  split; [vm_compute; reflexivity|]. split; [vm_compute; reflexivity|].
  split; [vm_compute; reflexivity|]. split; [vm_compute; reflexivity|].
  apply (exit_across_never_complete cornerRotated
           [OpMove "player" {| row := 1; col := 2 |}]
           (default (newEngine cornerRotated)
              (run (newEngine cornerRotated)
                   [OpMove "player" {| row := 1; col := 2 |}])));
    vm_compute; reflexivity.
Defined.

(** ** Further properties of the slide range *)

Lemma getSlideRange_full e id v cur :
  Positioned (state e) → getVehicle e id = Some v →
  vehiclePositions (state e) !! id = Some cur →
  let isH := bool_decide (v_orientation v = Horizontal) in
  let cv := alongAxis v cur in
  let limit := axisLimit v (gridSize (puzzle (state e))) in
  ∃ lo hi, getSlideRange e id = Some {| sr_min := lo; sr_max := hi |}
    ∧ lo ≤ cv ≤ hi
    ∧ (∀ k, lo ≤ k < cv → canMove e id (testPos isH cur k) = Some true)
    ∧ (∀ k, cv < k ≤ hi → canMove e id (testPos isH cur k) = Some true)
    ∧ (lo ≤ 0 ∨ canMove e id (testPos isH cur (lo - 1)) = Some false)
    ∧ (limit ≤ hi + v_length v
       ∨ canMove e id (testPos isH cur (hi + 1)) = Some false).
Proof.
  intros Hpos Hg Hcur isH cv limit.
  destruct (slideBackward_spec e id isH cur (S (Z.to_nat cv)) cv Hpos)
    as (lo & Hlo_eq & Hlo & Hback & _ & Hlomax); [lia|].
  destruct (slideForward_spec e id isH cur (v_length v) limit
              (S (Z.to_nat (limit - v_length v - cv))) cv Hpos)
    as (hi & Hhi_eq & Hhi & Hfwd & _ & Hhimax); [lia|].
  exists lo, hi. split.
  { unfold getSlideRange. rewrite Hg. cbn [mbind option_bind]. rewrite Hcur.
    cbn [mbind option_bind]. fold isH. unfold cv, alongAxis in Hlo_eq. fold isH in Hlo_eq.
    rewrite Hlo_eq. cbn [mbind option_bind].
    unfold limit, axisLimit, cv, alongAxis in Hhi_eq. fold isH in Hhi_eq.
    by rewrite Hhi_eq. }
  split; [lia|]. split; [intros; apply Hback; lia|].
  split; [intros; apply Hfwd; lia|]. by split.
Qed.

Lemma canMove_out_of_grid e id v newPos i :
  Positioned (state e) → getVehicle e id = Some v →
  0 ≤ i < v_length v →
  let c := cellAt v newPos i in
  ¬ (0 ≤ c.1 < rows (gridSize (puzzle (state e)))
     ∧ 0 ≤ c.2 < cols (gridSize (puzzle (state e)))) →
  canMove e id newPos = Some false.
Proof.
  intros Hpos Hg Hi c Hout.
  destruct (canMove_spec e id newPos Hpos) as ([|] & Hb & Hiff); [|done].
  destruct (proj1 Hiff eq_refl) as (v' & cur' & Hg' & _ & _ & _ & Hcells).
  assert (v' = v) as -> by congruence.
  destruct (Hcells c) as [Hin _]; [|done].
  apply elem_of_vehicleCells. by exists i.
Qed.

(** X7. On every engine a session reaches, for an existing vehicle of
    length at least 1, the range [getSlideRange] returns cannot be extended:
    [canMove] refuses the anchor one cell before [min] and the anchor one
    cell after [max]. *)
Theorem getSlideRange_maximal (p : Puzzle) (ops : list Op) (e : GameEngine)
    (id : string) (v : Vehicle) :
  run (newEngine p) ops = Some e →
  getVehicle e id = Some v →
  1 ≤ v_length v →
  ∃ cur r, vehiclePositions (state e) !! id = Some cur
    ∧ getSlideRange e id = Some r
    ∧ canMove e id (testPos (bool_decide (v_orientation v = Horizontal)) cur
                            (sr_min r - 1)) = Some false
    ∧ canMove e id (testPos (bool_decide (v_orientation v = Horizontal)) cur
                            (sr_max r + 1)) = Some false.
Proof.
  intros [_ Hpos]%reached_positioned Hg Hlen.
  pose proof (getVehicle_Some _ _ _ Hg) as [Hv Hid].
  destruct (Hpos v Hv) as [cur Hcur]. rewrite Hid in Hcur.
  destruct (getSlideRange_full e id v cur Hpos Hg Hcur)
    as (lo & hi & Hr & _ & _ & _ & Hlo & Hhi).
  exists cur, {| sr_min := lo; sr_max := hi |}. simpl.
  split; [done|]. split; [done|]. split.
  - destruct Hlo as [Hlo|Hlo]; [|done].
    apply (canMove_out_of_grid e id v _ 0 Hpos Hg); [lia|].
    unfold cellAt, testPos.
    destruct (v_orientation v); simpl; lia.
  - destruct Hhi as [Hhi|Hhi]; [|done].
    apply (canMove_out_of_grid e id v _ (v_length v - 1) Hpos Hg); [lia|].
    unfold axisLimit in Hhi. unfold cellAt, testPos.
    destruct (v_orientation v); simpl in *; lia.
Qed.

Lemma getSlideRange_maximal_witness :
  run (newEngine blocked) [] = Some (newEngine blocked)
  ∧ getVehicle (newEngine blocked) "player" = Some (playerCar blocked)
  ∧ 1 ≤ v_length (playerCar blocked)
  ∧ ∃ cur r, vehiclePositions (state (newEngine blocked)) !! "player" = Some cur
      ∧ getSlideRange (newEngine blocked) "player" = Some r
      ∧ canMove (newEngine blocked) "player"
                (testPos true cur (sr_max r + 1)) = Some false.
Proof.
  split; [reflexivity|]. split; [vm_compute; reflexivity|].
  split; [vm_compute; discriminate|].
  destruct (getSlideRange_maximal blocked [] (newEngine blocked) "player"
              (playerCar blocked))
    as (cur & r & Hcur & Hr & _ & Hmax);
    [reflexivity|vm_compute; reflexivity|vm_compute; discriminate|].
  exists cur, r. split; [exact Hcur|]. split; [exact Hr|]. exact Hmax.
Defined.

(** X8. On every engine a session reaches, a move of an existing vehicle
    to any anchor of its slide range other than the current one is applied:
    [moveVehicle] returns true. The target equal to the current anchor is
    the only one of the range it refuses. *)
Theorem slide_range_moves_apply (p : Puzzle) (ops : list Op) (e : GameEngine)
    (id : string) (v : Vehicle) (cur : Position) (r : SlideRange) (k : Z) :
  run (newEngine p) ops = Some e →
  getVehicle e id = Some v →
  vehiclePositions (state e) !! id = Some cur →
  getSlideRange e id = Some r →
  sr_min r ≤ k ≤ sr_max r →
  k ≠ alongAxis v cur →
  ∃ e', moveVehicle e id (testPos (bool_decide (v_orientation v = Horizontal)) cur k)
        = Some (true, e')
    ∧ vehiclePositions (state e') !! id
      = Some (testPos (bool_decide (v_orientation v = Horizontal)) cur k).
Proof.
  intros [_ Hpos]%reached_positioned Hg Hcur Hr Hk Hne.
  destruct (getSlideRange_full e id v cur Hpos Hg Hcur)
    as (lo & hi & Hr' & _ & Hback & Hfwd & _).
  rewrite Hr in Hr'. injection Hr' as ->. simpl in Hk.
  set (tp := testPos _ cur k).
  assert (Hcm : canMove e id tp = Some true).
  { destruct (Z.lt_trichotomy k (alongAxis v cur)) as [?|[?|?]];
      [apply Hback; lia|done|apply Hfwd; lia]. }
  assert (Htp : Some cur ≠ Some tp).
  { intros [= Heq].
    assert (alongAxis v tp = k) as Hk'
      by (unfold tp, testPos, alongAxis; by destruct (bool_decide _)).
    rewrite <-Heq in Hk'. by apply Hne. }
  destruct (moveVehicle_cases e id tp Hpos)
    as [[_ [Hnl|Hsame]]|(won & _ & _ & _ & Heq)].
  - destruct (canMove_spec e id tp Hpos) as (b & Hb & Hiff).
    rewrite Hcm in Hb. injection Hb as <-. destruct Hnl. by apply Hiff.
  - rewrite Hcur in Hsame. done.
  - eexists. split; [exact Heq|]. destruct won; simpl; apply lookup_insert_eq.
Qed.

Lemma slide_range_moves_apply_witness :
  run (newEngine blocked) [] = Some (newEngine blocked)
  ∧ getVehicle (newEngine blocked) "vehicle-0"
    = Some {| v_id := "vehicle-0"; v_row := 0; v_col := 2; v_length := 2;
              v_orientation := Vertical; v_type := None; v_color := Some Blue |}
  ∧ vehiclePositions (state (newEngine blocked)) !! "vehicle-0"
    = Some {| row := 0; col := 2 |}
  ∧ getSlideRange (newEngine blocked) "vehicle-0"
    = Some {| sr_min := 0; sr_max := 2 |}
  ∧ ∃ e', moveVehicle (newEngine blocked) "vehicle-0" {| row := 2; col := 2 |}
          = Some (true, e').
Proof.
  split; [reflexivity|]. split; [vm_compute; reflexivity|].
  split; [vm_compute; reflexivity|]. split; [vm_compute; reflexivity|].
  destruct (slide_range_moves_apply blocked [] (newEngine blocked) "vehicle-0"
              {| v_id := "vehicle-0"; v_row := 0; v_col := 2; v_length := 2;
                 v_orientation := Vertical; v_type := None; v_color := Some Blue |}
              {| row := 0; col := 2 |} {| sr_min := 0; sr_max := 2 |} 2)
    as (e' & He' & _);
    [reflexivity|vm_compute; reflexivity|vm_compute; reflexivity
    |vm_compute; reflexivity|simpl; lia|vm_compute; discriminate|].
  exists e'. exact He'.
Defined.

(** X9. An identity that names no vehicle: [canMove] and [moveVehicle]
    answer false and leave the engine alone, whereas [getSlideRange]
    throws. *)
Theorem unknown_vehicle (e : GameEngine) (id : string) (newPos : Position) :
  getVehicle e id = None →
  canMove e id newPos = Some false
  ∧ moveVehicle e id newPos = Some (false, e)
  ∧ getSlideRange e id = None.
Proof.
  intros Hg. unfold moveVehicle, getSlideRange, canMove. by rewrite Hg.
Qed.

Lemma unknown_vehicle_witness :
  getVehicle (newEngine blocked) "vehicle-1" = None
  ∧ canMove (newEngine blocked) "vehicle-1" {| row := 0; col := 0 |} = Some false
  ∧ moveVehicle (newEngine blocked) "vehicle-1" {| row := 0; col := 0 |}
    = Some (false, newEngine blocked)
  ∧ getSlideRange (newEngine blocked) "vehicle-1" = None.
Proof.
  split; [vm_compute; reflexivity|].
  apply (unknown_vehicle (newEngine blocked) "vehicle-1" {| row := 0; col := 0 |}).
  vm_compute. reflexivity.
Defined.

(** ** Further properties of the validator *)

Lemma Applies_positioned e ms e' :
  Positioned (state e) → Applies e ms e' → Positioned (state e').
Proof.
  intros Hpos Ha. induction Ha as [|e m ms e1 e2 Hm _ IH]; [done|].
  apply IH. by eapply moveVehicle_positioned.
Qed.

(** X10. The shape of a validation result: [par] is present exactly when
    the result is valid, [error] exactly when it is not, and a par is the
    length of a trace of at least one move. *)
Theorem validatePuzzle_result_shape (p : Puzzle) :
  ∃ r, validatePuzzle p = Some r
    ∧ (isValid r = true ↔ is_Some (par r))
    ∧ (isValid r = false ↔ is_Some (error r))
    ∧ ∀ n, par r = Some n →
        1 ≤ n ∧ ∃ ms, validation p = Some ms ∧ n = Z.of_nat (length ms).
Proof.
  destruct (Replays_total p) as [v Hv].
  exists (resultOf v). split; [by apply Replays_validatePuzzle|].
  destruct Hv as [?|pre m post e ? ? ?|ms e ? ? ? ?|ms e Hms Hne ? ?]; simpl.
  - split; [split; [done|by intros [? [=]]]|].
    split; [split; [eauto|done]|]. by intros n [=].
  - split; [split; [done|by intros [? [=]]]|].
    split; [split; [eauto|done]|]. by intros n [=].
  - split; [split; [done|by intros [? [=]]]|].
    split; [split; [eauto|done]|]. by intros n [=].
  - split; [split; [eauto|done]|].
    split; [split; [done|by intros [? [=]]]|].
    intros n [= <-]. split; [destruct ms; [done|simpl; lia]|eauto].
Qed.

(** X11. A trace is refused at a no-op: if, once the moves before it have
    been applied, a move of the trace asks for the position its vehicle
    already has, [validatePuzzle] reports that move's 1-based index as
    invalid. *)
Theorem trace_noop_invalid (p : Puzzle) (pre post : list PuzzleMove)
    (m : PuzzleMove) (e : GameEngine) :
  validation p = Some (pre ++ m :: post) →
  Applies (newEngine p) pre e →
  vehiclePositions (state e) !! vehicleId m = Some (target m) →
  validatePuzzle p
  = Some {| isValid := false; par := None;
            error := Some ("Invalid move at step "
                           +:+ pretty (Z.of_nat (length pre) + 1)) |}.
Proof.
  intros Hv Ha Hlk.
  assert (Hpos : Positioned (state e))
    by (apply (Applies_positioned (newEngine p) pre e);
        [apply initState_positioned|exact Ha]).
  assert (Hm : moveVehicle e (vehicleId m) (target m) = Some (false, e)).
  { destruct (moveVehicle_cases e (vehicleId m) (target m) Hpos)
      as [[Heq _]|(won & _ & Hne & _)]; done. }
  apply (Replays_validatePuzzle p (InvalidAt (Z.of_nat (length pre) + 1))).
  by eapply replays_invalid.
Qed.

Lemma trace_noop_invalid_witness :
  validation (withValidation [{| vehicleId := "vehicle-0"; m_row := 2; m_col := 2 |};
                              {| vehicleId := "vehicle-0"; m_row := 2; m_col := 2 |};
                              {| vehicleId := "player"; m_row := 1; m_col := 2 |}]
                             blocked)
  = Some ([{| vehicleId := "vehicle-0"; m_row := 2; m_col := 2 |}]
          ++ {| vehicleId := "vehicle-0"; m_row := 2; m_col := 2 |}
          :: [{| vehicleId := "player"; m_row := 1; m_col := 2 |}])
  ∧ validatePuzzle
      (withValidation [{| vehicleId := "vehicle-0"; m_row := 2; m_col := 2 |};
                       {| vehicleId := "vehicle-0"; m_row := 2; m_col := 2 |};
                       {| vehicleId := "player"; m_row := 1; m_col := 2 |}] blocked)
    = Some {| isValid := false; par := None;
              error := Some "Invalid move at step 2" |}.
Proof.
  split; [reflexivity|].
  set (p := withValidation _ blocked).
  set (e1 := default (newEngine p)
               (step (newEngine p) (OpMove "vehicle-0" {| row := 2; col := 2 |}))).
  apply (trace_noop_invalid p
           [{| vehicleId := "vehicle-0"; m_row := 2; m_col := 2 |}]
           [{| vehicleId := "player"; m_row := 1; m_col := 2 |}]
           {| vehicleId := "vehicle-0"; m_row := 2; m_col := 2 |} e1).
  - reflexivity.
  - apply (applies_cons _ _ _ e1); [vm_compute; reflexivity|apply applies_nil].
  - vm_compute. reflexivity.
Defined.

(** ** Further properties of hydration *)

Lemma hydrateVehicles_lookup i s vs k rv :
  vs !! k = Some rv →
  ∃ v, hydrateVehicles i s vs !! k = Some v
    ∧ v_id v = "vehicle-" +:+ pretty (i + k)%nat
    ∧ v_row v = rv_row rv ∧ v_col v = rv_col rv ∧ v_length v = rv_length rv
    ∧ v_orientation v = rv_orientation rv ∧ v_type v = rv_type rv
    ∧ is_Some (v_color v)
    ∧ (∀ c, rv_color rv = Some c → v_color v = Some c).
Proof.
  revert i s k. induction vs as [|v0 vs IH]; intros i s k Hk; [done|].
  simpl.
  destruct (match rv_color v0 with Some c => (c, s) | None => nextColor s end)
    as [color s'] eqn:Hcol.
  destruct k as [|k]; simpl in *.
  - injection Hk as ->. eexists. split; [done|]. simpl.
    rewrite Nat.add_0_r. split_and!; try done.
    intros c Hc. rewrite Hc in Hcol. by injection Hcol as <- _.
  - destruct (IH (S i) s' k Hk) as (v & Hv & Hid & Hrest).
    exists v. split; [done|]. split; [|done].
    rewrite Hid. do 2 f_equal. lia.
Qed.

Lemma hydrateVehicles_length i s vs :
  length (hydrateVehicles i s vs) = length vs.
Proof.
  revert i s. induction vs as [|v vs IH]; intros i s; simpl; [done|].
  destruct (match rv_color v with Some c => (c, s) | None => nextColor s end).
  simpl. by rewrite IH.
Qed.

Lemma hydrateObstacles_lookup i os k ro :
  os !! k = Some ro →
  hydrateObstacles i os !! k
  = Some {| o_id := "obstacle-" +:+ pretty (i + k)%nat;
            o_row := ro_row ro; o_col := ro_col ro; o_type := ro_type ro |}.
Proof.
  revert i k. induction os as [|o os IH]; intros i k Hk; [done|].
  destruct k as [|k]; simpl in *.
  - injection Hk as ->. by rewrite Nat.add_0_r.
  - rewrite (IH (S i) k Hk). do 4 f_equal. lia.
Qed.

Lemma hydrateObstacles_length i os : length (hydrateObstacles i os) = length os.
Proof. revert i. induction os as [|o os IH]; intros i; simpl; [done|]. by rewrite IH. Qed.

(** X12. What hydration produces when it does not throw: the player car
    is named [player]; the [k]-th vehicle is named [vehicle-k] and the
    [k]-th obstacle [obstacle-k]; each keeps the row, column, length,
    orientation and type of its raw entry, and a colour the raw entry
    gives; every vehicle ends with a colour; there are as many vehicles and
    obstacles as raw entries; grid, exit cell and trace are passed on, and
    no validation result is set. *)
Theorem hydratePuzzle_fields (raw : RawPuzzle) (id : string) (p : Puzzle) :
  hydratePuzzle raw id = Some p →
  p_id p = id ∧ gridSize p = r_gridSize raw
  ∧ (e_row (exit p), e_col (exit p)) = (row (r_exit raw), col (r_exit raw))
  ∧ validation p = r_validation raw ∧ validationResult p = None
  ∧ v_id (playerCar p) = "player"
  ∧ placementOf {| rv_row := v_row (playerCar p); rv_col := v_col (playerCar p);
                   rv_length := v_length (playerCar p);
                   rv_orientation := v_orientation (playerCar p);
                   rv_type := None; rv_color := None |} = r_playerCar raw
  ∧ length (vehicles p) = length (r_vehicles raw)
  ∧ length (obstacles p) = length (r_obstacles raw)
  ∧ (∀ (k : nat) rv, r_vehicles raw !! k = Some rv →
       ∃ v, vehicles p !! k = Some v
         ∧ v_id v = "vehicle-" +:+ pretty k
         ∧ v_row v = rv_row rv ∧ v_col v = rv_col rv ∧ v_length v = rv_length rv
         ∧ v_orientation v = rv_orientation rv ∧ v_type v = rv_type rv
         ∧ is_Some (v_color v)
         ∧ (∀ c, rv_color rv = Some c → v_color v = Some c))
  ∧ (∀ (k : nat) ro, r_obstacles raw !! k = Some ro →
       obstacles p !! k
       = Some {| o_id := "obstacle-" +:+ pretty k;
                 o_row := ro_row ro; o_col := ro_col ro; o_type := ro_type ro |}).
Proof.
  unfold hydratePuzzle.
  destruct (deduceExitDirection _ _) as [d|]; simpl; [|done]. intros [= <-]. simpl.
  split_and!; try done.
  - by destruct (r_playerCar raw).
  - apply hydrateVehicles_length.
  - apply hydrateObstacles_length.
  - intros k rv Hk. apply (hydrateVehicles_lookup 0 _ _ k rv Hk).
  - intros k ro Hk. apply (hydrateObstacles_lookup 0 _ k ro Hk).
Qed.

Lemma hydratePuzzle_fields_witness :
  hydratePuzzle rawBlocked "blocked" = Some blocked
  ∧ ∃ v, vehicles blocked !! 0%nat = Some v ∧ v_id v = "vehicle-0"
      ∧ v_length v = 2 ∧ is_Some (v_color v).
Proof.
  split; [vm_compute; reflexivity|].
  destruct (hydratePuzzle_fields rawBlocked "blocked" blocked)
    as (_ & _ & _ & _ & _ & _ & _ & _ & _ & Hveh & _); [vm_compute; reflexivity|].
  destruct (Hveh 0%nat (rawVehicle 0 2 2 Vertical) eq_refl)
    as (v & Hv & Hid & _ & _ & Hlen & _ & _ & Hcol & _).
  exists v. split; [exact Hv|]. split; [exact Hid|]. split; [exact Hlen|exact Hcol].
Defined.

(** X13. Identities round trip: on a hydrated template, the identity of
    the [k]-th vehicle finds that vehicle in a fresh engine, and the
    rotation's lookup resolves it to the [k]-th raw vehicle; [player]
    finds the player car. *)
Theorem identity_round_trip (raw : RawPuzzle) (id : string) (p : Puzzle)
    (k : nat) (v : Vehicle) :
  hydratePuzzle raw id = Some p →
  vehicles p !! k = Some v →
  getVehicle (newEngine p) (v_id v) = Some v
  ∧ vehicleByMoveId (r_vehicles raw) (v_id v) = r_vehicles raw !! k
  ∧ is_Some (r_vehicles raw !! k)
  ∧ getVehicle (newEngine p) "player" = Some (playerCar p).
Proof.
  intros Hh Hk.
  pose proof (hydratePuzzle_distinctIds _ _ _ Hh) as Hnd.
  assert (Hlen : length (vehicles p) = length (r_vehicles raw)).
  { revert Hh. unfold hydratePuzzle.
    destruct (deduceExitDirection _ _); simpl; [|done]. intros [= <-]. simpl.
    apply hydrateVehicles_length. }
  destruct (lookup_lt_is_Some_2 (r_vehicles raw) k) as [rv Hrv].
  { rewrite <-Hlen. by eapply lookup_lt_Some. }
  assert (Hid : v_id v = "vehicle-" +:+ pretty k).
  { revert Hh Hk. unfold hydratePuzzle.
    destruct (deduceExitDirection _ _); simpl; [|done]. intros [= <-]. simpl.
    intros Hk. destruct (hydrateVehicles_lookup 0 (initialColors (r_vehicles raw))
                           _ k rv Hrv) as (v' & Hv' & Hid' & _).
    by simplify_eq. }
  split_and!.
  - apply (getVehicle_distinct (newEngine p)); [done|].
    right. by eapply list_elem_of_lookup_2.
  - by rewrite Hid, vehicleByMoveId_hydrated.
  - eauto.
  - revert Hh. unfold hydratePuzzle.
    destruct (deduceExitDirection _ _); simpl; [|done]. by intros [= <-].
Qed.

Lemma identity_round_trip_witness :
  hydratePuzzle rawBlocked "blocked" = Some blocked
  ∧ vehicles blocked !! 0%nat
    = Some {| v_id := "vehicle-0"; v_row := 0; v_col := 2; v_length := 2;
              v_orientation := Vertical; v_type := None; v_color := Some Blue |}
  ∧ vehicleByMoveId (r_vehicles rawBlocked) "vehicle-0"
    = Some (rawVehicle 0 2 2 Vertical).
Proof.
  split; [vm_compute; reflexivity|]. split; [reflexivity|].
  apply (identity_round_trip rawBlocked "blocked" blocked 0
           {| v_id := "vehicle-0"; v_row := 0; v_col := 2; v_length := 2;
              v_orientation := Vertical; v_type := None; v_color := Some Blue |});
    [vm_compute; reflexivity|reflexivity].
Defined.

(** *** Colours *)

Lemma colorAt_mod k i : colorAt (k + i) = colorAt (k mod 4 + i).
Proof.
  unfold colorAt. simpl length. by rewrite <-Nat.Div0.add_mod_idemp_l.
Qed.

Lemma colorAt_covers k c : ∃ i, (i < 4)%nat ∧ colorAt (k + i) = c.
Proof.
  setoid_rewrite colorAt_mod.
  pose proof (Nat.mod_upper_bound k 4 ltac:(done)) as Hlt.
  destruct (k mod 4)%nat as [|[|[|[|?]]]]; [| | | |lia];
    destruct c;
    first [by exists 0%nat; split; [lia|]
          |by exists 1%nat; split; [lia|]
          |by exists 2%nat; split; [lia|]
          |by exists 3%nat; split; [lia|]].
Qed.

Lemma colour_free (used : list VehicleColor) :
  NoDup used → (length used < 4)%nat → ∃ c, c ∉ used.
Proof.
  intros Hnd Hlen.
  destruct (decide (Blue ∈ used)); [|by eauto].
  destruct (decide (Green ∈ used)); [|by eauto].
  destruct (decide (Yellow ∈ used)); [|by eauto].
  destruct (decide (Purple ∈ used)); [|by eauto].
  assert (VEHICLE_COLORS ⊆+ used) as Hsub.
  { apply NoDup_submseteq.
    - unfold VEHICLE_COLORS.
      repeat (apply NoDup_cons; split;
              [rewrite ?elem_of_cons, elem_of_nil; intros H; by decompose [or] H|]).
      apply NoDup_nil_2.
    - intros c _. by destruct c. }
  apply submseteq_length in Hsub. unfold VEHICLE_COLORS in Hsub. simpl in Hsub. lia.
Qed.

Lemma nextColor_fresh s c s' :
  nextColor s = (c, s') → (∃ c0, c0 ∉ usedColors s) →
  (c ∉ usedColors s) ∧ usedColors s' = usedColors s ++ [c].
Proof.
  unfold nextColor. intros Hnext [c0 Hc0].
  destruct (List.find _ _) as [i|] eqn:Hfind.
  - apply find_some in Hfind as [_ Hfree].
    apply negb_true_iff, bool_decide_eq_false in Hfree.
    injection Hnext as <- <-. simpl. split; [done|].
    unfold addColor. by rewrite decide_False.
  - destruct (colorAt_covers (colorIndex s) c0) as (i & Hi & Hcol).
    assert (In i (seq 0 (length VEHICLE_COLORS))) as Hin
      by (apply in_seq; unfold VEHICLE_COLORS; simpl; lia).
    apply (find_none _ _ Hfind) in Hin. rename Hin into Hfind'.
    apply negb_false_iff, bool_decide_eq_true in Hfind'. clear Hfind.
    rename Hfind' into Hfind.
    destruct Hc0. by rewrite <-Hcol.
Qed.

Lemma nextColor_cycle s :
  (∀ c, c ∈ usedColors s) →
  nextColor s = (colorAt (colorIndex s),
                 {| usedColors := usedColors s; colorIndex := S (colorIndex s) |}).
Proof.
  intros Hall. unfold nextColor.
  destruct (List.find _ _) as [i|] eqn:Hfind; [|done].
  apply find_some in Hfind as [_ Hfree].
  apply negb_true_iff, bool_decide_eq_false in Hfree. destruct Hfree. apply Hall.
Qed.

(** X14. [nextColor] hands out a colour not yet in use, and records it as
    used, whenever one of the four colours is free; when all four are in
    use it hands out [VEHICLE_COLORS[colorIndex % 4]] and advances the
    index by one, so that further calls go round the four colours in
    order. *)
Theorem nextColor_spec (s : ColorState) :
  ((∃ c0, c0 ∉ usedColors s) →
   ((nextColor s).1 ∉ usedColors s)
   ∧ usedColors (nextColor s).2 = usedColors s ++ [(nextColor s).1])
  ∧ ((∀ c, c ∈ usedColors s) →
     ∀ n : nat,
       (Nat.iter n (λ s, (nextColor s).2) s)
       = {| usedColors := usedColors s; colorIndex := colorIndex s + n |}
       ∧ (nextColor (Nat.iter n (λ s, (nextColor s).2) s)).1
         = colorAt (colorIndex s + n)).
Proof.
  split.
  - intros Hfree. destruct (nextColor s) as [c s'] eqn:Hn. simpl.
    by eapply nextColor_fresh.
  - intros Hall n. induction n as [|n [IH _]].
    + simpl. rewrite Nat.add_0_r, nextColor_cycle by done. by destruct s.
    + simpl. rewrite IH. rewrite nextColor_cycle by done. simpl.
      rewrite nextColor_cycle by done. simpl.
      split; [f_equal; lia|f_equal; lia].
Qed.

Lemma initialColors_go (acc : list VehicleColor) vs :
  NoDup (acc ++ omap rv_color vs) →
  foldl (λ used v, match rv_color v with
                   | Some c => addColor c used
                   | None => used
                   end) acc vs
  = acc ++ omap rv_color vs.
Proof.
  revert acc. induction vs as [|v vs IH]; intros acc Hnd; simpl.
  - by rewrite app_nil_r.
  - destruct (rv_color v) as [c|] eqn:Hc; simpl in *; rewrite ?Hc in *; [|by apply IH].
    assert (c ∉ acc) as Hfresh.
    { apply NoDup_app in Hnd as (_ & Hdis & _). intros Hin.
      apply (Hdis c Hin). by left. }
    unfold addColor. rewrite decide_False by done.
    rewrite IH; rewrite <-app_assoc; done.
Qed.

Lemma length_omap_le {A B} (f : A → option B) (l : list A) :
  (length (omap f l) ≤ length l)%nat.
Proof.
  induction l as [|a l IH]; csimpl; [done|]. destruct (f a); simpl; lia.
Qed.

Lemma hydrateVehicles_colours i s vs :
  NoDup (usedColors s) →
  NoDup (omap rv_color vs) →
  (∀ c, c ∈ omap rv_color vs → c ∈ usedColors s) →
  (length (usedColors s) + length vs ≤ 4 + length (omap rv_color vs))%nat →
  NoDup (omap v_color (hydrateVehicles i s vs))
  ∧ length (omap v_color (hydrateVehicles i s vs)) = length vs
  ∧ ∀ c, c ∈ omap v_color (hydrateVehicles i s vs) →
         c ∈ omap rv_color vs ∨ c ∉ usedColors s.
Proof.
  revert i s. induction vs as [|v vs IH]; intros i s Hnd Hex Hsub Hlen; csimpl.
  { split; [apply NoDup_nil_2|]. split; [done|]. by intros c ?%elem_of_nil. }
  csimpl in Hex; csimpl in Hsub; csimpl in Hlen.
  destruct (rv_color v) as [c|] eqn:Hc; csimpl in *.
  - apply NoDup_cons in Hex as [Hcn Hex].
    destruct (IH (S i) s) as (IH1 & IH2 & IH3); [done|done| |lia|].
    { intros c' Hc'. apply Hsub. by right. }
    split; [|split; [by rewrite IH2|]].
    + apply NoDup_cons. split; [|done]. intros Hin.
      destruct (IH3 c Hin) as [?|Hn]; [done|]. apply Hn, Hsub. by left.
    + intros c' [->|Hin]%elem_of_cons; [left; by left|].
      destruct (IH3 c' Hin); [left; by right|by right].
  - destruct (nextColor s) as [c s'] eqn:Hn. csimpl.
    pose proof (length_omap_le rv_color vs) as Hle.
    destruct (nextColor_fresh s c s' Hn) as [Hfresh Hused];
      [apply colour_free; [done|lia]|].
    destruct (IH (S i) s') as (IH1 & IH2 & IH3).
    { rewrite Hused. apply NoDup_app. split; [done|]. split; [|apply NoDup_singleton].
      intros x Hx ->%list_elem_of_singleton. done. }
    { done. }
    { intros c' Hc'. rewrite Hused. apply elem_of_app. left. by apply Hsub. }
    { rewrite Hused, length_app. simpl. lia. }
    split; [|split; [by rewrite IH2|]].
    + apply NoDup_cons. split; [|done]. intros Hin.
      destruct (IH3 c Hin) as [Hin'|Hn'].
      * apply Hfresh, Hsub, Hin'.
      * apply Hn'. rewrite Hused. apply elem_of_app. right. by left.
    + intros c' [->|Hin]%elem_of_cons; [by right|].
      destruct (IH3 c' Hin) as [?|Hn']; [by left|]. right.
      intros Hin'. apply Hn'. rewrite Hused. apply elem_of_app. by left.
Qed.

(** X15. With at most four vehicles whose given colours are pairwise
    distinct, hydration leaves every vehicle with a colour and no two
    vehicles with the same one. *)
Theorem hydrated_colours_distinct (raw : RawPuzzle) (id : string) (p : Puzzle) :
  hydratePuzzle raw id = Some p →
  (length (r_vehicles raw) ≤ 4)%nat →
  NoDup (omap rv_color (r_vehicles raw)) →
  NoDup (omap v_color (vehicles p))
  ∧ length (omap v_color (vehicles p)) = length (vehicles p).
Proof.
  unfold hydratePuzzle.
  destruct (deduceExitDirection _ _) as [d|]; simpl; [|done].
  intros [= <-] Hlen Hnd. simpl.
  assert (Hinit : usedColors (initialColors (r_vehicles raw))
                  = omap rv_color (r_vehicles raw)).
  { unfold initialColors. simpl. by rewrite (initialColors_go []). }
  destruct (hydrateVehicles_colours 0 (initialColors (r_vehicles raw))
              (r_vehicles raw)) as (H1 & H2 & _);
    rewrite ?Hinit; try done; [lia|].
  split; [done|]. by rewrite H2, hydrateVehicles_length.
Qed.

Lemma hydrated_colours_distinct_witness :
  (∃ p, hydratePuzzle rawColours "colours" = Some p
        ∧ omap v_color (vehicles p) = [Green; Yellow; Blue; Purple])
  ∧ (length (r_vehicles rawColours) ≤ 4)%nat
  ∧ NoDup (omap rv_color (r_vehicles rawColours))
  ∧ ∀ p, hydratePuzzle rawColours "colours" = Some p →
         NoDup (omap v_color (vehicles p)).
Proof.
  split; [eexists; split; vm_compute; reflexivity|].
  split; [simpl; lia|].
  assert (Hnd : NoDup (omap rv_color (r_vehicles rawColours)))
    by (simpl; apply NoDup_singleton).
  split; [exact Hnd|].
  intros p Hp.
  apply (hydrated_colours_distinct rawColours "colours" p Hp); [simpl; lia|exact Hnd].
Defined.

(** *** The exit *)

(** X16. For an exit inside the grid, hydration throws exactly when the
    exit is not on the periphery; on the periphery it yields a template
    whose exit is that cell, with the direction of the rule: last column,
    right; else column 0, left; else last row, down; else up. *)
Theorem hydratePuzzle_exit_in_grid (raw : RawPuzzle) (id : string) :
  0 ≤ row (r_exit raw) < rows (r_gridSize raw) →
  0 ≤ col (r_exit raw) < cols (r_gridSize raw) →
  (hydratePuzzle raw id = None ↔ ¬ onPeriphery (r_gridSize raw) (r_exit raw))
  ∧ (onPeriphery (r_gridSize raw) (r_exit raw) →
     ∃ p, hydratePuzzle raw id = Some p
       ∧ exit p = {| e_row := row (r_exit raw); e_col := col (r_exit raw);
                     direction := peripheryDirection (r_gridSize raw) (r_exit raw) |}).
Proof.
  intros Hr Hc.
  destruct (deduceExitDirection_in_grid (r_gridSize raw) (r_exit raw) Hr Hc)
    as [Hon Hoff].
  unfold hydratePuzzle. split; [split|].
  - intros Hnone Hper. rewrite (Hon Hper) in Hnone. done.
  - intros Hper. by rewrite (Hoff Hper).
  - intros Hper. rewrite (Hon Hper). simpl. eauto.
Qed.

Lemma hydratePuzzle_exit_in_grid_witness :
  0 ≤ row (r_exit rawBlocked) < rows (r_gridSize rawBlocked)
  ∧ 0 ≤ col (r_exit rawBlocked) < cols (r_gridSize rawBlocked)
  ∧ onPeriphery (r_gridSize rawBlocked) (r_exit rawBlocked)
  ∧ ∃ p, hydratePuzzle rawBlocked "blocked" = Some p
      ∧ exit p = {| e_row := 1; e_col := 3; direction := Right |}.
Proof.
  assert (Hr : 0 ≤ row (r_exit rawBlocked) < rows (r_gridSize rawBlocked))
    by (simpl; lia).
  assert (Hc : 0 ≤ col (r_exit rawBlocked) < cols (r_gridSize rawBlocked))
    by (simpl; lia).
  assert (Hper : onPeriphery (r_gridSize rawBlocked) (r_exit rawBlocked))
    by (unfold onPeriphery; simpl; lia).
  split; [exact Hr|]. split; [exact Hc|]. split; [exact Hper|].
  exact (proj2 (hydratePuzzle_exit_in_grid rawBlocked "blocked" Hr Hc) Hper).
Defined.

(** ** Further properties of the rotation *)

Lemma image_inj R c1 c2 : image R c1 = image R c2 → c1 = c2.
Proof. destruct c1, c2. unfold image. simpl. intros [= ? ?]. f_equal; lia. Qed.

Lemma image_bounds R C c :
  (0 ≤ (image R c).1 < C ∧ 0 ≤ (image R c).2 < R) ↔ (0 ≤ c.1 < R ∧ 0 ≤ c.2 < C).
Proof. destruct c. unfold image. simpl. lia. Qed.

(** The invariants pass through the cell map, both ways. *)
Lemma PlacementInv_image gs obs css css' :
  Forall2 (λ cs cs', ∀ c, c ∈ cs' ↔ ∃ c0, c0 ∈ cs ∧ c = image (rows gs) c0) css css' →
  PlacementInv gs obs css
  ↔ PlacementInv {| rows := cols gs; cols := rows gs |} (image (rows gs) <$> obs) css'.
Proof.
  intros Hf. split; intros [Hb Hv Ho]; split; simpl.
  - intros cs' c Hin Hc. apply list_elem_of_lookup in Hin as [i Hi].
    destruct (Forall2_lookup_r _ _ _ _ _ Hf Hi) as (cs & Hcs & Hrel).
    destruct (proj1 (Hrel c) Hc) as (c0 & Hc0 & Heq0). subst c.
    apply image_bounds, (Hb cs); [by eapply list_elem_of_lookup_2|done].
  - intros i j a' b' c Hij Ha Hb' Hc Hcb.
    destruct (Forall2_lookup_r _ _ _ _ _ Hf Ha) as (a & Ha0 & Hrela).
    destruct (Forall2_lookup_r _ _ _ _ _ Hf Hb') as (b & Hb0 & Hrelb).
    destruct (proj1 (Hrela c) Hc) as (c0 & Hc0 & Heq0). subst c.
    destruct (proj1 (Hrelb _) Hcb) as (c1 & Hc1 & Heq). apply image_inj in Heq. subst c1.
    by eapply (Hv i j).
  - intros cs' c Hin Hc Hobs. apply list_elem_of_lookup in Hin as [i Hi].
    destruct (Forall2_lookup_r _ _ _ _ _ Hf Hi) as (cs & Hcs & Hrel).
    destruct (proj1 (Hrel c) Hc) as (c0 & Hc0 & Heq0). subst c.
    apply list_elem_of_fmap in Hobs as (o & Heq & Hobs).
    apply image_inj in Heq. subst o.
    eapply Ho; [|exact Hc0|exact Hobs]. by eapply list_elem_of_lookup_2.
  - intros cs c Hin Hc. apply list_elem_of_lookup in Hin as [i Hi].
    destruct (Forall2_lookup_l _ _ _ _ _ Hf Hi) as (cs' & Hcs' & Hrel).
    apply (image_bounds (rows gs) (cols gs)), (Hb cs');
      [by eapply list_elem_of_lookup_2|]. apply Hrel. eauto.
  - intros i j a b c Hij Ha Hb' Hc Hcb.
    destruct (Forall2_lookup_l _ _ _ _ _ Hf Ha) as (a' & Ha0 & Hrela).
    destruct (Forall2_lookup_l _ _ _ _ _ Hf Hb') as (b' & Hb0 & Hrelb).
    eapply (Hv i j _ _ (image (rows gs) c)); eauto;
      [apply Hrela|apply Hrelb]; eauto.
  - intros cs c Hin Hc Hobs. apply list_elem_of_lookup in Hin as [i Hi].
    destruct (Forall2_lookup_l _ _ _ _ _ Hf Hi) as (cs' & Hcs' & Hrel).
    eapply (Ho cs' (image (rows gs) c));
      [by eapply list_elem_of_lookup_2|apply Hrel; eauto|].
    apply list_elem_of_fmap. eauto.
Qed.

Lemma placementOf_rotated R v :
  placementOf
    {| rv_row := pl_row (rotateVehicle R (placementOf v));
       rv_col := pl_col (rotateVehicle R (placementOf v));
       rv_length := pl_length (rotateVehicle R (placementOf v));
       rv_orientation := pl_orientation (rotateVehicle R (placementOf v));
       rv_type := rv_type v; rv_color := rv_color v |}
  = rotateVehicle R (placementOf v).
Proof. unfold placementOf. simpl. by destruct (rotateVehicle _ _). Qed.

Lemma rawCells_rotate raw :
  Forall2 (λ cs cs', ∀ c, c ∈ cs' ↔ ∃ c0, c0 ∈ cs ∧ c = image (rows (r_gridSize raw)) c0)
          (rawCells raw) (rawCells (rotatePuzzle90CW raw)).
Proof.
  unfold rawCells. simpl. constructor.
  - apply rotateVehicle_Rotated.
  - rewrite <-!list_fmap_compose. apply Forall2_fmap, Forall_Forall2_diag, Forall_forall.
    intros v _. simpl. rewrite placementOf_rotated. apply rotateVehicle_Rotated.
Qed.

(** The rotated definition has every vehicle cell in its grid, no two
    vehicles sharing a cell and no vehicle on an obstacle exactly when the
    original has. *)
Lemma rawPlacementOk_rotate (raw : RawPuzzle) :
  rawPlacementOk (rotatePuzzle90CW raw) = rawPlacementOk raw.
Proof.
  apply eq_true_iff_eq. unfold rawPlacementOk. rewrite !placementOk_spec.
  rewrite (PlacementInv_image (r_gridSize raw) (rawObstacleCells raw)
             (rawCells raw) (rawCells (rotatePuzzle90CW raw)) (rawCells_rotate raw)).
  replace (rawObstacleCells (rotatePuzzle90CW raw))
    with (image (rows (r_gridSize raw)) <$> rawObstacleCells raw); [done|].
  unfold rawObstacleCells. simpl. by rewrite <-!list_fmap_compose.
Qed.

(** X18. For an exit in the grid that lies on at most one edge (not in a
    corner, and the grid more than one cell wide and high), rotating the
    definition turns the deduced direction a quarter clockwise, and
    hydration of the rotated definition throws exactly when hydration of
    the original does. *)
Theorem rotatePuzzle90CW_exit_direction (raw : RawPuzzle) :
  0 ≤ row (r_exit raw) < rows (r_gridSize raw) →
  0 ≤ col (r_exit raw) < cols (r_gridSize raw) →
  (edgeCount (r_gridSize raw) (r_exit raw) ≤ 1)%nat →
  deduceExitDirection (r_exit (rotatePuzzle90CW raw)) (r_gridSize (rotatePuzzle90CW raw))
  = turnCW <$> deduceExitDirection (r_exit raw) (r_gridSize raw).
Proof.
  destruct raw as [? ? [R C] [r c] ? ? ? ?]. simpl.
  unfold edgeCount, deduceExitDirection, rotatePos. simpl. intros Hr Hc.
  repeat case_decide; simpl; intros Hedge; try lia;
    repeat match goal with
           | |- context [(?a <=? ?b)] => destruct (Z.leb_spec a b)
           end; simpl; try done; lia.
Qed.

Lemma rotatePuzzle90CW_exit_direction_witness :
  0 ≤ row (r_exit rawBlocked) < rows (r_gridSize rawBlocked)
  ∧ 0 ≤ col (r_exit rawBlocked) < cols (r_gridSize rawBlocked)
  ∧ (edgeCount (r_gridSize rawBlocked) (r_exit rawBlocked) ≤ 1)%nat
  ∧ deduceExitDirection (r_exit (rotatePuzzle90CW rawBlocked))
                        (r_gridSize (rotatePuzzle90CW rawBlocked)) = Some Down.
Proof.
  split; [simpl; lia|]. split; [simpl; lia|]. split; [vm_compute; lia|].
  rewrite (rotatePuzzle90CW_exit_direction rawBlocked);
    [reflexivity|simpl; lia|simpl; lia|vm_compute; lia].
Defined.

(** *** Rotation and the engine *)

Lemma vehicleCells_placement w pl :
  v_orientation w = pl_orientation pl → v_length w = pl_length pl →
  vehicleCells w {| row := pl_row pl; col := pl_col pl |} = placementCells pl.
Proof.
  intros Ho Hl. unfold placementCells, vehicleCells, asVehicle, templatePos, cellAt.
  simpl. by rewrite Ho, Hl.
Qed.

(** The cells of the rotated vehicle at the rotated anchor are the images
    of the cells of the vehicle at its anchor. *)
Lemma vehicleCells_rotateAnchor R w w' pos c :
  v_orientation w' = flip (v_orientation w) → v_length w' = v_length w →
  c ∈ vehicleCells w' (rotateAnchor R (v_orientation w) (v_length w) pos)
  ↔ ∃ c0, c0 ∈ vehicleCells w pos ∧ c = image R c0.
Proof.
  intros Ho Hl.
  set (pl := {| pl_row := row pos; pl_col := col pos; pl_length := v_length w;
                pl_orientation := v_orientation w |}).
  pose proof (rotateVehicle_Rotated R pl) as [Hrl Hro _ Hcells].
  unfold rotateAnchor. fold pl.
  rewrite (vehicleCells_placement w' (rotateVehicle R pl))
    by (rewrite ?Hro, ?Hrl; done).
  rewrite Hcells.
  replace (vehicleCells w pos) with (placementCells pl); [done|].
  rewrite <-(vehicleCells_placement w pl) by done. simpl. by destruct pos.
Qed.

Lemma rotateAnchor_inj R ori len pos1 pos2 :
  rotateAnchor R ori len pos1 = rotateAnchor R ori len pos2 → pos1 = pos2.
Proof.
  destruct pos1, pos2, ori; unfold rotateAnchor, rotateVehicle, rotatePos; simpl;
    intros [= ? ?]; f_equal; lia.
Qed.

Lemma geom_hydrated_player raw :
  geom {| v_id := "player"; v_row := pl_row (r_playerCar raw);
          v_col := pl_col (r_playerCar raw); v_length := pl_length (r_playerCar raw);
          v_orientation := pl_orientation (r_playerCar raw);
          v_type := None; v_color := None |} = r_playerCar raw.
Proof. unfold geom. simpl. by destruct (r_playerCar raw). Qed.

Lemma hydrateVehicles_geom i s vs k rv v :
  vs !! k = Some rv → hydrateVehicles i s vs !! k = Some v →
  v_id v = "vehicle-" +:+ pretty (i + k)%nat ∧ geom v = placementOf rv.
Proof.
  intros Hk Hv.
  destruct (hydrateVehicles_lookup i s vs k rv Hk)
    as (v0 & Hv0 & Hid & Hr & Hc & Hl & Ho & _).
  assert (v0 = v) as -> by congruence. split; [done|].
  unfold geom, placementOf. by rewrite Hr, Hc, Hl, Ho.
Qed.

Lemma hydratePuzzle_Some raw id p :
  hydratePuzzle raw id = Some p →
  ∃ d, deduceExitDirection (r_exit raw) (r_gridSize raw) = Some d
    ∧ p = hydratedWith raw id d.
Proof.
  unfold hydratePuzzle.
  destruct (deduceExitDirection _ _) as [d|]; simpl; [|done].
  intros [= <-]. by exists d.
Qed.

(** The vehicles of the hydrated rotation, index by index. *)
Lemma hydrated_rotation_vehicles raw id id' p p' k v :
  hydratePuzzle raw id = Some p →
  hydratePuzzle (rotatePuzzle90CW raw) id' = Some p' →
  allVehicles p !! k = Some v →
  entityOf raw (v_id v) = Some (geom v)
  ∧ ∃ v', allVehicles p' !! k = Some v' ∧ v_id v' = v_id v
      ∧ geom v' = rotateVehicle (rows (r_gridSize raw)) (geom v).
Proof.
  intros (d & _ & ->)%hydratePuzzle_Some (d' & _ & ->)%hydratePuzzle_Some. unfold allVehicles. simpl.
  destruct k as [|k]; simpl.
  - intros [= <-]. rewrite geom_hydrated_player. split.
    { done. }
    eexists. split; [done|]. split; [done|].
    unfold geom. simpl. by destruct (rotateVehicle _ _).
  - intros Hv.
    destruct (lookup_lt_is_Some_2 (r_vehicles raw) k) as [rv Hrv].
    { rewrite <-(hydrateVehicles_length 0 (initialColors (r_vehicles raw))).
      by eapply lookup_lt_Some. }
    destruct (hydrateVehicles_geom _ _ _ _ _ _ Hrv Hv) as [Hid Hg].
    change (0 + k)%nat with k in Hid.
    split.
    { unfold entityOf. rewrite Hid, decide_False by done.
      by rewrite vehicleByMoveId_hydrated, Hrv, Hg. }
    set (vs' := (λ v0, _) <$> r_vehicles raw).
    assert (Hrv' : vs' !! k = Some
              {| rv_row := pl_row (rotateVehicle (rows (r_gridSize raw)) (placementOf rv));
                 rv_col := pl_col (rotateVehicle (rows (r_gridSize raw)) (placementOf rv));
                 rv_length := pl_length (rotateVehicle (rows (r_gridSize raw)) (placementOf rv));
                 rv_orientation :=
                   pl_orientation (rotateVehicle (rows (r_gridSize raw)) (placementOf rv));
                 rv_type := rv_type rv; rv_color := rv_color rv |})
      by (unfold vs'; by rewrite list_lookup_fmap, Hrv).
    destruct (hydrateVehicles_lookup 0 (initialColors vs') vs' k _ Hrv')
      as (v' & Hv' & _).
    destruct (hydrateVehicles_geom _ _ _ _ _ _ Hrv' Hv') as [Hid' Hg'].
    change (0 + k)%nat with k in Hid'.
    exists v'. split; [done|]. split; [congruence|].
    by rewrite Hg', Hg, placementOf_rotated.
Qed.

Lemma hydrated_rotation_length raw id id' p p' :
  hydratePuzzle raw id = Some p →
  hydratePuzzle (rotatePuzzle90CW raw) id' = Some p' →
  length (allVehicles p') = length (allVehicles p).
Proof.
  intros (d & _ & ->)%hydratePuzzle_Some (d' & _ & ->)%hydratePuzzle_Some. unfold allVehicles. simpl.
  by rewrite !hydrateVehicles_length, length_fmap.
Qed.

Lemma hydrated_rotation_static raw id id' p p' :
  hydratePuzzle raw id = Some p →
  hydratePuzzle (rotatePuzzle90CW raw) id' = Some p' →
  gridSize p' = {| rows := cols (gridSize p); cols := rows (gridSize p) |}
  ∧ rows (gridSize p) = rows (r_gridSize raw)
  ∧ obstacleCell <$> obstacles p'
    = image (rows (r_gridSize raw)) <$> (obstacleCell <$> obstacles p)
  ∧ (e_row (exit p'), e_col (exit p'))
    = image (rows (r_gridSize raw)) (e_row (exit p), e_col (exit p))
  ∧ validation p' = fmap (M:=list) (rotateMove raw) <$> validation p.
Proof.
  intros (d & _ & ->)%hydratePuzzle_Some (d' & _ & ->)%hydratePuzzle_Some. simpl. split_and!; try done.
  generalize 0%nat. induction (r_obstacles raw) as [|o os IH]; intros i; [done|].
  simpl. by rewrite IH.
Qed.

(** The engine on a template and on its quarter turn, side by side. *)
Section rotation_simulation.
Variables (R : Z) (p p' : Puzzle) (rot : PuzzleMove → PuzzleMove).
Hypothesis Hnd : distinctIds p.
Hypothesis Hnd' : distinctIds p'.
Hypothesis Hlen : length (allVehicles p') = length (allVehicles p).
Hypothesis Hveh : ∀ k v, allVehicles p !! k = Some v →
    ∃ v', allVehicles p' !! k = Some v' ∧ v_id v' = v_id v
      ∧ v_length v' = v_length v ∧ v_orientation v' = flip (v_orientation v)
      ∧ templatePos v' = rotateAnchor R (v_orientation v) (v_length v) (templatePos v).
Hypothesis Hgrid : gridSize p' = {| rows := cols (gridSize p); cols := R |}.
Hypothesis HR : rows (gridSize p) = R.
Hypothesis Hobs :
    obstacleCell <$> obstacles p' = image R <$> (obstacleCell <$> obstacles p).
Hypothesis Hexit :
    (e_row (exit p'), e_col (exit p')) = image R (e_row (exit p), e_col (exit p)).
Hypothesis Hdir : direction (exit p') = turnCW (direction (exit p)).
Hypothesis Hrot_id : ∀ m, vehicleId (rot m) = vehicleId m.
Hypothesis Hrot_target : ∀ m v, v ∈ allVehicles p → v_id v = vehicleId m →
    target (rot m) = rotateAnchor R (v_orientation v) (v_length v) (target m).

Lemma twin_of v :
  v ∈ allVehicles p →
  ∃ v', v' ∈ allVehicles p' ∧ v_id v' = v_id v ∧ v_length v' = v_length v
    ∧ v_orientation v' = flip (v_orientation v).
Proof.
  intros [k Hk]%list_elem_of_lookup.
  destruct (Hveh k v Hk) as (v' & Hk' & Hid & Hl & Ho & _).
  exists v'. split; [by eapply list_elem_of_lookup_2|done].
Qed.

Lemma twin_back v' :
  v' ∈ allVehicles p' →
  ∃ v, v ∈ allVehicles p ∧ v_id v' = v_id v ∧ v_length v' = v_length v
    ∧ v_orientation v' = flip (v_orientation v).
Proof.
  intros [k Hk']%list_elem_of_lookup.
  destruct (lookup_lt_is_Some_2 (allVehicles p) k) as [v Hk].
  { rewrite <-Hlen. by eapply lookup_lt_Some. }
  destruct (Hveh k v Hk) as (v0 & Hk0 & Hid & Hl & Ho & _).
  assert (v0 = v') as -> by congruence.
  exists v. split; [by eapply list_elem_of_lookup_2|done].
Qed.

Lemma Mirrors_positioned e e' :
  Mirrors R p p' e e' → Positioned (state e) ∧ Positioned (state e').
Proof.
  intros (Hp & Hp' & Hm). split; intros w Hw.
  - rewrite Hp in Hw. destruct (Hm w Hw) as (pos & -> & _). eauto.
  - rewrite Hp' in Hw. destruct (twin_back w Hw) as (v & Hv & Hid & _).
    destruct (Hm v Hv) as (pos & _ & Hpos'). rewrite Hid, Hpos'. eauto.
Qed.

Lemma Mirrors_getVehicle e e' id v :
  Mirrors R p p' e e' → getVehicle e id = Some v →
  v ∈ allVehicles p ∧ v_id v = id
  ∧ ∃ v', getVehicle e' id = Some v' ∧ v_length v' = v_length v
      ∧ v_orientation v' = flip (v_orientation v).
Proof.
  intros (Hp & Hp' & Hm) [Hv Hid]%getVehicle_Some. rewrite Hp in Hv.
  split; [done|]. split; [done|].
  destruct (twin_of v Hv) as (v' & Hv' & Hid' & Hl & Ho).
  exists v'. split; [|done]. rewrite <-Hid, <-Hid'.
  apply getVehicle_distinct; by rewrite Hp'.
Qed.

Lemma Mirrors_getVehicle_None e e' id :
  Mirrors R p p' e e' → getVehicle e id = None → getVehicle e' id = None.
Proof.
  intros (Hp & Hp' & Hm) Hg.
  destruct (getVehicle e' id) as [v'|] eqn:Hg'; [|done].
  apply getVehicle_Some in Hg' as [Hv' Hid']. rewrite Hp' in Hv'.
  destruct (twin_back v' Hv') as (v & Hv & Hid & _).
  destruct (getVehicle_None e id v Hg); [by rewrite Hp|congruence].
Qed.

Lemma rotateAnchor_axis ori len pos1 pos2 :
  (flip ori = Horizontal →
     row (rotateAnchor R ori len pos1) = row (rotateAnchor R ori len pos2))
  ∧ (flip ori = Vertical →
     col (rotateAnchor R ori len pos1) = col (rotateAnchor R ori len pos2))
  ↔ (ori = Horizontal → row pos1 = row pos2)
    ∧ (ori = Vertical → col pos1 = col pos2).
Proof.
  destruct ori; unfold rotateAnchor, rotateVehicle, rotatePos; simpl;
    (split; intros [H1 H2]; split; intros H; try done;
     [specialize (H2 eq_refl) || specialize (H1 eq_refl); lia..]).
Qed.

Lemma Mirrors_legal e e' id v newPos :
  Mirrors R p p' e e' → getVehicle e id = Some v →
  legalMove e' id (rotateAnchor R (v_orientation v) (v_length v) newPos)
  ↔ legalMove e id newPos.
Proof.
  intros Hmir Hg.
  destruct (Mirrors_getVehicle e e' id v Hmir Hg)
    as (Hv & Hid & v' & Hg' & Hl & Ho).
  destruct Hmir as (Hp & Hp' & Hm).
  destruct (Hm v Hv) as (cur & Hcur & Hcur'). rewrite Hid in Hcur, Hcur'.
  pose proof (vehicleCells_rotateAnchor R v v' newPos) as Hcells.
  assert (Hothers : ∀ c0,
    (∀ w' pos', w' ∈ allVehicles p' → v_id w' ≠ id →
       vehiclePositions (state e') !! v_id w' = Some pos' →
       image R c0 ∉ vehicleCells w' pos')
    ↔ (∀ w pos, w ∈ allVehicles p → v_id w ≠ id →
       vehiclePositions (state e) !! v_id w = Some pos →
       c0 ∉ vehicleCells w pos)).
  { intros c0. split.
    - intros H w pos Hw Hne Hpos Hin.
      destruct (twin_of w Hw) as (w' & Hw' & Hidw & Hlw & How).
      destruct (Hm w Hw) as (pos0 & Hpos0 & Hpos').
      assert (pos0 = pos) as -> by congruence.
      rewrite <-Hidw in Hpos'.
      apply (H w' _ Hw' ltac:(congruence) Hpos').
      apply (vehicleCells_rotateAnchor R w w'); [done..|]. by exists c0.
    - intros H w' pos' Hw' Hne Hpos' Hin.
      destruct (twin_back w' Hw') as (w & Hw & Hidw & Hlw & How).
      destruct (Hm w Hw) as (pos & Hpos & Hpos0).
      rewrite Hidw in Hpos', Hne.
      assert (pos' = rotateAnchor R (v_orientation w) (v_length w) pos)
        as -> by congruence.
      apply (vehicleCells_rotateAnchor R w w') in Hin as (c1 & Hc1 & Heq);
        [|done..].
      apply image_inj in Heq as ->. by apply (H w pos Hw Hne Hpos). }
  assert (Hobst : ∀ c0,
    image R c0 ∈ obstacleCell <$> obstacles p'
    ↔ c0 ∈ obstacleCell <$> obstacles p).
  { intros c0. rewrite Hobs. split.
    - intros (c1 & Heq & Hc1)%list_elem_of_fmap.
      by apply image_inj in Heq as ->.
    - intros Hc0. apply list_elem_of_fmap. by exists c0. }
  assert (Hbounds : ∀ c0,
    (0 ≤ (image R c0).1 < rows (gridSize p')
     ∧ 0 ≤ (image R c0).2 < cols (gridSize p'))
    ↔ (0 ≤ c0.1 < rows (gridSize p) ∧ 0 ≤ c0.2 < cols (gridSize p))).
  { intros c0. rewrite Hgrid, HR. simpl. apply image_bounds. }
  unfold legalMove. rewrite Hp, Hp'. split.
  - intros (v0 & cur0 & Hg0 & Hcur0 & Hh & Hvt & Hall).
    assert (v0 = v') as -> by congruence.
    assert (cur0 = rotateAnchor R (v_orientation v) (v_length v) cur)
      as -> by congruence.
    exists v, cur. split; [done|]. split; [done|].
    rewrite Ho in Hh, Hvt.
    destruct (proj1 (rotateAnchor_axis (v_orientation v) (v_length v) newPos cur)
                (conj Hh Hvt)) as [Hh0 Hv0].
    split; [done|]. split; [done|].
    intros c0 Hc0.
    destruct (Hall (image R c0)) as (Hb & Hoth & Hob).
    { apply Hcells; [done..|]. by exists c0. }
    split; [by apply Hbounds|]. split; [by apply Hothers|].
    intros Hin. apply Hob. by apply Hobst.
  - intros (v0 & cur0 & Hg0 & Hcur0 & Hh & Hvt & Hall).
    assert (v0 = v) as -> by congruence.
    assert (cur0 = cur) as -> by congruence.
    exists v', (rotateAnchor R (v_orientation v) (v_length v) cur).
    split; [done|]. split; [done|]. rewrite Ho.
    destruct (proj2 (rotateAnchor_axis (v_orientation v) (v_length v) newPos cur)
                (conj Hh Hvt)) as [Hh0 Hv0].
    split; [done|]. split; [done|].
    intros c Hc. apply Hcells in Hc as (c0 & Hc0 & ->); [|done..].
    destruct (Hall c0 Hc0) as (Hb & Hoth & Hob).
    split; [by apply Hbounds|]. split; [by apply Hothers|].
    intros Hin. apply Hob. by apply Hobst.
Qed.

Lemma Mirrors_checkWin e e' : Mirrors R p p' e e' → checkWin e' = checkWin e.
Proof.
  intros (Hp & Hp' & Hm).
  destruct (Hveh 0%nat (playerCar p) eq_refl) as (v' & [= <-] & Hid & Hl & Ho & _).
  destruct (Hm (playerCar p)) as (pos & Hpos & Hpos'); [by left|].
  unfold checkWin. rewrite Hp, Hp', Hid, Hl, Ho, Hdir, Hpos, Hpos'.
  injection Hexit as Her Hec. rewrite Her, Hec.
  destruct pos as [r c].
  destruct (v_orientation (playerCar p)), (direction (exit p));
    unfold rotateAnchor, rotateVehicle, rotatePos; simpl; try done; f_equal;
    apply eq_true_iff_eq; rewrite !andb_true_iff, !Z.eqb_eq; lia.
Qed.

Lemma Mirrors_setPosition e e' id v newPos :
  Mirrors R p p' e e' → v ∈ allVehicles p → v_id v = id →
  Mirrors R p p' (setPosition id newPos e)
    (setPosition id (rotateAnchor R (v_orientation v) (v_length v) newPos) e').
Proof.
  intros (Hp & Hp' & Hm) Hv Hid. split; [done|]. split; [done|].
  intros w Hw. simpl. destruct (decide (v_id w = id)) as [Heq|Hne].
  - assert (w = v) as -> by (apply (distinctIds_elem p); congruence).
    exists newPos. rewrite Hid. by rewrite !lookup_insert_eq.
  - rewrite !lookup_insert_ne by done. by apply Hm.
Qed.

Lemma Mirrors_moveVehicle e e' m :
  Mirrors R p p' e e' → isComplete (state e') = isComplete (state e) →
  ∃ b e1 e1',
    moveVehicle e (vehicleId m) (target m) = Some (b, e1)
    ∧ moveVehicle e' (vehicleId (rot m)) (target (rot m)) = Some (b, e1')
    ∧ Mirrors R p p' e1 e1'
    ∧ isComplete (state e1') = isComplete (state e1).
Proof.
  intros Hmir Hc. rewrite Hrot_id.
  destruct (getVehicle e (vehicleId m)) as [v|] eqn:Hg.
  2:{ pose proof (Mirrors_getVehicle_None e e' _ Hmir Hg) as Hg'.
      exists false, e, e'. unfold moveVehicle, canMove. by rewrite Hg, Hg'. }
  destruct (Mirrors_getVehicle e e' _ v Hmir Hg) as (Hv & Hid & _).
  rewrite (Hrot_target m v Hv Hid).
  pose proof (Mirrors_legal e e' _ v (target m) Hmir Hg) as Hlegal.
  destruct (Mirrors_positioned e e' Hmir) as [Hpos Hpos'].
  destruct (proj2 (proj2 Hmir) v Hv) as (cur & Hcur & Hcur').
  rewrite Hid in Hcur, Hcur'.
  set (tp := rotateAnchor R (v_orientation v) (v_length v) (target m)) in *.
  assert (Hsame : vehiclePositions (state e') !! vehicleId m = Some tp
                  ↔ vehiclePositions (state e) !! vehicleId m = Some (target m)).
  { rewrite Hcur, Hcur'. split; intros Heq.
    - f_equal. apply (rotateAnchor_inj R (v_orientation v) (v_length v)).
      unfold tp in Heq. congruence.
    - assert (cur = target m) as -> by congruence. done. }
  destruct (moveVehicle_cases e (vehicleId m) (target m) Hpos)
    as [[Heq Hwhy]|(won & Hl & Hne & Hwon & Heq)];
  destruct (moveVehicle_cases e' (vehicleId m) tp Hpos')
    as [[Heq' Hwhy']|(won' & Hl' & Hne' & Hwon' & Heq')].
  - exists false, e, e'. by rewrite Heq, Heq'.
  - exfalso. destruct Hwhy as [Hnl|Hat].
    + by apply Hnl, Hlegal.
    + by apply Hne', Hsame.
  - exfalso. destruct Hwhy' as [Hnl|Hat].
    + by apply Hnl, Hlegal.
    + by apply Hne, Hsame.
  - pose proof (Mirrors_setPosition e e' _ v (target m) Hmir Hv Hid) as Hmir1.
    fold tp in Hmir1.
    assert (won' = won) as ->.
    { apply Mirrors_checkWin in Hmir1. congruence. }
    eexists true, _, _. rewrite Heq, Heq'. split; [done|]. split; [done|].
    destruct Hmir1 as (Hp1 & Hp1' & Hm1).
    destruct won; simpl; (split; [by split_and!|done]).
Qed.

Lemma Mirrors_replay ms : ∀ e e' i,
  Mirrors R p p' e e' → isComplete (state e') = isComplete (state e) →
  ∃ r e1 e1',
    replay e ms i = Some (r, e1) ∧ replay e' (rot <$> ms) i = Some (r, e1')
    ∧ isComplete (state e1') = isComplete (state e1).
Proof.
  induction ms as [|m ms IH]; intros e e' i Hmir Hc; simpl.
  { by exists None, e, e'. }
  destruct (Mirrors_moveVehicle e e' m Hmir Hc)
    as (b & e1 & e1' & Hm & Hm' & Hmir1 & Hc1).
  fold (target m) (target (rot m)). rewrite Hm, Hm'. simpl.
  destruct b; [by apply IH|].
  by exists (Some i), e1, e1'.
Qed.

Lemma Mirrors_fresh : Mirrors R p p' (newEngine p) (newEngine p').
Proof.
  split; [done|]. split; [done|]. intros w Hw. simpl.
  exists (templatePos w). split; [by apply initState_lookup|].
  apply list_elem_of_lookup in Hw as [k Hk].
  destruct (Hveh k w Hk) as (w' & Hk' & Hid & _ & _ & <-).
  rewrite <-Hid. apply initState_lookup; [done|].
  by eapply list_elem_of_lookup_2.
Qed.

Lemma rotation_simulation_validate :
  validation p' = fmap (M:=list) rot <$> validation p →
  validatePuzzle p' = validatePuzzle p.
Proof.
  intros Hval. unfold validatePuzzle. rewrite Hval.
  destruct (validation p) as [[|m ms]|]; simpl; [done| |done].
  destruct (Mirrors_replay (m :: ms) (newEngine p) (newEngine p') 0
              Mirrors_fresh eq_refl) as (r & e1 & e1' & Hr & Hr' & Hc).
  simpl in Hr, Hr'. rewrite Hr, Hr'. simpl.
  destruct r; [done|]. unfold getState. rewrite Hc.
  by rewrite length_fmap.
Qed.

End rotation_simulation.

(** *** Rotation, hydration and validation *)

Lemma hydrateVehicles_cells i s vs :
  (λ v, vehicleCells v (templatePos v)) <$> hydrateVehicles i s vs
  = (λ rv, placementCells (placementOf rv)) <$> vs.
Proof.
  revert i s. induction vs as [|rv vs IH]; intros i s; simpl; [done|].
  destruct (rv_color rv); [|destruct (nextColor s)]; simpl; f_equal; apply IH.
Qed.

Lemma hydrateObstacles_cells i os :
  obstacleCell <$> hydrateObstacles i os = (λ o, (ro_row o, ro_col o)) <$> os.
Proof.
  revert i. induction os as [|o os IH]; intros i; simpl; [done|]. f_equal. apply IH.
Qed.

(** The placement a hydrated template prescribes is the one of the
    definition it was hydrated from. *)
Lemma hydrated_templateOk raw id p :
  hydratePuzzle raw id = Some p → templateOk p = rawPlacementOk raw.
Proof.
  intros (d & _ & ->)%hydratePuzzle_Some.
  unfold templateOk, rawPlacementOk, rawCells, rawObstacleCells, allVehicles. simpl.
  rewrite hydrateVehicles_cells, hydrateObstacles_cells.
  by rewrite <-list_fmap_compose.
Qed.

Lemma hydratePuzzle_None raw id :
  hydratePuzzle raw id = None
  ↔ deduceExitDirection (r_exit raw) (r_gridSize raw) = None.
Proof. unfold hydratePuzzle. by destruct (deduceExitDirection _ _). Qed.

(** X17. Rotation and hydration: hydrating the rotated definition throws
    exactly when hydrating the original throws, whatever the identities
    given; and when both succeed the two templates have the same vehicle
    identities in the same order, and the rotated template satisfies the
    placement invariants (every vehicle cell in the grid, no two vehicles
    sharing a cell, no vehicle on an obstacle) exactly when the original
    does. *)
Theorem rotatePuzzle90CW_placement (raw : RawPuzzle) (id id' : string) :
  (hydratePuzzle (rotatePuzzle90CW raw) id' = None ↔ hydratePuzzle raw id = None)
  ∧ ∀ p p', hydratePuzzle raw id = Some p →
      hydratePuzzle (rotatePuzzle90CW raw) id' = Some p' →
      v_id <$> allVehicles p' = v_id <$> allVehicles p
      ∧ templateOk p' = templateOk p.
Proof.
  split.
  - rewrite !hydratePuzzle_None, !deduceExitDirection_None.
    destruct raw as [? ? [R C] [r c] ? ? ? ?]. unfold rotatePos. simpl. lia.
  - intros p p' Hp Hp'. split.
    + apply hydratePuzzle_Some in Hp as (d & _ & ->).
      apply hydratePuzzle_Some in Hp' as (d' & _ & ->).
      unfold allVehicles. simpl. f_equal.
      by rewrite !hydrateVehicles_ids, length_fmap.
    + rewrite (hydrated_templateOk _ _ _ Hp), (hydrated_templateOk _ _ _ Hp').
      apply rawPlacementOk_rotate.
Qed.

(** X19. Rotation and validation: when the direction deduced for the
    rotated exit is the original direction turned a quarter clockwise,
    [validatePuzzle] gives the hydrated rotated definition the very result
    it gives the hydrated original: valid with the same par, or invalid
    with the same error, at the same step. *)
Theorem rotatePuzzle90CW_validation (raw : RawPuzzle) (id id' : string)
    (p p' : Puzzle) :
  hydratePuzzle raw id = Some p →
  hydratePuzzle (rotatePuzzle90CW raw) id' = Some p' →
  direction (exit p') = turnCW (direction (exit p)) →
  validatePuzzle p' = validatePuzzle p.
Proof.
  intros Hp Hp' Hdir.
  destruct (hydrated_rotation_static raw id id' p p' Hp Hp')
    as (Hgrid & HR & Hobs & Hexit & Hval).
  apply (rotation_simulation_validate (rows (r_gridSize raw)) p p' (rotateMove raw));
    try done.
  - by eapply hydratePuzzle_distinctIds.
  - by eapply hydratePuzzle_distinctIds.
  - by eapply hydrated_rotation_length.
  - intros k v Hk.
    destruct (hydrated_rotation_vehicles raw id id' p p' k v Hp Hp' Hk)
      as (_ & v' & Hk' & Hid & Hg).
    exists v'. split; [done|]. split; [done|].
    unfold geom in Hg.
    pose proof (f_equal pl_length Hg) as Hl.
    pose proof (f_equal pl_orientation Hg) as Ho.
    pose proof (f_equal pl_row Hg) as Hr.
    pose proof (f_equal pl_col Hg) as Hc.
    simpl in Hl, Ho, Hr, Hc.
    split; [by destruct (v_orientation v)|].
    split; [by destruct (v_orientation v)|].
    unfold templatePos, rotateAnchor. simpl. by rewrite Hr, Hc.
  - by rewrite <-HR.
  - intros m v [k Hk]%list_elem_of_lookup Hid.
    destruct (hydrated_rotation_vehicles raw id id' p p' k v Hp Hp' Hk)
      as (Hent & _).
    rewrite rotateMove_entity, <-Hid, Hent. done.
Qed.

Lemma rotatePuzzle90CW_validation_witness :
  hydratePuzzle rawBlocked "blocked" = Some blocked
  ∧ direction (exit (hydratedWith (rotatePuzzle90CW rawBlocked) "rotated" Down))
    = turnCW (direction (exit blocked))
  ∧ validatePuzzle (hydratedWith (rotatePuzzle90CW rawBlocked) "rotated" Down)
    = validatePuzzle blocked.
Proof.
  split; [vm_compute; reflexivity|]. split; [reflexivity|].
  apply (rotatePuzzle90CW_validation rawBlocked "blocked" "rotated");
    vm_compute; reflexivity.
Defined.

(** ** The history of a session as a validation trace *)

Lemma canMove_samePlay e1 e2 id newPos :
  samePlay (puzzle (state e1)) (puzzle (state e2)) →
  vehiclePositions (state e1) = vehiclePositions (state e2) →
  canMove e1 id newPos = canMove e2 id newPos.
Proof.
  intros (Hg & He & Hpc & Hvs & Hos) Hvp.
  unfold canMove, getVehicle, getOccupiedCells. cbv zeta.
  by rewrite Hg, Hpc, Hvs, Hos, Hvp.
Qed.

Lemma checkWin_samePlay e1 e2 :
  samePlay (puzzle (state e1)) (puzzle (state e2)) →
  vehiclePositions (state e1) = vehiclePositions (state e2) →
  checkWin e1 = checkWin e2.
Proof.
  intros (Hg & He & Hpc & Hvs & Hos) Hvp. unfold checkWin. cbv zeta.
  by rewrite He, Hpc, Hvp.
Qed.

Lemma moveVehicle_sameBoard e1 e2 id newPos b e1' :
  sameBoard e1 e2 → moveVehicle e1 id newPos = Some (b, e1') →
  ∃ e2', moveVehicle e2 id newPos = Some (b, e2') ∧ sameBoard e1' e2'.
Proof.
  intros (Hp & Hvp & Hc). unfold moveVehicle.
  rewrite (canMove_samePlay e1 e2) by done. rewrite Hvp.
  destruct (canMove e2 id newPos) as [[|]|]; simpl; [| |done].
  2:{ intros [= <- <-]. by exists e2. }
  destruct (vehiclePositions (state e2) !! id) as [cur|]; simpl; [|done].
  destruct ((row cur =? _) && _).
  { intros [= <- <-]. by exists e2. }
  rewrite (checkWin_samePlay (setPosition id newPos e1) (setPosition id newPos e2))
    by (simpl; by rewrite ?Hvp).
  destruct (checkWin (setPosition id newPos e2)) as [[|]|]; simpl; [| |done];
    intros [= <- <-]; eexists; (split; [done|]);
    split_and!; simpl; by rewrite ?Hvp.
Qed.

Lemma Applies_sameBoard e1 e2 ms e1' :
  sameBoard e1 e2 → Applies e1 ms e1' →
  ∃ e2', Applies e2 ms e2' ∧ sameBoard e1' e2'.
Proof.
  intros Hs Ha. revert e2 Hs.
  induction Ha as [e|e m ms ea eb Hm _ IH]; intros e2 Hs.
  - exists e2. split; [constructor|done].
  - destruct (moveVehicle_sameBoard _ _ _ _ _ _ Hs Hm) as (e2a & Hm2 & Hsa).
    destruct (IH e2a Hsa) as (e2b & Ha2 & Hsb).
    exists e2b. split; [|done]. by econstructor.
Qed.

Lemma Applies_snoc e ms e1 m e2 :
  Applies e ms e1 → moveVehicle e1 (vehicleId m) (target m) = Some (true, e2) →
  Applies e (ms ++ [m]) e2.
Proof.
  induction 1 as [e|e m0 ms ea eb Hm0 _ IH]; intros Hm; simpl.
  - econstructor; [done|constructor].
  - econstructor; [done|]. by apply IH.
Qed.

Lemma moveVehicle_refused e id newPos e' :
  moveVehicle e id newPos = Some (false, e') → e' = e.
Proof.
  unfold moveVehicle.
  destruct (canMove _ _ _) as [[|]|]; simpl; [|by intros [= <-]|done].
  destruct (vehiclePositions (state e) !! id) as [cur|]; simpl; [|done].
  destruct ((row cur =? _) && _); [by intros [= <-]|].
  by destruct (checkWin _) as [[|]|].
Qed.

(** The history replays, from a new engine, to the game the session is in. *)
Lemma run_history ops : ∀ e e',
  run e ops = Some e' →
  (∃ e0, Applies (newEngine (puzzle (state e))) (moveHistory e) e0 ∧ sameGame e0 e) →
  ∃ e0, Applies (newEngine (puzzle (state e'))) (moveHistory e') e0 ∧ sameGame e0 e'.
Proof.
  induction ops as [|op ops IH]; intros e e'; simpl; [by intros [= <-]|].
  destruct op as [id newPos|]; simpl.
  - destruct (moveVehicle e id newPos) as [[b e1]|] eqn:Hm; [|done]. simpl.
    intros Hrun (e0 & Ha & Hs). apply (IH e1 e' Hrun).
    rewrite (moveVehicle_puzzle _ _ _ _ _ Hm).
    destruct b.
    + pose proof (moveVehicle_sameGame e0 e id newPos Hs) as Hm0. rewrite Hm in Hm0.
      destruct (moveVehicle e0 id newPos) as [[b0 e0']|] eqn:Hm0'; [|done].
      destruct Hm0 as [-> Hs'].
      set (m := {| vehicleId := id; m_row := row newPos; m_col := col newPos |}).
      assert (Ht : target m = newPos) by by destruct newPos.
      exists e0'. split; [|done].
      replace (moveHistory e1) with (moveHistory e ++ [m]).
      * apply (Applies_snoc _ _ e0); [done|]. by rewrite Ht.
      * symmetry. apply (moveVehicle_applied e m e1). by rewrite Ht.
    + apply moveVehicle_refused in Hm as ->. by exists e0.
  - intros Hrun _. apply (IH (reset e) e' Hrun). simpl.
    exists (newEngine (puzzle (state e))). split; [constructor|done].
Qed.

(** X20. The history of a session is a validation trace of the game it
    is in. After any session on a new engine, replaying the move history
    from a new engine applies every move and ends in the same state with
    the same history; so on a template with the same board whose trace is
    that history, [validatePuzzle] answers: no validation provided when the
    history is empty, valid with par the move counter when the completion
    flag is set, and does not reach the win state otherwise; never an
    invalid move. *)
Theorem history_validates (p : Puzzle) (ops : list Op) (e : GameEngine) :
  run (newEngine p) ops = Some e →
  (∃ e0, Applies (newEngine p) (getMoveHistory e) e0 ∧ sameGame e0 e)
  ∧ moveCount (state e) = Z.of_nat (length (getMoveHistory e))
  ∧ ∀ p', samePlay p p' → validation p' = Some (getMoveHistory e) →
      validatePuzzle p'
      = Some (appliedResult (length (getMoveHistory e)) (isComplete (state e))).
Proof.
  intros Hrun. unfold getMoveHistory.
  destruct (run_history ops (newEngine p) e Hrun) as (e0 & Ha & Hs).
  { exists (newEngine p). split; [constructor|done]. }
  rewrite (proj1 (reached_positioned p ops e Hrun)) in Ha.
  split; [by exists e0|].
  split; [by apply (run_counter _ _ _ Hrun)|].
  intros p' Hsame Hval.
  destruct (Applies_sameBoard (newEngine p) (newEngine p') (moveHistory e) e0)
    as (e0' & Ha' & Hs'); [|done|].
  { split; [done|]. split; [|done]. simpl.
    destruct Hsame as (_ & _ & -> & -> & _). done. }
  unfold validatePuzzle. rewrite Hval.
  rewrite (Applies_replay _ _ _ 0 Ha').
  destruct Hs as [Hst _]. destruct Hs' as (_ & _ & Hc).
  destruct (moveHistory e) as [|m ms]; [done|]. simpl.
  unfold getState. rewrite <-Hc, Hst. by destruct (isComplete (state e)).
Qed.

Lemma history_validates_witness :
  run (newEngine tutorial) [OpReset; OpMove "player" {| row := 1; col := 1 |}]
  = Some tutorialWon
  ∧ validatePuzzle tutorial
    = Some {| isValid := true; par := Some 1; error := None |}.
Proof.
  split; [vm_compute; reflexivity|].
  apply (history_validates tutorial
           [OpReset; OpMove "player" {| row := 1; col := 1 |}] tutorialWon);
    [vm_compute; reflexivity|by repeat split|vm_compute; reflexivity].
Defined.

(** * Properties of the puzzle editor *)

(** ** The placement checks of the editor *)

Lemma occupiesCells_keys r c len ori :
  cellKey <$> occupiesCells r c len ori
  = placementCells {| pl_row := r; pl_col := c; pl_length := len;
                      pl_orientation := ori |}.
Proof.
  unfold occupiesCells, placementCells, vehicleCells. simpl.
  by rewrite <-list_fmap_compose.
Qed.

Lemma elem_of_occupy cells occ k :
  k ∈ occupy cells occ ↔ k ∈ occ ∨ k ∈ cellKey <$> cells.
Proof.
  unfold occupy. revert occ. induction cells as [|p cells IH]; intros occ; simpl.
  - rewrite elem_of_nil. tauto.
  - rewrite IH, elem_of_union, elem_of_singleton, elem_of_cons. tauto.
Qed.

Lemma elem_of_occupyVehicles i vs occ k :
  k ∈ occupyVehicles i (-1) vs occ
  ↔ k ∈ occ ∨ ∃ v, v ∈ vs ∧ k ∈ placementCells (placementOf v).
Proof.
  revert i occ. induction vs as [|v vs IH]; intros i occ; simpl.
  - split; [by left|]. intros [?|(v & Hv & _)]; [done|]. by apply elem_of_nil in Hv.
  - case_decide; [lia|]. rewrite IH, elem_of_occupy, occupiesCells_keys.
    fold (placementOf v). split.
    + intros [[?|?]|(w & Hw & ?)]; [by left|right..].
      * exists v. split; [by left|done].
      * exists w. split; [by right|done].
    + intros [?|(w & [->|Hw]%elem_of_cons & ?)]; [by left; left|by left; right|].
      right. by exists w.
Qed.

Lemma elem_of_occupyObstacles i os occ k :
  k ∈ occupyObstacles i (-1) os occ
  ↔ k ∈ occ ∨ k ∈ (λ o, (ro_row o, ro_col o)) <$> os.
Proof.
  revert i occ. induction os as [|o os IH]; intros i occ; simpl.
  - rewrite elem_of_nil. tauto.
  - case_decide; [lia|].
    rewrite IH, elem_of_union, elem_of_singleton, elem_of_cons. tauto.
Qed.

(** What a negative answer of [isOccupied] (with no index skipped) says
    of the cells asked about. *)
Lemma isOccupied_false ed r c len ori skipPlayer k :
  isOccupied ed r c len ori (-1) skipPlayer (-1) = false →
  k ∈ placementCells {| pl_row := r; pl_col := c; pl_length := len;
                        pl_orientation := ori |} →
  (skipPlayer = false → ∀ pc, ed_playerCar ed = Some pc → k ∉ placementCells pc)
  ∧ (∀ v, v ∈ ed_vehicles ed → k ∉ placementCells (placementOf v))
  ∧ k ∉ editorObstacles ed.
Proof.
  unfold isOccupied. intros Hocc Hk.
  rewrite <-occupiesCells_keys in Hk.
  apply list_elem_of_fmap in Hk as (pos & -> & Hpos).
  assert (Hnot : cellKey pos ∉
    occupyObstacles 0 (-1) (ed_obstacles ed)
      (occupyVehicles 0 (-1) (ed_vehicles ed)
         match ed_playerCar ed with
         | Some pc =>
           if negb skipPlayer
           then occupy (occupiesCells (pl_row pc) (pl_col pc) (pl_length pc)
                                      (pl_orientation pc)) ∅
           else ∅
         | None => ∅
         end)).
  { intros Hin. apply not_true_iff_false in Hocc. apply Hocc.
    apply existsb_exists. exists pos. split; [by apply list_elem_of_In|].
    by apply bool_decide_eq_true. }
  rewrite elem_of_occupyObstacles, elem_of_occupyVehicles in Hnot.
  split_and!.
  - intros -> pc Hpc Hin. apply Hnot. left. left. rewrite Hpc. simpl.
    apply elem_of_occupy. right. rewrite occupiesCells_keys. by destruct pc.
  - intros v Hv Hin. apply Hnot. left. right. by exists v.
  - intros Hin. apply Hnot. by right.
Qed.

Lemma fitsInGrid_inGrid ed r c len ori :
  fitsInGrid ed r c len ori
  = forallb (inGrid (ed_gridSize ed))
            (placementCells {| pl_row := r; pl_col := c; pl_length := len;
                               pl_orientation := ori |}).
Proof.
  unfold fitsInGrid. rewrite <-occupiesCells_keys.
  induction (occupiesCells r c len ori) as [|p ps IH]; simpl; [done|].
  rewrite IH. f_equal. unfold inGrid, cellKey. simpl.
  destruct (Z.leb_spec 0 (row p)), (Z.ltb_spec (row p) (rows (ed_gridSize ed))),
    (Z.leb_spec 0 (col p)), (Z.ltb_spec (col p) (cols (ed_gridSize ed))),
    (Z.ltb_spec (row p) 0), (Z.leb_spec (rows (ed_gridSize ed)) (row p)),
    (Z.ltb_spec (col p) 0), (Z.leb_spec (cols (ed_gridSize ed)) (col p));
    simpl; try done; lia.
Qed.

(** ** The placement invariants, piece by piece *)

Lemma pairwiseDisjoint_app l1 l2 :
  pairwiseDisjoint (l1 ++ l2) = true
  ↔ pairwiseDisjoint l1 = true ∧ pairwiseDisjoint l2 = true
    ∧ forallb (λ a, forallb (disjointb a) l2) l1 = true.
Proof.
  induction l1 as [|a l1 IH]; simpl; [tauto|].
  rewrite !andb_true_iff, forallb_app, andb_true_iff, IH. tauto.
Qed.

Lemma placementOk_app gs obs l1 l2 :
  placementOk gs obs (l1 ++ l2) = true
  ↔ placementOk gs obs l1 = true ∧ placementOk gs obs l2 = true
    ∧ forallb (λ a, forallb (disjointb a) l2) l1 = true.
Proof.
  unfold placementOk.
  rewrite !andb_true_iff, !forallb_app, !andb_true_iff, pairwiseDisjoint_app. tauto.
Qed.

Lemma placementOk_single gs obs cs :
  placementOk gs obs [cs] = true
  ↔ forallb (inGrid gs) cs = true ∧ disjointb cs obs = true.
Proof. unfold placementOk. simpl. rewrite !andb_true_iff. tauto. Qed.

Lemma forallb_sublist {A} (f : A → bool) l1 l2 :
  sublist l1 l2 → forallb f l2 = true → forallb f l1 = true.
Proof.
  induction 1 as [|x l1 l2 _ IH|x l1 l2 _ IH]; simpl; [done|..];
    rewrite ?andb_true_iff; tauto.
Qed.

Lemma pairwiseDisjoint_sublist l1 l2 :
  sublist l1 l2 → pairwiseDisjoint l2 = true → pairwiseDisjoint l1 = true.
Proof.
  induction 1 as [|x l1 l2 Hs IH|x l1 l2 _ IH]; simpl; [done|..];
    rewrite ?andb_true_iff; [|tauto].
  intros [H1 H2]. split; [by eapply forallb_sublist|auto].
Qed.

Lemma List_filter_sublist {A} (f : A → bool) l : sublist (List.filter f l) l.
Proof.
  induction l as [|x l IH]; simpl; [constructor|].
  destruct (f x); by constructor.
Qed.

Lemma disjointb_subseteq cs obs obs' :
  (∀ k, k ∈ obs' → k ∈ obs) → disjointb cs obs = true → disjointb cs obs' = true.
Proof. rewrite !disjointb_spec. intros Hsub H k Hk Hin. by apply (H k Hk), Hsub. Qed.

(** Fewer vehicles and fewer obstacles, all vehicles within a new grid. *)
Lemma placementOk_shrink gs gs' obs obs' css css' :
  sublist css' css → (∀ k, k ∈ obs' → k ∈ obs) →
  forallb (forallb (inGrid gs')) css' = true →
  placementOk gs obs css = true → placementOk gs' obs' css' = true.
Proof.
  unfold placementOk. rewrite !andb_true_iff.
  intros Hsub Hobs Hin [[_ Hpd] Hob]. split_and!; [done|..].
  - by eapply pairwiseDisjoint_sublist.
  - apply (forallb_sublist _ _ _ Hsub) in Hob.
    rewrite forallb_forall in Hob |- *. intros cs Hcs.
    eapply disjointb_subseteq; eauto.
Qed.

(** ** The editing methods keep the placement invariants *)

Lemma elem_of_option_list {A} (mx : option A) (x : A) :
  x ∈ option_list mx ↔ mx = Some x.
Proof.
  destruct mx as [y|]; simpl.
  - rewrite list_elem_of_singleton. split; [by intros ->|by intros [= ->]].
  - rewrite elem_of_nil. by split.
Qed.

Lemma editorOk_autoPlaceExit ed : editorOk (autoPlaceExit ed) = editorOk ed.
Proof.
  unfold autoPlaceExit. destruct (ed_playerCar ed) as [pc|] eqn:Hpc; [|done].
  destruct (pl_orientation pc); case_decide; unfold editorOk, editorCells; simpl;
    by rewrite Hpc.
Qed.

Lemma editorCells_vehicles ed a :
  a ∈ (λ v, placementCells (placementOf v)) <$> ed_vehicles ed →
  a ∈ editorCells ed.
Proof. intros Ha. unfold editorCells. apply elem_of_app. by right. Qed.

Lemma editorOk_placePlayer ed r c :
  editorOk ed = true → editorOk (placePlayer ed r c) = true.
Proof.
  intros Hok. unfold placePlayer.
  destruct (fitsInGrid ed r c 2 _) eqn:Hfit; simpl; [|done].
  destruct (isOccupied ed r c 2 _ _ _ _) eqn:Hocc; [done|].
  rewrite fitsInGrid_inGrid in Hfit.
  set (pl := {| pl_row := r; pl_col := c; pl_length := 2;
                pl_orientation := ed_playerOrientation ed |}).
  change (editorOk (autoPlaceExit (set_playerCar (Some pl) ed)) = true).
  rewrite editorOk_autoPlaceExit.
  unfold editorOk, editorCells in Hok |- *. simpl.
  apply placementOk_app in Hok as (_ & Hv & _).
  apply (placementOk_app _ _ [placementCells pl]). split_and!; [|done|].
  - apply placementOk_single. split; [exact Hfit|].
    apply disjointb_spec. intros k Hk.
    by destruct (isOccupied_false ed r c 2 _ true k Hocc Hk) as (_ & _ & ?).
  - simpl. rewrite andb_true_r. apply forallb_forall.
    intros b (v & -> & Hv')%list_elem_of_In%list_elem_of_fmap.
    apply disjointb_spec. intros k Hk.
    destruct (isOccupied_false ed r c 2 _ true k Hocc Hk) as (_ & Hveh & _).
    by apply Hveh.
Qed.

Lemma editorOk_placeVehicle ed r c :
  editorOk ed = true → editorOk (placeVehicle ed r c) = true.
Proof.
  intros Hok. unfold placeVehicle.
  destruct (fitsInGrid ed r c _ _) eqn:Hfit; simpl; [|done].
  destruct (isOccupied ed r c _ _ _ _ _) eqn:Hocc; [done|].
  rewrite fitsInGrid_inGrid in Hfit.
  set (pl := {| pl_row := r; pl_col := c; pl_length := ed_vehicleLength ed;
                pl_orientation := ed_vehicleOrientation ed |}).
  unfold editorOk, editorCells in Hok |- *. simpl.
  rewrite fmap_app, app_assoc. simpl.
  apply placementOk_app. split_and!; [done|..].
  - apply placementOk_single. split; [exact Hfit|].
    apply disjointb_spec. intros k Hk.
    by destruct (isOccupied_false ed r c _ _ false k Hocc Hk) as (_ & _ & ?).
  - apply forallb_forall. intros a Ha%list_elem_of_In. simpl.
    rewrite andb_true_r. apply disjointb_spec. intros k Hk Hin.
    destruct (isOccupied_false ed r c _ _ false k Hocc Hin) as (Hpl & Hveh & _).
    apply elem_of_app in Ha as [Ha|Ha].
    + apply list_elem_of_fmap in Ha as (pc & -> & Hpc).
      apply elem_of_option_list in Hpc. by apply (Hpl eq_refl pc).
    + apply list_elem_of_fmap in Ha as (v & -> & Hv). by apply (Hveh v).
Qed.

Lemma editorOk_placeObstacle ed r c :
  editorOk ed = true → editorOk (placeObstacle ed r c) = true.
Proof.
  intros Hok. unfold placeObstacle.
  destruct (isOccupied ed r c 1 Horizontal _ _ _) eqn:Hocc; [done|].
  change (placementOk (ed_gridSize ed)
            ((λ o, (ro_row o, ro_col o))
               <$> (ed_obstacles ed ++ [{| ro_row := r; ro_col := c;
                                           ro_type := ed_obstacleType ed |}]))
            (editorCells ed) = true).
  unfold editorOk, editorObstacles, placementOk in Hok |- *.
  apply andb_true_iff in Hok as [Hrest Hobs]. rewrite Hrest.
  rewrite andb_true_l.
  rewrite forallb_forall in Hobs |- *. intros cs Hcs.
  specialize (Hobs cs Hcs). rewrite disjointb_spec in Hobs |- *.
  intros k Hk. rewrite fmap_app, elem_of_app. intros [Hin|Hin]; [by apply (Hobs k)|].
  apply list_elem_of_singleton in Hin. simpl in Hin. subst k.
  assert (Hcell : (r, c) ∈ placementCells
            {| pl_row := r; pl_col := c; pl_length := 1;
               pl_orientation := Horizontal |}).
  { unfold placementCells, vehicleCells, cellAt. simpl.
    rewrite Z.add_0_r. by left. }
  destruct (isOccupied_false ed r c 1 Horizontal false _ Hocc Hcell)
    as (Hpl & Hveh & _).
  apply list_elem_of_In, elem_of_app in Hcs as [Ha|Ha].
  - apply list_elem_of_fmap in Ha as (pc & -> & Hpc).
    apply elem_of_option_list in Hpc. by apply (Hpl eq_refl pc).
  - apply list_elem_of_fmap in Ha as (v & -> & Hv). by apply (Hveh v).
Qed.

Lemma clearOutOfBounds_fields ed :
  ed_gridSize (clearOutOfBounds ed) = ed_gridSize ed
  ∧ ed_playerCar (clearOutOfBounds ed)
    = (pc ← ed_playerCar ed;
       if fitsInGrid ed (pl_row pc) (pl_col pc) (pl_length pc) (pl_orientation pc)
       then Some pc else None)
  ∧ ed_vehicles (clearOutOfBounds ed)
    = List.filter (λ v, fitsInGrid ed (rv_row v) (rv_col v) (rv_length v)
                                   (rv_orientation v)) (ed_vehicles ed)
  ∧ ed_obstacles (clearOutOfBounds ed)
    = List.filter (λ o, (ro_row o <? rows (ed_gridSize ed))
                        && (ro_col o <? cols (ed_gridSize ed))) (ed_obstacles ed)
  ∧ ed_exit (clearOutOfBounds ed)
    = (ex ← ed_exit ed;
       if (rows (ed_gridSize ed) <=? row ex) || (cols (ed_gridSize ed) <=? col ex)
       then None else Some ex)
  ∧ ed_testEngine (clearOutOfBounds ed) = ed_testEngine ed.
Proof.
  unfold clearOutOfBounds.
  destruct (ed_playerCar ed) as [pc|] eqn:Hpc; simpl;
    [destruct (fitsInGrid ed _ _ _ _) eqn:Hfit; simpl|];
    (destruct (ed_exit ed) as [ex|] eqn:Hex; simpl;
     [destruct (_ || _); simpl|]); by rewrite ?Hpc, ?Hex.
Qed.

Lemma editorOk_clearOutOfBounds ed gs0 :
  placementOk gs0 (editorObstacles ed) (editorCells ed) = true →
  editorOk (clearOutOfBounds ed) = true.
Proof.
  intros Hok.
  destruct (clearOutOfBounds_fields ed) as (Hgs & Hpc & Hvs & Hos & _).
  unfold editorOk, editorObstacles, editorCells. rewrite Hgs, Hpc, Hvs, Hos.
  eapply placementOk_shrink; [| |clear Hok|exact Hok].
  - apply sublist_app.
    + apply fmap_sublist.
      destruct (ed_playerCar ed) as [pc|]; simpl; [|done].
      destruct (fitsInGrid ed _ _ _ _); simpl; [done|]. apply sublist_nil_l.
    + apply fmap_sublist, List_filter_sublist.
  - intros k (o & -> & Ho)%list_elem_of_fmap. apply list_elem_of_fmap.
    exists o. split; [done|].
    apply list_elem_of_In, filter_In in Ho as [Ho _]. by apply list_elem_of_In.
  - rewrite forallb_app. apply andb_true_iff. split.
    + destruct (ed_playerCar ed) as [pc|]; simpl; [|done].
      destruct (fitsInGrid ed _ _ _ _) eqn:Hfit; simpl; [|done].
      rewrite fitsInGrid_inGrid in Hfit. destruct pc. simpl in Hfit.
      by rewrite Hfit.
    + apply forallb_forall.
      intros cs (v & -> & Hv)%list_elem_of_In%list_elem_of_fmap.
      apply list_elem_of_In, filter_In in Hv as [_ Hfit].
      by rewrite fitsInGrid_inGrid in Hfit.
Qed.

Lemma buildPuzzle_Some ed raw :
  buildPuzzle ed = Some raw →
  ed_exit ed = Some (r_exit raw) ∧ ed_playerCar ed = Some (r_playerCar raw)
  ∧ r_gridSize raw = ed_gridSize ed ∧ r_vehicles raw = ed_vehicles ed
  ∧ r_obstacles raw = ed_obstacles ed ∧ r_validation raw = ed_validation ed.
Proof.
  unfold buildPuzzle.
  destruct (ed_exit ed) as [ex|]; simpl; [|done].
  destruct (ed_playerCar ed) as [pc|]; simpl; [|done]. by intros [= <-].
Qed.

Lemma buildPuzzle_placement ed raw :
  buildPuzzle ed = Some raw → rawPlacementOk raw = editorOk ed.
Proof.
  intros (_ & Hpc & Hgs & Hvs & Hos & _)%buildPuzzle_Some.
  unfold rawPlacementOk, rawCells, rawObstacleCells, editorOk, editorCells,
    editorObstacles.
  rewrite Hpc, Hgs, Hvs, Hos. simpl. by rewrite <-list_fmap_compose.
Qed.

Lemma editorOk_rotatePuzzle ed : editorOk (rotatePuzzle ed) = editorOk ed.
Proof.
  unfold rotatePuzzle. destruct (buildPuzzle ed) as [raw|] eqn:Hraw; [|done].
  rewrite <-(buildPuzzle_placement ed raw Hraw), <-(rawPlacementOk_rotate raw).
  unfold rawPlacementOk, rawCells, rawObstacleCells, editorOk, editorCells,
    editorObstacles.
  simpl. by rewrite <-!list_fmap_compose.
Qed.

Lemma editorOk_deleteEntity ty i ed :
  editorOk ed = true → editorOk (deleteEntity ty i ed) = true.
Proof.
  intros Hok. unfold deleteEntity.
  repeat case_decide; unfold editorOk, editorCells, editorObstacles; simpl;
    (eapply placementOk_shrink; [| | |exact Hok]); try done.
  - by apply sublist_inserts_l.
  - unfold editorOk, placementOk in Hok.
    apply andb_true_iff in Hok as [[Hin _]%andb_true_iff _].
    unfold editorCells in Hin. rewrite forallb_app in Hin.
    by apply andb_true_iff in Hin as [_ ?].
  - apply sublist_app; [done|]. apply fmap_sublist, sublist_delete.
  - unfold editorOk, placementOk in Hok.
    apply andb_true_iff in Hok as [[Hin _]%andb_true_iff _].
    eapply forallb_sublist; [|exact Hin].
    apply sublist_app; [done|]. apply fmap_sublist, sublist_delete.
  - intros k (o & -> & Ho)%list_elem_of_fmap. apply list_elem_of_fmap.
    exists o. split; [done|]. unfold spliceOne in Ho.
    by eapply list_elem_of_delete_inv.
  - unfold editorOk, placementOk in Hok.
    by apply andb_true_iff in Hok as [[Hin _]%andb_true_iff _].
  - unfold editorOk, placementOk in Hok.
    by apply andb_true_iff in Hok as [[Hin _]%andb_true_iff _].
Qed.

(** X21. The editor's placements keep the placement invariants. If in
    the puzzle being edited every cell of the player car and of the
    vehicles is in the grid, no two of them share a cell and none is on an
    obstacle, then the same holds after [placePlayer], [placeVehicle] and
    [placeObstacle] at any cell, whatever the tool settings: a placement
    that would break the invariants is refused. *)
Theorem editor_keeps_placement (ed : PuzzleEditor) (r c : Z) :
  editorOk ed = true →
  editorOk (placePlayer ed r c) = true
  ∧ editorOk (placeVehicle ed r c) = true
  ∧ editorOk (placeObstacle ed r c) = true.
Proof.
  intros Hok. split_and!.
  - by apply editorOk_placePlayer.
  - by apply editorOk_placeVehicle.
  - by apply editorOk_placeObstacle.
Qed.

Lemma editor_keeps_placement_witness :
  editorOk newEditor = true
  ∧ editorOk (placeVehicle (placePlayer newEditor 1 0) 1 1) = true
  ∧ ed_vehicles (placeVehicle (placePlayer newEditor 1 0) 1 1) = [].
Proof.
  split; [vm_compute; reflexivity|]. split; [|vm_compute; reflexivity].
  apply (editor_keeps_placement (placePlayer newEditor 1 0) 1 1).
  apply (editor_keeps_placement newEditor 1 0).
  vm_compute. reflexivity.
Defined.

(** X25. Deleting, resizing and rotating in the editor keep the placement
    invariants: if they hold of the puzzle being edited, they hold after
    [deleteEntity] of any kind and index, after a change of the number of
    rows or of columns to any value (what no longer fits is dropped), and
    after [rotatePuzzle]. *)
Theorem editor_changes_keep_placement (ed : PuzzleEditor) (n : Z) (ty : string) :
  editorOk ed = true →
  editorOk (deleteEntity ty n ed) = true
  ∧ editorOk (setRows n ed) = true
  ∧ editorOk (setCols n ed) = true
  ∧ editorOk (rotatePuzzle ed) = true.
Proof.
  intros Hok. split_and!.
  - by apply editorOk_deleteEntity.
  - by apply (editorOk_clearOutOfBounds _ (ed_gridSize ed)).
  - by apply (editorOk_clearOutOfBounds _ (ed_gridSize ed)).
  - by rewrite editorOk_rotatePuzzle.
Qed.

Lemma editor_changes_keep_placement_witness :
  editorOk (placePlayer newEditor 1 2) = true
  ∧ ed_playerCar (setCols 3 (placePlayer newEditor 1 2)) = None
  ∧ editorOk (setCols 3 (placePlayer newEditor 1 2)) = true.
Proof.
  split; [vm_compute; reflexivity|]. split; [vm_compute; reflexivity|].
  apply (editor_changes_keep_placement (placePlayer newEditor 1 2) 3 "player").
  vm_compute. reflexivity.
Defined.

(** ** Testing the puzzle being edited *)

(** X22. [startTest] on an editor with a player car and an exit throws
    exactly when the exit is strictly inside the edges of the grid;
    otherwise it starts an engine, with one listener, on the hydration of
    the puzzle being edited: a template with distinct identities, which
    satisfies the placement invariants exactly when the puzzle being edited
    does. *)
Theorem startTest_outcome (ed : PuzzleEditor) :
  canTest ed = true →
  ∃ ex, ed_exit ed = Some ex
    ∧ (startTest ed = None ↔ exitInside (ed_gridSize ed) ex)
    ∧ ∀ ed', startTest ed = Some ed' →
        ∃ raw p, buildPuzzle ed = Some raw ∧ hydratePuzzle raw "test" = Some p
          ∧ ed' = set_testEngine (Some (subscribe 0 (newEngine p))) ed
          ∧ distinctIds p
          ∧ templateOk p = editorOk ed.
Proof.
  intros Hcan. unfold startTest. rewrite Hcan. simpl.
  unfold canTest in Hcan.
  apply andb_true_iff in Hcan as [[pc Hpc]%bool_decide_eq_true [ex Hex]%bool_decide_eq_true].
  assert (Hraw : ∃ raw, buildPuzzle ed = Some raw)
    by (unfold buildPuzzle; rewrite Hpc, Hex; simpl; eauto).
  destruct Hraw as [raw Hraw]. rewrite Hraw. simpl.
  destruct (buildPuzzle_Some ed raw Hraw) as (Hex' & _ & Hgs & _).
  assert (ex = r_exit raw) as -> by congruence.
  exists (r_exit raw). split; [done|]. rewrite <-Hgs. split.
  - unfold exitInside. rewrite <-deduceExitDirection_None, <-(hydratePuzzle_None raw "test").
    by destruct (hydratePuzzle raw "test").
  - intros ed'. destruct (hydratePuzzle raw "test") as [p|] eqn:Hp; simpl; [|done].
    intros [= <-]. exists raw, p. split_and!; try done.
    + by eapply hydratePuzzle_distinctIds.
    + rewrite (hydrated_templateOk _ _ _ Hp). by apply buildPuzzle_placement.
Qed.

Lemma startTest_outcome_witness :
  canTest (placePlayer newEditor 1 0) = true
  ∧ ∃ ex, ed_exit (placePlayer newEditor 1 0) = Some ex
      ∧ (startTest (placePlayer newEditor 1 0) = None
         ↔ exitInside (ed_gridSize (placePlayer newEditor 1 0)) ex).
Proof.
  split; [vm_compute; reflexivity|].
  destruct (startTest_outcome (placePlayer newEditor 1 0)) as (ex & Hex & Hthrow & _);
    [vm_compute; reflexivity|].
  exists ex. by split.
Defined.

(** ** The exit the editor places *)

Lemma fitsInGrid_two ed r c ori :
  fitsInGrid ed r c 2 ori = true →
  match ori with
  | Horizontal => 0 ≤ r < rows (ed_gridSize ed) ∧ 0 ≤ c ∧ c + 1 < cols (ed_gridSize ed)
  | Vertical => 0 ≤ r ∧ r + 1 < rows (ed_gridSize ed) ∧ 0 ≤ c < cols (ed_gridSize ed)
  end.
Proof.
  unfold fitsInGrid, occupiesCells.
  change (seqZ 0 2) with [0; 1].
  destruct ori; simpl;
    rewrite !andb_true_iff, !Z.leb_le, !Z.ltb_lt; lia.
Qed.

Lemma placePlayer_accepted ed r c :
  fitsInGrid ed r c 2 (ed_playerOrientation ed) = true →
  isOccupied ed r c 2 (ed_playerOrientation ed) (-1) true (-1) = false →
  buildPuzzle (placePlayer ed r c)
  = Some {| r_name := trim (ed_name ed);
            r_difficulty := ed_difficulty ed;
            r_gridSize := ed_gridSize ed;
            r_exit := autoExit ed r c;
            r_playerCar := {| pl_row := r; pl_col := c; pl_length := 2;
                              pl_orientation := ed_playerOrientation ed |};
            r_vehicles := ed_vehicles ed;
            r_obstacles := ed_obstacles ed;
            r_validation := None |}.
Proof.
  intros Hfit Hocc. unfold placePlayer. rewrite Hfit, Hocc. simpl.
  unfold autoPlaceExit, autoExit. simpl.
  destruct (ed_playerOrientation ed); case_decide; reflexivity.
Qed.

(** X23. The exit [placePlayer] puts on the board. When the player car is
    accepted at a cell, the puzzle can be built and hydrating it never
    throws; for a horizontal player the deduced direction is along its
    row ([right] when the exit side is set to [right], [left] otherwise);
    but for a vertical player in the first or the last column the deduced
    direction is [left] or [right], across the player's axis, and it is
    along the column ([down] when the exit side is set to [down], [up]
    otherwise) only in the other columns. *)
Theorem placePlayer_exit (ed : PuzzleEditor) (r c : Z) (id : string) :
  fitsInGrid ed r c 2 (ed_playerOrientation ed) = true →
  isOccupied ed r c 2 (ed_playerOrientation ed) (-1) true (-1) = false →
  ∃ raw p,
    buildPuzzle (placePlayer ed r c) = Some raw
    ∧ r_playerCar raw = {| pl_row := r; pl_col := c; pl_length := 2;
                           pl_orientation := ed_playerOrientation ed |}
    ∧ hydratePuzzle raw id = Some p
    ∧ (exitAcross p = true
       ↔ ed_playerOrientation ed = Vertical
         ∧ (c = 0 ∨ c = cols (ed_gridSize ed) - 1))
    ∧ (exitAcross p = false →
       direction (exit p)
       = match ed_playerOrientation ed with
         | Horizontal => if decide (ed_exitSide ed = Right) then Right else Left
         | Vertical => if decide (ed_exitSide ed = Down) then Down else Up
         end).
Proof.
  intros Hfit Hocc.
  rewrite (placePlayer_accepted ed r c Hfit Hocc).
  apply fitsInGrid_two in Hfit.
  assert (Hd : ∃ d,
    deduceExitDirection (autoExit ed r c) (ed_gridSize ed) = Some d
    ∧ (match ed_playerOrientation ed, d with
       | Horizontal, Up | Horizontal, Down | Vertical, Left | Vertical, Right => true
       | _, _ => false
       end = true
       ↔ ed_playerOrientation ed = Vertical
         ∧ (c = 0 ∨ c = cols (ed_gridSize ed) - 1))
    ∧ (match ed_playerOrientation ed, d with
       | Horizontal, Up | Horizontal, Down | Vertical, Left | Vertical, Right => true
       | _, _ => false
       end = false →
       d = match ed_playerOrientation ed with
           | Horizontal => if decide (ed_exitSide ed = Right) then Right else Left
           | Vertical => if decide (ed_exitSide ed = Down) then Down else Up
           end)).
  { unfold autoExit, deduceExitDirection.
    destruct (ed_gridSize ed) as [R C]. simpl in *.
    destruct (ed_playerOrientation ed); case_decide; simpl.
    - destruct (Z.leb_spec (C - 1) (C - 1)); [|lia].
      exists Right. split; [done|]. split; [|done].
      split; [done|]. by intros [? _].
    - destruct (Z.leb_spec (C - 1) 0); [lia|]. simpl.
      exists Left. split; [done|]. split; [|done].
      split; [done|]. by intros [? _].
    - destruct (Z.leb_spec (C - 1) c);
        [|destruct (Z.leb_spec c 0);
          [|destruct (Z.leb_spec (R - 1) (R - 1)); [|lia]]].
      + exists Right. split; [done|]. split; [|done].
        split; [intros _; split; [done|lia]|done].
      + exists Left. split; [done|]. split; [|done].
        split; [intros _; split; [done|lia]|done].
      + exists Down. split; [done|]. split; [|done].
        split; [done|]. intros [_ ?]. lia.
    - destruct (Z.leb_spec (C - 1) c);
        [|destruct (Z.leb_spec c 0);
          [|destruct (Z.leb_spec (R - 1) 0); [lia|]]].
      + exists Right. split; [done|]. split; [|done].
        split; [intros _; split; [done|lia]|done].
      + exists Left. split; [done|]. split; [|done].
        split; [intros _; split; [done|lia]|done].
      + exists Up. split; [done|]. split; [|done].
        split; [done|]. intros [_ ?]. lia. }
  destruct Hd as (d & Hd & Hacross & Hdir).
  eexists _, _.
  split; [reflexivity|]. split; [reflexivity|].
  split; [unfold hydratePuzzle; simpl; rewrite Hd; reflexivity|].
  split; [exact Hacross|exact Hdir].
Qed.

Lemma placePlayer_exit_witness :
  ed_playerCar editorVertical
  = Some {| pl_row := 0; pl_col := 0; pl_length := 2; pl_orientation := Vertical |}
  ∧ ∃ raw p, buildPuzzle editorVertical = Some raw
      ∧ hydratePuzzle raw "test" = Some p
      ∧ direction (exit p) = Left
      ∧ exitAcross p = true.
Proof.
  split; [vm_compute; reflexivity|].
  destruct (placePlayer_exit
              {| ed_name := "New Puzzle"; ed_difficulty := Easy;
                 ed_gridSize := {| rows := 4; cols := 4 |};
                 ed_exit := None; ed_playerCar := None; ed_vehicles := [];
                 ed_obstacles := []; ed_validation := None; ed_vehicleLength := 2;
                 ed_vehicleOrientation := Horizontal; ed_vehicleColor := Blue;
                 ed_obstacleType := Tree; ed_playerOrientation := Vertical;
                 ed_exitSide := Down; ed_testEngine := None |} 0 0 "test")
    as (raw & p & Hraw & _ & Hp & Hacross & _);
    [vm_compute; reflexivity..|].
  exists raw, p. split; [exact Hraw|]. split; [exact Hp|].
  assert (Hx : exitAcross p = true) by (apply Hacross; simpl; auto).
  split; [|exact Hx].
  vm_compute in Hraw. injection Hraw as <-.
  vm_compute in Hp. by injection Hp as <-.
Defined.

(** ** Resizing under the exit *)

(** X24. A resize never moves the exit: when the grid is given a size in
    which the player car still fits and the exit, left where it was, is
    strictly inside the edges, the editor keeps both, and [startTest] on
    it throws. *)
Theorem resize_strands_exit (ed : PuzzleEditor) (gs : GridSize)
    (pc : Placement) (ex : Position) :
  ed_playerCar ed = Some pc → ed_exit ed = Some ex →
  fitsInGrid (set_gridSize gs ed) (pl_row pc) (pl_col pc) (pl_length pc)
             (pl_orientation pc) = true →
  exitInside gs ex →
  ed_playerCar (clearOutOfBounds (set_gridSize gs ed)) = Some pc
  ∧ ed_exit (clearOutOfBounds (set_gridSize gs ed)) = Some ex
  ∧ startTest (clearOutOfBounds (set_gridSize gs ed)) = None.
Proof.
  intros Hpc Hex Hfit [Hc Hr].
  destruct (clearOutOfBounds_fields (set_gridSize gs ed))
    as (Hgs' & Hpc' & Hvs' & Hos' & Hex' & _).
  remember (clearOutOfBounds (set_gridSize gs ed)) as ed1 eqn:Hed1. clear Hed1.
  simpl in Hpc', Hex', Hgs'. rewrite Hpc in Hpc'. rewrite Hex in Hex'.
  simpl in Hpc', Hex'. rewrite Hfit in Hpc'.
  destruct (Z.leb_spec (rows gs) (row ex)); [lia|].
  destruct (Z.leb_spec (cols gs) (col ex)); [lia|]. simpl in Hex'.
  split; [done|]. split; [done|].
  unfold startTest, canTest, buildPuzzle. rewrite Hpc', Hex'. simpl.
  rewrite ?bool_decide_eq_true_2 by eauto. simpl.
  unfold hydratePuzzle. simpl. rewrite Hgs'.
  by rewrite (proj2 (deduceExitDirection_None gs ex) (conj Hc Hr)).
Qed.

Lemma resize_strands_exit_witness :
  ed_exit (placePlayer newEditor 1 0) = Some {| row := 1; col := 3 |}
  ∧ startTest (placePlayer newEditor 1 0) ≠ None
  ∧ setCols 6 (placePlayer newEditor 1 0)
    = clearOutOfBounds (set_gridSize {| rows := 4; cols := 6 |}
                                     (placePlayer newEditor 1 0))
  ∧ startTest (setCols 6 (placePlayer newEditor 1 0)) = None.
Proof.
  split; [vm_compute; reflexivity|]. split; [vm_compute; discriminate|].
  split; [reflexivity|].
  apply (resize_strands_exit (placePlayer newEditor 1 0) {| rows := 4; cols := 6 |}
           {| pl_row := 1; pl_col := 0; pl_length := 2; pl_orientation := Horizontal |}
           {| row := 1; col := 3 |});
    [vm_compute; reflexivity..|unfold exitInside; simpl; lia].
Defined.
